(** * Bib audit (Maynooth Harvard): splitter, parser, rule engine, serializer
      and batch driver of [Master_Sources/bib_audit_batch.py].

    Python [str] values are modelled as lists of characters.  The character
    type is Rocq's [ascii]; the classification functions and the case maps
    below are those of CPython on the code points 0..127.  Above 127 they
    are not: there Python has more letters and more white space, and
    [str.upper] can turn one character into two.  The code points 128..255
    are kept as caseless symbols that are neither white space nor word
    characters, and a statement whose truth depends on the classes or on
    the case maps is made for ASCII text ([ascii_text]) only. *)

From Stdlib Require Import Ascii String DecimalString.
From Stdlib Require Import List Arith Lia Bool.
Import ListNotations.
Local Open Scope list_scope.

(* ================================================================== *)
(** * Python string primitives *)
(* ================================================================== *)

Module Py.

Definition str := list ascii.

(** A string literal. *)
Definition lit (s : string) : str := list_ascii_of_string s.

Definition nl : ascii := ascii_of_nat 10.

Definition chr_eqb (a b : ascii) : bool := Ascii.eqb a b.

Fixpoint str_eqb (a b : str) : bool :=
  match a, b with
  | [], [] => true
  | x :: a', y :: b' => chr_eqb x y && str_eqb a' b'
  | _, _ => false
  end.

(** [c.isspace()] for one character, which is also the class [\s] of [re]
    on [str] patterns: TAB, LF, VT, FF, CR, FS, GS, RS, US and SPACE. *)
Definition isspace_c (c : ascii) : bool :=
  let n := nat_of_ascii c in
  ((9 <=? n) && (n <=? 13)) || ((28 <=? n) && (n <=? 31)) || (n =? 32).

Definition isupper_c (c : ascii) : bool :=
  let n := nat_of_ascii c in (65 <=? n) && (n <=? 90).

Definition islower_c (c : ascii) : bool :=
  let n := nat_of_ascii c in (97 <=? n) && (n <=? 122).

Definition isalpha_c (c : ascii) : bool := isupper_c c || islower_c c.

Definition isdigit_c (c : ascii) : bool :=
  let n := nat_of_ascii c in (48 <=? n) && (n <=? 57).

(** The class [\w]: letters, digits and the underscore. *)
Definition isword_c (c : ascii) : bool :=
  isalpha_c c || isdigit_c c || chr_eqb c "_"%char.

Definition upper_c (c : ascii) : ascii :=
  if islower_c c then ascii_of_nat (nat_of_ascii c - 32) else c.

Definition lower_c (c : ascii) : ascii :=
  if isupper_c c then ascii_of_nat (nat_of_ascii c + 32) else c.

Definition upper (s : str) : str := map upper_c s.
Definition lower (s : str) : str := map lower_c s.

(** [s.isspace()]: non-empty and every character is white space. *)
Definition isspace (s : str) : bool :=
  match s with [] => false | _ => forallb isspace_c s end.

(** [s.isupper()]: at least one cased character and no lowercase one. *)
Definition isupper (s : str) : bool :=
  existsb isupper_c s && negb (existsb islower_c s).

(** [s.capitalize()]. *)
Definition capitalize (s : str) : str :=
  match s with
  | [] => []
  | c :: s' => upper_c c :: lower s'
  end.

Fixpoint dropwhile (p : ascii -> bool) (s : str) : str :=
  match s with
  | [] => []
  | c :: s' => if p c then dropwhile p s' else s
  end.

Definition lstrip (s : str) : str := dropwhile isspace_c s.
Definition rstrip (s : str) : str := rev (dropwhile isspace_c (rev s)).
Definition strip (s : str) : str := rstrip (lstrip s).

Fixpoint startswith (p s : str) : bool :=
  match p, s with
  | [], _ => true
  | x :: p', y :: s' => chr_eqb x y && startswith p' s'
  | _ :: _, [] => false
  end.

Definition endswith (p s : str) : bool := startswith (rev p) (rev s).

(** [sub in s]. *)
Fixpoint contains (sub s : str) : bool :=
  startswith sub s ||
  match s with
  | [] => false
  | _ :: s' => contains sub s'
  end.

(** Index of the first [c] in [s], counted from the head of [s]. *)
Fixpoint index_of (c : ascii) (s : str) : option nat :=
  match s with
  | [] => None
  | x :: s' => if chr_eqb x c then Some 0
               else match index_of c s' with
                    | Some k => Some (S k)
                    | None => None
                    end
  end.

(** [s.find(c, i)], with [None] for [-1]. *)
Definition find (c : ascii) (s : str) (i : nat) : option nat :=
  match index_of c (skipn i s) with
  | Some k => Some (i + k)
  | None => None
  end.

(** Index of the last [c] in [s]. *)
Fixpoint last_index_of (c : ascii) (s : str) : option nat :=
  match s with
  | [] => None
  | x :: s' => match last_index_of c s' with
               | Some k => Some (S k)
               | None => if chr_eqb x c then Some 0 else None
               end
  end.

(** [s.rfind(c, 0, e)], with [None] for [-1]. *)
Definition rfind (c : ascii) (s : str) (e : nat) : option nat :=
  last_index_of c (firstn e s).

(** [s[a:b]] and [s[a:]] for non-negative indices. *)
Definition slice (s : str) (a b : nat) : str := firstn (b - a) (skipn a s).
Definition slice_from (s : str) (a : nat) : str := skipn a s.

(** [sep.join(l)]. *)
Fixpoint join (sep : str) (l : list str) : str :=
  match l with
  | [] => []
  | [x] => x
  | x :: l' => x ++ sep ++ join sep l'
  end.

(** [s.replace(a, b)] for a non-empty [a]: the occurrences of [a] are
    replaced from left to right, without overlap.  [skip] counts the
    characters of an occurrence that are still to be dropped. *)
Fixpoint replace_go (a b s : str) (skip : nat) : str :=
  match s with
  | [] => []
  | c :: s' =>
      match skip with
      | S n => replace_go a b s' n
      | 0 => if startswith a s
             then b ++ replace_go a b s' (length a - 1)
             else c :: replace_go a b s' 0
      end
  end.

Definition replace (a b s : str) : str := replace_go a b s 0.

(** [s.split()]: the maximal runs of non-space characters. *)
Fixpoint split_ws_aux (s cur : str) : list str :=
  match s with
  | [] => match cur with [] => [] | _ => [rev cur] end
  | c :: s' =>
      if isspace_c c
      then match cur with
           | [] => split_ws_aux s' []
           | _ => rev cur :: split_ws_aux s' []
           end
      else split_ws_aux s' (c :: cur)
  end.

Definition split_ws (s : str) : list str := split_ws_aux s [].

(** [s.split(c, 1)]: at most one cut, at the first [c]. *)
Definition split_once (c : ascii) (s : str) : list str :=
  match index_of c s with
  | Some k => [firstn k s; skipn (S k) s]
  | None => [s]
  end.

(** [f"{k:<w}"]: left-justified in a field of width [w]. *)
Definition ljust (w : nat) (s : str) : str :=
  s ++ repeat " "%char (w - length s).

(** [str(n)] for a non-negative integer. *)
Definition str_of_nat (n : nat) : str :=
  lit (NilZero.string_of_uint (Nat.to_uint n)).

(** [f"{n:0wd}"]: decimal, zero-padded on the left to width [w]. *)
Definition zfill (w : nat) (n : nat) : str :=
  let d := str_of_nat n in repeat "0"%char (w - length d) ++ d.

End Py.

(* ================================================================== *)
(** * The [re] module: a backtracking matcher *)
(* ================================================================== *)

Module Re.
Import Py.

(** Pattern syntax, as far as the two scripts use it.  A character class is
    a predicate; [Star true] is the greedy [*], [Star false] the lazy [*?];
    [Eol] is [$] (without MULTILINE) and [Bnd] is [\b]. *)
Inductive re : Type :=
| Eps
| Chr (p : ascii -> bool)
| Seq (a b : re)
| Alt (a b : re)
| Star (greedy : bool) (a : re)
| Group (n : nat) (a : re)
| Eol
| Bnd.

Definition Lit (c : ascii) : re := Chr (chr_eqb c).
(** A literal letter under IGNORECASE. *)
Definition LitI (c : ascii) : re := Chr (fun x => chr_eqb (lower_c x) (lower_c c)).
Definition Plus (a : re) : re := Seq a (Star true a).
Definition Opt (a : re) : re := Alt a Eps.
Definition AtLeast2 (a : re) : re := Seq a (Seq a (Star true a)).

(** Captured groups, most recent first. *)
Definition caps := list (nat * str).

Fixpoint group (n : nat) (env : caps) : option str :=
  match env with
  | [] => None
  | (m, s) :: env' => if n =? m then Some s else group n env'
  end.

Definition at_eol (s : str) : bool :=
  match s with
  | [] => true
  | [c] => chr_eqb c nl
  | _ => false
  end.

Definition is_word_opt (c : option ascii) : bool :=
  match c with Some x => isword_c x | None => false end.

Definition at_boundary (prev : option ascii) (s : str) : bool :=
  negb (Bool.eqb (is_word_opt prev) (is_word_opt (hd_error s))).

(** The iterations of a star.  [body] matches the starred pattern once and
    [k] is what follows the star.  The greedy star first tries one more
    iteration, the lazy one first tries to go on with [k].  An iteration has
    to consume a character (no starred pattern of the scripts can match the
    empty string), so the length of the input bounds their number. *)
Fixpoint star_loop {A} (body : option ascii -> str -> caps ->
                               (option ascii -> str -> caps -> option A) ->
                               option A)
         (g : bool) (k : option ascii -> str -> caps -> option A)
         (fuel : nat) (prev : option ascii) (s : str) (env : caps)
  : option A :=
  match fuel with
  | 0 => k prev s env
  | S fuel' =>
      let more :=
        fun _ : unit =>
          body prev s env
               (fun prev' s' env' =>
                  if length s' <? length s
                  then star_loop body g k fuel' prev' s' env' else None) in
      if g then match more tt with
                | Some x => Some x
                | None => k prev s env
                end
      else match k prev s env with
           | Some x => Some x
           | None => more tt
           end
  end.

(** [run r prev s env k]: match [r] at the head of [s] ([prev] is the
    character just before it), then hand the rest to the continuation [k];
    a [None] from [k] makes the matcher backtrack into its last choice, in
    the order CPython tries them. *)
Fixpoint run {A} (r : re) (prev : option ascii) (s : str) (env : caps)
         (k : option ascii -> str -> caps -> option A) {struct r} : option A :=
  match r with
  | Eps => k prev s env
  | Chr p =>
      match s with
      | c :: s' => if p c then k (Some c) s' env else None
      | [] => None
      end
  | Seq a b => run a prev s env (fun prev' s' env' => run b prev' s' env' k)
  | Alt a b =>
      match run a prev s env k with
      | Some x => Some x
      | None => run b prev s env k
      end
  | Group n a =>
      run a prev s env
          (fun prev' s' env' =>
             k prev' s' ((n, firstn (length s - length s') s) :: env'))
  | Eol => if at_eol s then k prev s env else None
  | Bnd => if at_boundary prev s then k prev s env else None
  | Star g a =>
      star_loop (fun prev' s' env' k' => run a prev' s' env' k') g k
                (length s) prev s env
  end.

(** A match object: the text before the match, the matched text, the
    groups, and the text after it. *)
Record rmatch : Type := MkMatch {
  m_before : str;
  m_text : str;
  m_groups : caps;
  m_after : str
}.

(** [re.match]: a match at the head of [s]. *)
Definition match_here (r : re) (prev : option ascii) (s : str)
  : option (str * caps) :=
  run r prev s [] (fun _ s' env => Some (s', env)).

(** [re.fullmatch]. *)
Definition fullmatch (r : re) (s : str) : bool :=
  match run r None s []
            (fun _ s' env => match s' with [] => Some env | _ => None end) with
  | Some _ => true
  | None => false
  end.

(** [re.search]: the match at the leftmost position that has one.  [before]
    holds, reversed, the text already passed. *)
Fixpoint search_from (r : re) (before : str) (s : str) : option rmatch :=
  match match_here r (hd_error before) s with
  | Some (s', env) =>
      Some (MkMatch (rev before) (firstn (length s - length s') s) env s')
  | None =>
      match s with
      | [] => None
      | c :: s' => search_from r (c :: before) s'
      end
  end.

Definition search (r : re) (s : str) : option rmatch := search_from r [] s.

(** [re.finditer]: the successive non-overlapping matches, left to right.
    Each search resumes where the last match ended ([before] still holds
    what precedes that point, so that [\b] sees it).  After an empty match
    the scan moves one character on; the patterns used here never match
    the empty string. *)
Fixpoint finditer_from (fuel : nat) (r : re) (before : str) (s : str)
  : list rmatch :=
  match fuel with
  | 0 => []
  | S fuel' =>
      match search_from r before s with
      | None => []
      | Some m =>
          let consumed := rev (m_text m) ++ rev (m_before m) in
          match m_text m, m_after m with
          | [], [] => [m]
          | [], c :: rest => m :: finditer_from fuel' r (c :: consumed) rest
          | _ :: _, rest => m :: finditer_from fuel' r consumed rest
          end
      end
  end.

Definition finditer (r : re) (s : str) : list rmatch :=
  finditer_from (S (length s)) r [] s.

(** The texts of groups [1..n] of a match ([None] groups do not occur with
    the patterns used). *)
Definition groups_upto (n : nat) (env : caps) : list str :=
  map (fun i => match group i env with Some g => g | None => [] end)
      (seq 1 n).

(** [re.split] for a pattern with [n] capturing groups: the pieces between
    the matches, each match contributing its groups. *)
Fixpoint split_from (fuel : nat) (r : re) (n : nat) (before piece s : str)
  : list str :=
  match fuel with
  | 0 => [rev piece ++ s]
  | S fuel' =>
      match search_from r before s with
      | None => [rev piece ++ s]
      | Some m =>
          let skipped := skipn (length before) (m_before m) in
          let consumed := rev (m_text m) ++ rev (m_before m) in
          match m_text m, m_after m with
          | [], [] => [rev piece ++ s]
          | [], c :: rest =>
              split_from fuel' r n (c :: consumed)
                         (c :: rev skipped ++ piece) rest
          | _ :: _, rest =>
              (rev piece ++ skipped)
                :: groups_upto n (m_groups m)
                ++ split_from fuel' r n consumed [] rest
          end
      end
  end.

Definition split (r : re) (n : nat) (s : str) : list str :=
  split_from (S (length s)) r n [] [] s.

End Re.

(* ================================================================== *)
(** * Exceptions and dictionaries *)
(* ================================================================== *)

Module PyData.
Import Py.

Inductive exn : Type :=
| ValueError (msg : str)
| IndexError (msg : str)
| KeyError (key : str).

(** [str(e)]. *)
Definition exn_str (e : exn) : str :=
  match e with
  | ValueError msg => msg
  | IndexError msg => msg
  | KeyError key => lit "'" ++ key ++ lit "'"
  end.

Inductive result (A : Type) : Type :=
| Ok (a : A)
| Raise (e : exn).

Arguments Ok {A} a.
Arguments Raise {A} e.

Definition bind {A B} (x : result A) (f : A -> result B) : result B :=
  match x with
  | Ok a => f a
  | Raise e => Raise e
  end.

(** A [dict] with [str] keys and values: the items in insertion order, no
    key twice. *)
Definition dict := list (str * str).

Fixpoint dict_in (k : str) (F : dict) : bool :=
  match F with
  | [] => false
  | (k', _) :: F' => str_eqb k k' || dict_in k F'
  end.

Fixpoint dict_find (k : str) (F : dict) : option str :=
  match F with
  | [] => None
  | (k', v) :: F' => if str_eqb k k' then Some v else dict_find k F'
  end.

(** [F[k]]. *)
Definition dict_getitem (k : str) (F : dict) : result str :=
  match dict_find k F with
  | Some v => Ok v
  | None => Raise (KeyError k)
  end.

(** [F.get(k, d)]. *)
Definition dict_get (k : str) (d : str) (F : dict) : str :=
  match dict_find k F with
  | Some v => v
  | None => d
  end.

(** [F[k] = v]: an existing key keeps its place, a new one goes last. *)
Fixpoint dict_set (k v : str) (F : dict) : dict :=
  match F with
  | [] => [(k, v)]
  | (k', v') :: F' =>
      if str_eqb k k' then (k', v) :: F' else (k', v') :: dict_set k v F'
  end.

(** [F.pop(k, None)]. *)
Fixpoint dict_pop (k : str) (F : dict) : dict :=
  match F with
  | [] => []
  | (k', v') :: F' =>
      if str_eqb k k' then F' else (k', v') :: dict_pop k F'
  end.

Definition dict_keys (F : dict) : list str := map fst F.

(** [x in l] for a list, tuple or set of strings. *)
Definition str_in (x : str) (l : list str) : bool := existsb (str_eqb x) l.

(** [l[-1]]. *)
Definition list_last (l : list str) : result str :=
  match rev l with
  | x :: _ => Ok x
  | [] => Raise (IndexError (lit "list index out of range"))
  end.

(** [l[i]] for [i >= 0]. *)
Definition list_getitem (l : list str) (i : nat) : result str :=
  match nth_error l i with
  | Some x => Ok x
  | None => Raise (IndexError (lit "list index out of range"))
  end.

(** [a, b = l]. *)
Definition unpack2 (l : list str) : result (str * str) :=
  match l with
  | [a; b] => Ok (a, b)
  | _ => Raise (ValueError (lit "wrong number of values to unpack"))
  end.

End PyData.

(* ================================================================== *)
(** * bib_audit_batch.py *)
(* ================================================================== *)

Module BibAuditBatch.
Import Py Re PyData.

Notation "x <- a ;; b" := (bind a (fun x => b))
  (at level 61, a at next level, right associativity).
Notation "' p <- a ;; b" := (bind a (fun p => b))
  (at level 61, p pattern, a at next level, right associativity).
Infix ";;;" := Seq (at level 60, right associativity).

(** ** Configuration *)

Definition REQUIRE_ONLINE_ACCESS_BLOCK := true.
Definition STRICT_SENTENCE_CASE_HINT := true.
Definition REQUIRE_INITIALS := true.

(** ** Patterns *)

Definition ws : re := Chr isspace_c.
Definition any_chr (c : ascii) : bool := true.
Definition not_comma (c : ascii) : bool := negb (chr_eqb c ","%char).
(** The class [[^\W\d_]]: a word character that is no digit and no
    underscore. *)
Definition letter_c (c : ascii) : bool :=
  isword_c c && negb (isdigit_c c) && negb (chr_eqb c "_"%char).

(** [@(?P<type>\w+)\s*\{\s*(?P<key>[^,]+)\s*,]; group 1 is [type], group 2
    is [key]. *)
Definition ENTRY_HEAD_RE : re :=
  Lit "@" ;;; Group 1 (Plus (Chr isword_c)) ;;; Star true ws ;;; Lit "{" ;;;
  Star true ws ;;; Group 2 (Plus (Chr not_comma)) ;;; Star true ws ;;; Lit ",".

(** [(?P<name>[A-Za-z]+)\s*=\s*\{(?P<value>.*?)\}\s*,?] with DOTALL; group 1
    is [name], group 2 is [value]. *)
Definition FIELD_RE : re :=
  Group 1 (Plus (Chr isalpha_c)) ;;; Star true ws ;;; Lit "=" ;;;
  Star true ws ;;; Lit "{" ;;; Group 2 (Star false (Chr any_chr)) ;;;
  Lit "}" ;;; Star true ws ;;; Opt (Lit ",").

(** [(\s+)] *)
Definition WS_GROUP_RE : re := Group 1 (Plus ws).

(** [\s+\band\b\s+] with IGNORECASE *)
Definition AND_RE : re :=
  Plus ws ;;; Bnd ;;; LitI "a" ;;; LitI "n" ;;; LitI "d" ;;; Bnd ;;; Plus ws.

(** [,\s*[^\W\d_]{2,}] *)
Definition FULL_GIVEN_RE : re :=
  Lit "," ;;; Star true ws ;;; AtLeast2 (Chr letter_c).

(** [,\s*[A-Z]\.(?:\s*[A-Z]\.)*$] *)
Definition INITIALS_RE : re :=
  Lit "," ;;; Star true ws ;;; Chr isupper_c ;;; Lit "." ;;;
  Star true (Star true ws ;;; Chr isupper_c ;;; Lit ".") ;;; Eol.

(** [(\s+|-)] *)
Definition SEP_GROUP_RE : re := Group 1 (Alt (Plus ws) (Lit "-")).

(** [\s+|-] *)
Definition SEP_RE : re := Alt (Plus ws) (Lit "-").

(** [[^\W\d_]] *)
Definition LETTER_RE : re := Chr letter_c.

(** [\d+|[0-9]+(st|nd|rd|th)] with IGNORECASE *)
Definition EDITION_RE : re :=
  Alt (Plus (Chr isdigit_c))
      (Plus (Chr isdigit_c) ;;;
       Group 1 (Alt (LitI "s" ;;; LitI "t")
               (Alt (LitI "n" ;;; LitI "d")
               (Alt (LitI "r" ;;; LitI "d")
                    (LitI "t" ;;; LitI "h"))))).

Definition MONTHS : list str :=
  map lit ["January"; "February"; "March"; "April"; "May"; "June"; "July";
           "August"; "September"; "October"; "November"; "December"]%string.

(** ** Core helpers *)

(** The loop of [sentence_case]; [out] is the list built so far. *)
Fixpoint sentence_case_loop (tokens out : list str) (first_alpha_done : bool)
  : list str :=
  match tokens with
  | [] => out
  | t :: tokens' =>
      if isspace t then sentence_case_loop tokens' (out ++ [t]) first_alpha_done
      else if negb first_alpha_done then
        if isupper t && (length t <=? 5)
        then sentence_case_loop tokens' (out ++ [t]) true
        else sentence_case_loop tokens'
               (out ++ [upper (firstn 1 t) ++ lower (skipn 1 t)]) true
      else
        if isupper t && (length t <=? 5)
        then sentence_case_loop tokens' (out ++ [t]) true
        else
          if match rev out with
             | last :: _ => endswith (lit ":") last
             | [] => false
             end
          then sentence_case_loop tokens'
                 (out ++ [upper (firstn 1 t) ++ lower (skipn 1 t)]) true
          else sentence_case_loop tokens' (out ++ [lower t]) true
  end.

Definition sentence_case (title : str) : str :=
  match strip title with
  | [] => title
  | _ => concat (sentence_case_loop (split WS_GROUP_RE 1 title) [] false)
  end.

(** What [datetime.date.today()] returned. *)
Record date : Type := MkDate { year : nat; month : nat; day : nat }.

(** The invariant of [datetime.date] the code relies on. *)
Definition valid_date (d : date) : Prop := 1 <= month d <= 12.

Definition iso_today (today : date) : str :=
  zfill 4 (year today) ++ lit "-" ++ zfill 2 (month today) ++ lit "-"
        ++ zfill 2 (day today).

Definition accessed_today (d : date) : result str :=
  m <- list_getitem MONTHS (month d - 1) ;;
  Ok (lit "(Accessed: " ++ str_of_nat (day d) ++ lit " " ++ m ++ lit " "
          ++ str_of_nat (year d) ++ lit ")").

Definition is_some {A} (o : option A) : bool :=
  match o with Some _ => true | None => false end.

Definition is_corporate (a : str) : bool :=
  startswith (lit "{") a && endswith (lit "}") a.

Fixpoint author_uses_full_given_names_loop (authors : list str) : bool :=
  match authors with
  | [] => false
  | a :: authors' =>
      let a := strip a in
      match a with
      | [] => author_uses_full_given_names_loop authors'
      | _ =>
          if is_corporate a then author_uses_full_given_names_loop authors'
          else if is_some (search FULL_GIVEN_RE a)
                  && negb (is_some (search INITIALS_RE a))
               then true
               else author_uses_full_given_names_loop authors'
      end
  end.

Definition author_uses_full_given_names (author_field : str) : bool :=
  author_uses_full_given_names_loop (split AND_RE 0 author_field).

Fixpoint givens_to_initials_loop (parts out : list str) : list str :=
  match parts with
  | [] => out
  | p :: parts' =>
      if match p with [] => true | _ => false end
         || is_some (match_here SEP_RE None p)
      then givens_to_initials_loop parts' (out ++ [p])
      else match search LETTER_RE p with
           | Some m =>
               givens_to_initials_loop parts'
                 (out ++ [upper (m_text m) ++ lit "."])
           | None => givens_to_initials_loop parts' out
           end
  end.

Definition _givens_to_initials (givens : str) : str :=
  replace (lit "..") (lit ".")
    (concat (givens_to_initials_loop (split SEP_GROUP_RE 1 (strip givens)) [])).

Fixpoint enforce_initials_loop (authors fixed : list str)
  : result (list str) :=
  match authors with
  | [] => Ok fixed
  | a :: authors' =>
      let a := strip a in
      match a with
      | [] => enforce_initials_loop authors' fixed
      | _ =>
          if is_corporate a then enforce_initials_loop authors' (fixed ++ [a])
          else if contains (lit ",") a then
            '(surname, givens) <- unpack2 (split_once "," a) ;;
            enforce_initials_loop authors'
              (fixed ++ [strip surname ++ lit ", " ++ _givens_to_initials givens])
          else
            let parts := split_ws a in
            surname <- list_last parts ;;
            let givens := join (lit " ") (removelast parts) in
            enforce_initials_loop authors'
              (fixed ++ [surname ++ lit ", " ++ _givens_to_initials givens])
      end
  end.

Definition enforce_initials (author_field : str) : result str :=
  fixed <- enforce_initials_loop (split AND_RE 0 author_field) [] ;;
  Ok (join (lit " and ") fixed).

Definition parse_error_msg : str :=
  lit "Could not find @type{key, ...} in entry.".

Definition group_text (n : nat) (m : rmatch) : str :=
  match group n (m_groups m) with Some g => g | None => [] end.

(** The dict comprehension of [parse_entry]. *)
Definition fields_of (ms : list rmatch) : dict :=
  fold_left (fun F m => dict_set (lower (group_text 1 m))
                                 (strip (group_text 2 m)) F) ms [].

Definition parse_entry (text : str) : result (str * str * dict) :=
  match search ENTRY_HEAD_RE text with
  | None => Raise (ValueError parse_error_msg)
  | Some m =>
      let etype := lower (group_text 1 m) in
      let key := strip (group_text 2 m) in
      let fields := fields_of (finditer FIELD_RE text) in
      Ok (etype, key, fields)
  end.

(** ** Serializer *)

Definition order_hint : list str :=
  map lit ["author"; "title"; "year"; "date"; "type"; "institution";
           "organization"; "journaltitle"; "volume"; "number"; "pages";
           "edition"; "location"; "publisher"; "note"; "url"; "urldate";
           "addendum"; "issn"; "isbn"; "series"; "doi"]%string.

(** [f"  {k:<12}= {{{v}}},"] *)
Definition field_line (k v : str) : str :=
  lit "  " ++ ljust 12 k ++ lit "= {" ++ v ++ lit "},".

(** First loop of [rebuild_entry], over [order_hint]. *)
Fixpoint rebuild_hinted (hint : list str) (F : dict) (lines used : list str)
  : list str * list str :=
  match hint with
  | [] => (lines, used)
  | k :: hint' =>
      match dict_find k F with
      | Some v =>
          match strip v with
          | [] => rebuild_hinted hint' F lines used
          | _ => rebuild_hinted hint' F (lines ++ [field_line k v]) (used ++ [k])
          end
      | None => rebuild_hinted hint' F lines used
      end
  end.

(** Second loop of [rebuild_entry], over [F.items()]. *)
Fixpoint rebuild_rest (items : dict) (lines used : list str) : list str :=
  match items with
  | [] => lines
  | (k, v) :: items' =>
      if negb (str_in k used)
      then rebuild_rest items' (lines ++ [field_line k v]) used
      else rebuild_rest items' lines used
  end.

(** [lines[-1] = lines[-1][:-1]] when there is a field line and it ends
    with a comma. *)
Definition strip_last_comma (lines : list str) : list str :=
  match rev lines with
  | last :: _ =>
      if (1 <? length lines) && endswith (lit ",") last
      then removelast lines ++ [removelast last]
      else lines
  | [] => lines
  end.

Definition rebuild_lines (etype key : str) (F : dict) : list str :=
  let lines := [lit "@" ++ capitalize etype ++ lit "{" ++ key ++ lit ","] in
  let '(lines, used) := rebuild_hinted order_hint F lines [] in
  let lines := rebuild_rest F lines used in
  strip_last_comma lines ++ [lit "}"].

Definition rebuild_entry (etype key : str) (F : dict) : str :=
  join [nl] (rebuild_lines etype key F).

(** ** Rule engine.  The state of [suggest_entry] is the dictionary [F],
    changed in place by the source, and the list [issues]. *)

Definition state := (dict * list str)%type.

(** Trim noisy fields. *)
Fixpoint rule_noisy (keys : list str) (st : state) : state :=
  match keys with
  | [] => st
  | k :: keys' =>
      let '(F, issues) := st in
      if str_in (lower k) [lit "abstract"]
      then rule_noisy keys'
             (dict_pop k F,
              issues ++ [lit "Removed noisy field '" ++ k ++ lit "'."])
      else rule_noisy keys' st
  end.

(** Enforce initials. *)
Definition rule_initials (st : state) : result state :=
  let '(F, issues) := st in
  if REQUIRE_INITIALS && dict_in (lit "author") F then
    a <- dict_getitem (lit "author") F ;;
    if author_uses_full_given_names a then
      let issues := issues ++ [lit "Author uses full given names; use initials (Surname, X. or Surname, X. Y.) per Maynooth Harvard."] in
      a <- dict_getitem (lit "author") F ;;
      fixed <- enforce_initials a ;;
      Ok (dict_set (lit "author") fixed F, issues)
    else Ok st
  else Ok st.

(** Sentence case for article/online. *)
Definition rule_title (etype : str) (st : state) : state :=
  let '(F, issues) := st in
  if STRICT_SENTENCE_CASE_HINT && str_in etype [lit "article"; lit "online"]
  then
    let sc := sentence_case (dict_get (lit "title") [] F) in
    if match sc with [] => false | _ => true end
       && negb (str_eqb sc (dict_get (lit "title") [] F))
    then (dict_set (lit "title") sc F,
          issues ++ [lit "Title looked like Title Case; converted to sentence case in suggestion."])
    else st
  else st.

(** Online block. *)
Definition rule_online (today : date) (etype : str) (st : state)
  : result state :=
  let '(F, issues) := st in
  if str_in etype [lit "online"; lit "electronic"] then
    '(F, issues) <-
      (if dict_in (lit "note") F then
         v <- dict_getitem (lit "note") F ;;
         if negb (str_eqb (lower (strip v)) (lit "[online]"))
         then Ok (dict_set (lit "note") (lit "[Online]") F,
                  issues ++ [lit "Missing note = {[Online]} for online source."])
         else Ok (F, issues)
       else Ok (dict_set (lit "note") (lit "[Online]") F,
                issues ++ [lit "Missing note = {[Online]} for online source."])) ;;
    let '(F, issues) :=
      if negb (dict_in (lit "urldate") F)
      then (dict_set (lit "urldate") (iso_today today) F,
            issues ++ [lit "Missing urldate (ISO YYYY-MM-DD)."])
      else (F, issues) in
    '(F, issues) <-
      (if negb (dict_in (lit "addendum") F)
          || negb (contains (lit "Accessed") (dict_get (lit "addendum") [] F))
       then
         acc <- accessed_today today ;;
         Ok (dict_set (lit "addendum") acc F,
             issues ++ [lit "Missing addendum with Accessed: Day Month Year."])
       else Ok (F, issues)) ;;
    (if dict_in (lit "url") F then
       v <- dict_getitem (lit "url") F ;;
       match strip v with
       | [] => Ok (F, issues ++ [lit "Missing url for online source."])
       | _ => Ok (F, issues)
       end
     else Ok (F, issues ++ [lit "Missing url for online source."]))
  else Ok st.

(** Article requirements. *)
Definition rule_article (etype : str) (st : state) : state :=
  let '(F, issues) := st in
  if str_eqb etype (lit "article") then
    let '(F, issues) :=
      if negb (dict_in (lit "journaltitle") F)
      then (dict_set (lit "journaltitle") (lit "<ADD JOURNAL TITLE>") F,
            issues ++ [lit "Missing journaltitle for article."])
      else (F, issues) in
    let '(F, issues) :=
      if negb (dict_in (lit "pages") F)
      then (dict_set (lit "pages") (lit "<ADD PAGES>") F,
            issues ++ [lit "Missing pages for article."])
      else (F, issues) in
    if negb (dict_in (lit "volume") F) && negb (dict_in (lit "number") F)
    then (dict_set (lit "volume") (lit "<ADD VOLUME>") F,
          issues ++ [lit "Missing volume/number for article."])
    else (F, issues)
  else st.

(** The loop shared in shape by the book and thesis requirements:
    [for req in reqs: if req not in F: ...], with [what] the entry kind
    named in the message. *)
Fixpoint rule_required (what : str) (reqs : list str) (st : state) : state :=
  match reqs with
  | [] => st
  | req :: reqs' =>
      let '(F, issues) := st in
      if negb (dict_in req F)
      then rule_required what reqs'
             (dict_set req (lit "<ADD " ++ upper req ++ lit ">") F,
              issues ++ [lit "Missing " ++ req ++ lit " for " ++ what ++ lit "."])
      else rule_required what reqs' st
  end.

(** Book requirements. *)
Definition rule_book (etype : str) (st : state) : state :=
  if str_eqb etype (lit "book")
  then rule_required (lit "book") [lit "publisher"; lit "location"] st
  else st.

(** Thesis requirements. *)
Definition rule_thesis (etype : str) (st : state) : state :=
  if str_eqb etype (lit "thesis")
  then rule_required (lit "thesis") [lit "type"; lit "institution"] st
  else st.

(** year vs date, institution vs organization. *)
Definition rule_exclusive (st : state) : state :=
  let '(F, issues) := st in
  let issues :=
    if dict_in (lit "date") F && dict_in (lit "year") F
    then issues ++ [lit "Both 'date' and 'year' present — pick one (usually 'year')."]
    else issues in
  let issues :=
    if dict_in (lit "institution") F && dict_in (lit "organization") F
    then issues ++ [lit "Both 'institution' and 'organization' present — keep one consistently."]
    else issues in
  (F, issues).

(** Edition sanity. *)
Definition rule_edition (st : state) : result state :=
  let '(F, issues) := st in
  if dict_in (lit "edition") F then
    v <- dict_getitem (lit "edition") F ;;
    if negb (fullmatch EDITION_RE v)
    then Ok (F, issues ++ [lit "Edition should be numeric (e.g., 3) or ordinal (e.g., 3rd)."])
    else Ok (F, issues)
  else Ok st.

(** The body of [suggest_entry] up to its [return]: the dictionary as the
    rules leave it, and the issues. *)
Definition apply_rules (today : date) (etype : str) (F : dict)
  : result state :=
  let st := rule_noisy (dict_keys F) (F, []) in
  st <- rule_initials st ;;
  let st := rule_title etype st in
  st <- rule_online today etype st ;;
  let st := rule_article etype st in
  let st := rule_book etype st in
  let st := rule_thesis etype st in
  let st := rule_exclusive st in
  rule_edition st.

Definition suggest_entry (today : date) (etype key : str) (F : dict)
  : result (str * list str) :=
  '(F, issues) <- apply_rules today etype F ;;
  Ok (rebuild_entry etype key F, issues).

(** ** Multi-entry parsing *)

(** The inner [while j < n and depth > 0] of [split_entries]; [s] is
    [bib_text[j:]].  Returns the final [(j, depth)]. *)
Fixpoint brace_scan (s : str) (j depth : nat) : nat * nat :=
  match s with
  | [] => (j, depth)
  | c :: s' =>
      if 0 <? depth then
        let depth := if chr_eqb c "{" then depth + 1
                     else if chr_eqb c "}" then depth - 1
                     else depth in
        brace_scan s' (j + 1) depth
      else (j, depth)
  end.

(** The test that skips an [@] "within a comment line starting with %". *)
Definition in_comment_line (bib_text : str) (at_ : nat) : bool :=
  (0 <? at_) &&
  match rfind nl bib_text at_ with
  | Some prev_nl =>
      startswith (lit "%") (lstrip (slice bib_text (prev_nl + 1) at_))
  | None => false
  end.

(** The outer [while i < n] of [split_entries].  Every turn moves [i]
    forward, so [fuel] above [n - i] is never used up. *)
Fixpoint split_entries_loop (fuel : nat) (bib_text : str) (i : nat)
         (entries : list str) : list str :=
  match fuel with
  | 0 => entries
  | S fuel' =>
      let n := length bib_text in
      if i <? n then
        match find "@" bib_text i with
        | None => entries
        | Some at_ =>
            if in_comment_line bib_text at_
            then split_entries_loop fuel' bib_text (at_ + 1) entries
            else
              match find "{" bib_text at_ with
              | None => entries
              | Some brace =>
                  let '(j, depth) :=
                    brace_scan (slice_from bib_text (brace + 1)) (brace + 1) 1 in
                  if depth =? 0
                  then split_entries_loop fuel' bib_text j
                         (entries ++ [slice bib_text at_ j])
                  else entries ++ [slice_from bib_text at_]
              end
        end
      else entries
  end.

Definition split_entries (bib_text : str) : list str :=
  split_entries_loop (S (length bib_text)) bib_text 0 [].

(** ** Batch audit *)

(** One turn of the [for raw in entries] loop of [audit_all]: what it
    appends to [cleaned_chunks] and to [report_lines]. *)
Definition audit_entry (today : date) (raw : str) : list str * list str :=
  let raw_stripped := strip raw in
  match raw_stripped with
  | [] => ([], [])
  | _ =>
      match ('(etype, key, F) <- parse_entry raw_stripped ;;
             '(suggested, issues) <- suggest_entry today etype key F ;;
             Ok (etype, key, suggested, issues)) with
      | Ok (etype, key, suggested, issues) =>
          let hdr := lit "[" ++ key ++ lit "] @" ++ etype in
          ([suggested],
           match issues with
           | [] => [hdr ++ lit " — OK"]
           | _ => hdr :: map (fun it => lit "  - " ++ it) issues
           end)
      | Raise e =>
          ([raw_stripped],
           [lit "[?] Parse error: " ++ exn_str e;
            lit "  (Entry snippet)";
            lit "  " ++ replace [nl] (lit " ") (slice raw_stripped 0 200)
                ++ (if 200 <? length raw_stripped then lit "..." else [])])
      end
  end.

Fixpoint audit_loop (today : date) (entries : list str)
         (cleaned_chunks report_lines : list str) : list str * list str :=
  match entries with
  | [] => (cleaned_chunks, report_lines)
  | raw :: entries' =>
      let '(c, r) := audit_entry today raw in
      audit_loop today entries' (cleaned_chunks ++ c) (report_lines ++ r)
  end.

Definition audit_all (today : date) (bib_text : str) : str * str :=
  let entries := split_entries bib_text in
  let '(cleaned_chunks, report_lines) := audit_loop today entries [] [] in
  (join [nl; nl] cleaned_chunks ++ [nl], join [nl] report_lines ++ [nl]).

(** The record a successful parse, rule pass and rendering go through:
    [render(apply_rules(parse(x)))]. *)
Definition audit_one (today : date) (x : str) : result str :=
  '(etype, key, F) <- parse_entry x ;;
  '(suggested, _) <- suggest_entry today etype key F ;;
  Ok suggested.

End BibAuditBatch.


(* ================================================================== *)
(** * Statements about the source: auxiliary notions *)
(* ================================================================== *)

Module Notions.
Import Py Re PyData BibAuditBatch.

(** Whether the braces of a chunk close: the scan of [split_entries],
    started after the first opening brace of [c], ends at depth 0. *)
Definition braces_close (c : str) : bool :=
  match find "{" c 0 with
  | Some b => snd (brace_scan (slice_from c (b + 1)) (b + 1) 1) =? 0
  | None => false
  end.

(** The lines of a report that announce a parse error. *)
Definition parse_error_lines (report_lines : list str) : list str :=
  filter (startswith (lit "[?] Parse error")) report_lines.

(** The blocks and the report lines that [audit_all] joins. *)
Definition audit_blocks (today : date) (bib_text : str) : list str :=
  fst (audit_loop today (split_entries bib_text) [] []).

Definition audit_report_lines (today : date) (bib_text : str) : list str :=
  snd (audit_loop today (split_entries bib_text) [] []).

(** One turn of the loop, in the three ways it can go on or stop. *)
Inductive turn (text : str) (i : nat) : Type :=
| TStop
| TSkip (at_ : nat)
| TChunk (at_ brace j : nat)
| TTail (at_ brace : nat).

Definition turn_of (text : str) (i : nat) : turn text i :=
  if i <? length text then
    match find "@" text i with
    | None => TStop text i
    | Some at_ =>
        if in_comment_line text at_ then TSkip text i at_
        else match find "{" text at_ with
             | None => TStop text i
             | Some brace =>
                 let '(j, depth) :=
                   brace_scan (slice_from text (brace + 1)) (brace + 1) 1 in
                 if depth =? 0 then TChunk text i at_ brace j
                 else TTail text i at_ brace
             end
    end
  else TStop text i.


(** [v] is kept by the blank test of [rebuild_entry]. *)
Definition nonblank (v : str) : bool :=
  match strip v with [] => false | _ => true end.

(** The serializer as the specification words it: the fields of the
    preferred list that are present and non-blank, in the order of the
    list, and then the fields outside the list, in the order of the
    mapping. *)
Definition hinted_items (hint : list str) (F : dict) : dict :=
  flat_map (fun k => match dict_find k F with
                     | Some v => if nonblank v then [(k, v)] else []
                     | None => []
                     end) hint.

Definition preferred_items (F : dict) : dict := hinted_items order_hint F.

(** What the second loop of [rebuild_entry] emits: the items the first
    loop has not. *)
Definition remaining_items (F : dict) : dict :=
  filter (fun kv => negb (str_in (fst kv) order_hint && nonblank (snd kv))) F.

Definition item_line (kv : str * str) : str := field_line (fst kv) (snd kv).

Definition header_line (etype key : str) : str :=
  lit "@" ++ capitalize etype ++ lit "{" ++ key ++ lit ",".


(** A key that the first rule removes. *)
Definition noisy_key (k : str) : bool := str_in (lower k) [lit "abstract"].

(** [frame W st st']: from [st] to [st'] only the keys of [W] may have got
    a new value, no key was lost, and issues were only added. *)
Definition frame (W : list str) (st st' : state) : Prop :=
  (forall k, ~ In k W -> dict_find k (fst st') = dict_find k (fst st))
  /\ (forall k, dict_in k (fst st) = true -> dict_in k (fst st') = true)
  /\ (exists ex, snd st' = snd st ++ ex)
  /\ (NoDup (map fst (fst st)) -> NoDup (map fst (fst st'))).


(** When a rule has nothing left to change in [F]. *)
Definition initials_ok (F : dict) : bool :=
  match dict_find (lit "author") F with
  | Some a => negb (author_uses_full_given_names a)
  | None => true
  end.

Definition title_ok (etype : str) (F : dict) : bool :=
  negb (str_in etype [lit "article"; lit "online"])
  || match dict_find (lit "title") F with
     | Some t => match sentence_case t with
                 | [] => true
                 | sc => str_eqb sc t
                 end
     | None => true
     end.

Definition online_ok (etype : str) (F : dict) : bool :=
  negb (str_in etype [lit "online"; lit "electronic"])
  || (match dict_find (lit "note") F with
      | Some v => str_eqb (lower (strip v)) (lit "[online]")
      | None => false
      end
      && is_some (dict_find (lit "urldate") F)
      && match dict_find (lit "addendum") F with
         | Some v => contains (lit "Accessed") v
         | None => false
         end).

Definition article_ok (etype : str) (F : dict) : bool :=
  negb (str_eqb etype (lit "article"))
  || (is_some (dict_find (lit "journaltitle") F)
      && is_some (dict_find (lit "pages") F)
      && (is_some (dict_find (lit "volume") F)
          || is_some (dict_find (lit "number") F))).

Definition book_ok (etype : str) (F : dict) : bool :=
  negb (str_eqb etype (lit "book"))
  || (is_some (dict_find (lit "publisher") F)
      && is_some (dict_find (lit "location") F)).

Definition thesis_ok (etype : str) (F : dict) : bool :=
  negb (str_eqb etype (lit "thesis"))
  || (is_some (dict_find (lit "type") F)
      && is_some (dict_find (lit "institution") F)).

Definition clean_keys (F : dict) : Prop :=
  forall k, In k (dict_keys F) -> noisy_key k = false.


(** Messages of the rule engine. *)
Definition initials_msg : str :=
  lit "Author uses full given names; use initials (Surname, X. or Surname, X. Y.) per Maynooth Harvard.".

Definition title_msg : str :=
  lit "Title looked like Title Case; converted to sentence case in suggestion.".

Definition url_msg : str := lit "Missing url for online source.".


(** The four steps of the online block of [suggest_entry], one by one. *)
Definition online_note (st : state) : result state :=
  let '(F, issues) := st in
  if dict_in (lit "note") F then
    v <- dict_getitem (lit "note") F ;;
    if negb (str_eqb (lower (strip v)) (lit "[online]"))
    then Ok (dict_set (lit "note") (lit "[Online]") F,
             issues ++ [lit "Missing note = {[Online]} for online source."])
    else Ok (F, issues)
  else Ok (dict_set (lit "note") (lit "[Online]") F,
           issues ++ [lit "Missing note = {[Online]} for online source."]).

Definition online_urldate (today : date) (st : state) : state :=
  let '(F, issues) := st in
  if negb (dict_in (lit "urldate") F)
  then (dict_set (lit "urldate") (iso_today today) F,
        issues ++ [lit "Missing urldate (ISO YYYY-MM-DD)."])
  else (F, issues).

Definition online_addendum (today : date) (st : state) : result state :=
  let '(F, issues) := st in
  if negb (dict_in (lit "addendum") F)
     || negb (contains (lit "Accessed") (dict_get (lit "addendum") [] F))
  then
    acc <- accessed_today today ;;
    Ok (dict_set (lit "addendum") acc F,
        issues ++ [lit "Missing addendum with Accessed: Day Month Year."])
  else Ok (F, issues).

Definition online_url (st : state) : result state :=
  let '(F, issues) := st in
  if dict_in (lit "url") F then
    v <- dict_getitem (lit "url") F ;;
    match strip v with
    | [] => Ok (F, issues ++ [lit "Missing url for online source."])
    | _ => Ok (F, issues)
    end
  else Ok (F, issues ++ [lit "Missing url for online source."]).


(** [if k not in F: issues.append(msg); F[k] = v], the step the
    completeness rules are made of. *)
Definition ensure (k v msg : str) (st : state) : state :=
  let '(F, issues) := st in
  if negb (dict_in k F) then (dict_set k v F, issues ++ [msg]) else (F, issues).

Definition article_volume (st : state) : state :=
  let '(F, issues) := st in
  if negb (dict_in (lit "volume") F) && negb (dict_in (lit "number") F)
  then (dict_set (lit "volume") (lit "<ADD VOLUME>") F,
        issues ++ [lit "Missing volume/number for article."])
  else (F, issues).


(** The fields the completeness rules require of each entry type, their
    placeholders and the issue that reports a missing one. *)
Definition required_fields (etype : str) : list str :=
  if str_eqb etype (lit "article") then [lit "journaltitle"; lit "pages"]
  else if str_eqb etype (lit "book") then [lit "publisher"; lit "location"]
  else if str_eqb etype (lit "thesis") then [lit "type"; lit "institution"]
  else [].

Definition placeholder_for (req : str) : str :=
  if str_eqb req (lit "journaltitle") then lit "<ADD JOURNAL TITLE>"
  else lit "<ADD " ++ upper req ++ lit ">".

Definition missing_msg (etype req : str) : str :=
  lit "Missing " ++ req ++ lit " for " ++ etype ++ lit ".".

(** The url of an online source is absent or blank. *)
Definition url_unusable (F : dict) : bool :=
  match dict_find (lit "url") F with
  | Some v => negb (nonblank v)
  | None => true
  end.


(** ** Matching the patterns of the scripts, read off their shape *)

Fixpoint takewhile (p : ascii -> bool) (s : str) : str :=
  match s with
  | [] => []
  | c :: s' => if p c then c :: takewhile p s' else []
  end.

(** The character before the position reached after reading [pre]. *)
Definition last_prev (p : option ascii) (pre : str) : option ascii :=
  match rev pre with
  | c :: _ => Some c
  | [] => p
  end.

(** A greedy starred class followed by [k]: the longest run first, then
    the shorter ones. *)
Fixpoint greedy_chr {A} (f : ascii -> bool)
         (k : option ascii -> str -> caps -> option A)
         (p : option ascii) (s : str) (e : caps) : option A :=
  match s with
  | c :: s' =>
      if f c
      then match greedy_chr f k (Some c) s' e with
           | Some x => Some x
           | None => k p s e
           end
      else k p s e
  | [] => k p s e
  end.

(** [(\s+)] at the head of [s]. *)
Definition ws_match (s : str) : option (str * caps) :=
  match s with
  | c :: _ =>
      if isspace_c c
      then Some (dropwhile isspace_c s, [(1, takewhile isspace_c s)])
      else None
  | [] => None
  end.

(** [(\s+|-)] at the head of [s]. *)
Definition sep_match (s : str) : option (str * caps) :=
  match s with
  | c :: s' =>
      if isspace_c c
      then Some (dropwhile isspace_c s, [(1, takewhile isspace_c s)])
      else if chr_eqb "-" c then Some (s', [(1, ["-"%char])])
      else None
  | [] => None
  end.

Definition is_and (a n d : ascii) : bool :=
  chr_eqb (lower_c a) "a" && chr_eqb (lower_c n) "n" && chr_eqb (lower_c d) "d".

(** [\s+\band\b\s+] (IGNORECASE) at the head of [s]: what is left after
    the match. *)
Definition and_match (s : str) : option str :=
  match s with
  | c :: _ =>
      if isspace_c c then
        match dropwhile isspace_c s with
        | a :: n :: d :: r =>
            if is_and a n d then
              match r with
              | w :: _ => if isspace_c w then Some (dropwhile isspace_c r)
                          else None
              | [] => None
              end
            else None
        | _ => None
        end
      else None
  | [] => None
  end.


(** ** The token lists of [re.split(r'(\s+)', ...)] *)

Definition nonspace_c (c : ascii) : bool := negb (isspace_c c).

(** A token without white space. *)
Definition word (w : str) : bool := forallb nonspace_c w.

Definition starts_nonspace (s : str) : bool :=
  match s with
  | c :: _ => nonspace_c c
  | [] => true
  end.

(** Words and runs of white space in turn, a word first and a word last,
    each run as long as it can be. *)
Fixpoint ws_alternating (L : list str) : bool :=
  match L with
  | [] => false
  | [w] => word w
  | w :: s :: L' =>
      word w && isspace s && starts_nonspace (concat L') && ws_alternating L'
  end.

(** Which characters of a string are white space. *)
Definition pat (s : str) : list bool := map isspace_c s.

(** One turn of the loop of [sentence_case]: the token it appends and the
    flag it leaves. *)
Definition sc_short_upper (t : str) : bool := isupper t && (length t <=? 5).

Definition sc_cap (t : str) : str := upper (firstn 1 t) ++ lower (skipn 1 t).

Definition sc_token (out : list str) (first_alpha_done : bool) (t : str) : str :=
  if isspace t then t
  else if negb first_alpha_done then
    if sc_short_upper t then t else sc_cap t
  else
    if sc_short_upper t then t
    else if match rev out with
            | last :: _ => endswith (lit ":") last
            | [] => false
            end
         then sc_cap t
         else lower t.

Definition sc_flag (first_alpha_done : bool) (t : str) : bool :=
  if isspace t then first_alpha_done else true.


(** ** The author separator in a string *)

(** After white space: [and], then the end or white space. *)
Definition and_window (x : str) : bool :=
  match x with
  | a :: n :: d :: r =>
      is_and a n d && match r with [] => true | w :: _ => isspace_c w end
  | _ => false
  end.

(** Nowhere in [s] does white space come before an [and] that the end of
    [s] or white space follows. *)
Fixpoint and_free (s : str) : bool :=
  match s with
  | w :: s' => negb (isspace_c w && and_window s') && and_free s'
  | [] => true
  end.

(** The separator pattern matches at no position of [s]. *)
Fixpoint nomatch (s : str) : bool :=
  match s with
  | [] => true
  | _ :: s' => negb (is_some (and_match s)) && nomatch s'
  end.

(** Every letter of [s] has a full stop right after it. *)
Fixpoint dotted (s : str) : bool :=
  match s with
  | c :: s' =>
      (if letter_c c
       then match s' with d :: _ => chr_eqb d "." | [] => false end
       else true) && dotted s'
  | [] => true
  end.

(** Every full stop of [s] has a letter right before it; [prev] tells
    whether a letter comes before [s]. *)
Fixpoint stops_after_letters (prev : bool) (s : str) : bool :=
  match s with
  | c :: s' => (if chr_eqb c "." then prev else true)
               && stops_after_letters (letter_c c) s'
  | [] => true
  end.


(** [and] and then white space, at the head of [x]. *)
Definition and_ctx (x : str) : bool :=
  match x with
  | a :: n :: d :: w :: _ => is_and a n d && isspace_c w
  | _ => false
  end.

(** What [rstrip] removes. *)
Definition trailing_space (s : str) : str := skipn (length (rstrip s)) s.


(** A name that can stand in a joined author field. *)
Definition joinable (p : str) : Prop :=
  and_free p = true /\ starts_nonspace p = true /\ p <> [].


(** ** Initials *)

(** What a token of the initials may be. *)
Definition initials_token (t : str) : Prop :=
  dotted t = true /\ ~ In ","%char t /\ stops_after_letters false t = true.

(** A stretch without white space or hyphen, or one separator. *)
Definition sep_c (c : ascii) : bool := isspace_c c || chr_eqb "-" c.

Definition sep_free (t : str) : Prop := forallb (fun c => negb (sep_c c)) t = true.

Definition is_sep (t : str) : Prop :=
  forallb isspace_c t = true \/ t = ["-"%char].

(** A name that is joinable and that [author_uses_full_given_names] passes
    over. *)
Definition settled (p : str) : Prop :=
  joinable p
  /\ (is_corporate (strip p) = true \/ search FULL_GIVEN_RE (strip p) = None).


(** What a pass leaves: nothing for any rule to change. *)
Definition at_rest (etype : str) (F : dict) : Prop :=
  clean_keys F /\ initials_ok F = true /\ title_ok etype F = true
  /\ online_ok etype F = true /\ article_ok etype F = true
  /\ book_ok etype F = true /\ thesis_ok etype F = true.


(** The fields [rebuild_entry] writes, in the order it writes them. *)
Definition rendered_items (F : dict) : dict :=
  preferred_items F ++ remaining_items F.



(** ** Notions of the further properties *)

(** The loop of [sentence_case] without its test for a colon. *)
Fixpoint sentence_case_no_colon_loop (tokens out : list str)
         (first_alpha_done : bool) : list str :=
  match tokens with
  | [] => out
  | t :: tokens' =>
      if isspace t
      then sentence_case_no_colon_loop tokens' (out ++ [t]) first_alpha_done
      else if isupper t && (length t <=? 5)
      then sentence_case_no_colon_loop tokens' (out ++ [t]) true
      else if negb first_alpha_done
      then sentence_case_no_colon_loop tokens'
             (out ++ [upper (firstn 1 t) ++ lower (skipn 1 t)]) true
      else sentence_case_no_colon_loop tokens' (out ++ [lower t]) true
  end.

(** The last token written so far does not end with a colon. *)
Definition no_colon_last (out : list str) : bool :=
  match rev out with
  | last :: _ => negb (endswith (lit ":") last)
  | [] => true
  end.

(** [quiet st st']: issues were only added from [st] to [st'], and the
    fields are the same unless an issue was added. *)
Definition quiet (st st' : state) : Prop :=
  (exists ex, snd st' = snd st ++ ex) /\ (snd st' = snd st -> fst st' = fst st).

(** The keys a rule of [suggest_entry] may write. *)
Definition rule_keys : list str :=
  [lit "author"; lit "title"; lit "note"; lit "urldate"; lit "addendum";
   lit "journaltitle"; lit "pages"; lit "volume"; lit "publisher";
   lit "location"; lit "type"; lit "institution"].

(** An edition the edition rule accepts: digits, or digits and one of
    [st], [nd], [rd], [th] in any case. *)
Definition edition_ok (v : str) : Prop :=
  exists d sfx,
    v = d ++ sfx /\ d <> [] /\ forallb isdigit_c d = true
    /\ (sfx = [] \/ In (lower sfx) [lit "st"; lit "nd"; lit "rd"; lit "th"]).

(** The chunks lie in [s] one after the other, apart or touching, in the
    order of the list. *)
Fixpoint laid_out (chunks : list str) (s : str) : Prop :=
  match chunks with
  | [] => True
  | c :: chunks' =>
      exists gap rest, s = gap ++ c ++ rest /\ laid_out chunks' rest
  end.


(** ** ASCII text *)

(** A code point below 128. *)
Definition ascii_c (c : ascii) : bool := nat_of_ascii c <? 128.

Definition ascii_text (s : str) : bool := forallb ascii_c s.

(** A mapping whose keys and values are ASCII text. *)
Definition ascii_fields (F : dict) : bool :=
  forallb (fun kv => ascii_text (fst kv) && ascii_text (snd kv)) F.

(** ** Records as they lie in a text *)

(** The opening and the closing braces of a string. *)
Definition opens (s : str) : nat := count_occ ascii_dec s "{"%char.
Definition closes (s : str) : nat := count_occ ascii_dec s "}"%char.

(** With [d] braces open before [s], a brace is still open after every
    prefix of [s]. *)
Definition stays_open (d : nat) (s : str) : bool :=
  forallb (fun k => closes (firstn k s) <? d + opens (firstn k s))
          (seq 0 (S (length s))).

(** The text between the first brace of a record and the brace that closes
    it: no brace of it closes the record, and its own braces pair up. *)
Definition balanced_body (body : str) : bool :=
  stays_open 1 body && (closes body =? opens body).

(** A record whose braces close: [@], the text up to the first brace, the
    body and the closing brace. *)
Definition record_text (ty body : str) : str :=
  "@"%char :: ty ++ "{"%char :: body ++ ["}"%char].

(** A record with the text that lies before it. *)
Record placed : Type := MkPlaced { p_gap : str; p_type : str; p_body : str }.

Definition placed_text (r : placed) : str :=
  p_gap r ++ record_text (p_type r) (p_body r).

(** Every [@] of [gap], which lies at [o] in [text], is on a comment line
    for the test of the splitter. *)
Definition skipped_gap (text : str) (o : nat) (gap : str) : Prop :=
  forall k, nth_error gap k = Some "@"%char ->
            in_comment_line text (o + k) = true.

(** From [o] on, [text] holds the records [recs]: the splitter skips
    every [@] of the gaps and no [@] of a record, the text from the [@]
    of a record to its first brace has no other brace, and the braces of
    each record close. *)
Fixpoint records_at (text : str) (o : nat) (recs : list placed) : Prop :=
  match recs with
  | [] => True
  | r :: recs' =>
      skipped_gap text o (p_gap r)
      /\ in_comment_line text (o + length (p_gap r)) = false
      /\ ~ In "{"%char (p_type r)
      /\ balanced_body (p_body r) = true
      /\ records_at text (o + length (placed_text r)) recs'
  end.


(** The loop of [split_entries] again, with the end of the turns that are
    allowed ([None]) told apart from the end of the loop. *)
Fixpoint split_entries_run (fuel : nat) (bib_text : str) (i : nat)
         (entries : list str) : option (list str) :=
  match fuel with
  | 0 => None
  | S fuel' =>
      let n := length bib_text in
      if i <? n then
        match find "@" bib_text i with
        | None => Some entries
        | Some at_ =>
            if in_comment_line bib_text at_
            then split_entries_run fuel' bib_text (at_ + 1) entries
            else
              match find "{" bib_text at_ with
              | None => Some entries
              | Some brace =>
                  let '(j, depth) :=
                    brace_scan (slice_from bib_text (brace + 1)) (brace + 1) 1 in
                  if depth =? 0
                  then split_entries_run fuel' bib_text j
                         (entries ++ [slice bib_text at_ j])
                  else Some (entries ++ [slice_from bib_text at_])
              end
        end
      else Some entries
  end.

End Notions.

(* ================================================================== *)
(** * What the matcher can match *)
(* ================================================================== *)

Module ReSem.
Import Py Re.

(** [M r prev s env prev' s' env']: the pattern [r], started at the head of
    [s] with [prev] before it and the groups [env], can end at the suffix
    [s'] with [prev'] before it and the groups [env'].  The matcher of
    module [Re] finds such an end when there is one that its continuation
    accepts, and prefers some ends to others; this relation forgets the
    preference. *)
Inductive M : re -> option ascii -> str -> caps ->
              option ascii -> str -> caps -> Prop :=
| M_Eps p s e : M Eps p s e p s e
| M_Chr f c p s e : f c = true -> M (Chr f) p (c :: s) e (Some c) s e
| M_Seq a b p0 s0 e0 p1 s1 e1 p2 s2 e2 :
    M a p0 s0 e0 p1 s1 e1 -> M b p1 s1 e1 p2 s2 e2 ->
    M (Seq a b) p0 s0 e0 p2 s2 e2
| M_AltL a b p0 s0 e0 p1 s1 e1 :
    M a p0 s0 e0 p1 s1 e1 -> M (Alt a b) p0 s0 e0 p1 s1 e1
| M_AltR a b p0 s0 e0 p1 s1 e1 :
    M b p0 s0 e0 p1 s1 e1 -> M (Alt a b) p0 s0 e0 p1 s1 e1
| M_Star0 g a p s e : M (Star g a) p s e p s e
| M_StarS g a p0 s0 e0 p1 s1 e1 p2 s2 e2 :
    M a p0 s0 e0 p1 s1 e1 -> length s1 < length s0 ->
    M (Star g a) p1 s1 e1 p2 s2 e2 ->
    M (Star g a) p0 s0 e0 p2 s2 e2
| M_Group n a p0 s0 e0 p1 s1 e1 :
    M a p0 s0 e0 p1 s1 e1 ->
    M (Group n a) p0 s0 e0 p1 s1
      ((n, firstn (length s0 - length s1) s0) :: e1)
| M_Eol p s e : at_eol s = true -> M Eol p s e p s e
| M_Bnd p s e : at_boundary p s = true -> M Bnd p s e p s e.

End ReSem.

(* ================================================================== *)
(** * Facts about the string primitives *)
(* ================================================================== *)

Module PyFacts.
Import Py Notions.

Lemma chr_eqb_eq (a b : ascii) : chr_eqb a b = true <-> a = b.
Proof. apply Ascii.eqb_eq. Qed.

Lemma chr_eqb_refl (a : ascii) : chr_eqb a a = true.
Proof. apply Ascii.eqb_refl. Qed.

Lemma chr_eqb_neq (a b : ascii) : chr_eqb a b = false <-> a <> b.
Proof. apply Ascii.eqb_neq. Qed.

Lemma str_eqb_eq (a b : str) : str_eqb a b = true <-> a = b.
Proof.
  revert b; induction a as [|x a IH]; intros [|y b]; simpl; split;
    try congruence; try discriminate.
  - rewrite andb_true_iff, chr_eqb_eq, IH. intros [-> ->]; reflexivity.
  - intros [= -> ->]. rewrite chr_eqb_refl. apply IH. reflexivity.
Qed.

Lemma str_eqb_refl (a : str) : str_eqb a a = true.
Proof. apply str_eqb_eq. reflexivity. Qed.

Lemma str_eqb_neq (a b : str) : str_eqb a b = false <-> a <> b.
Proof.
  rewrite <- str_eqb_eq. destruct (str_eqb a b); split; congruence.
Qed.

Lemma str_eqb_sym (a b : str) : str_eqb a b = str_eqb b a.
Proof.
  destruct (str_eqb a b) eqn:E.
  - apply str_eqb_eq in E. subst. symmetry. apply str_eqb_refl.
  - symmetry. apply str_eqb_neq. apply str_eqb_neq in E. congruence.
Qed.

(** ** [find] *)

Lemma index_of_Some c s k :
  index_of c s = Some k ->
  nth_error s k = Some c /\ k < length s
  /\ forall j, j < k -> nth_error s j <> Some c.
Proof.
  revert k; induction s as [|x s IH]; simpl; intros k H; [discriminate|].
  destruct (chr_eqb x c) eqn:E.
  - injection H as <-. apply chr_eqb_eq in E. subst. simpl.
    repeat split; [lia | intros j Hj; lia].
  - destruct (index_of c s) as [k'|]; [|discriminate].
    injection H as <-. destruct (IH k' eq_refl) as (H1 & H2 & H3).
    simpl. repeat split; [assumption | lia |].
    intros [|j] Hj; simpl.
    + apply chr_eqb_neq in E. congruence.
    + apply H3. lia.
Qed.

Lemma index_of_None c s :
  index_of c s = None -> ~ In c s.
Proof.
  induction s as [|x s IH]; simpl; intros H; [tauto|].
  destruct (chr_eqb x c) eqn:E; [discriminate|].
  destruct (index_of c s); [discriminate|].
  apply chr_eqb_neq in E. intros [?|?]; [congruence | now apply IH].
Qed.

Lemma index_of_notin c s : ~ In c s -> index_of c s = None.
Proof.
  induction s as [|x s IH]; simpl; intros H; [reflexivity|].
  destruct (chr_eqb x c) eqn:E.
  - apply chr_eqb_eq in E. tauto.
  - rewrite IH; tauto.
Qed.

Lemma find_Some c s i a :
  find c s i = Some a ->
  i <= a < length s /\ nth_error s a = Some c.
Proof.
  unfold find. destruct (index_of c (skipn i s)) as [k|] eqn:E; [|discriminate].
  intros [= <-]. apply index_of_Some in E. destruct E as (H1 & H2 & _).
  rewrite length_skipn in H2. rewrite nth_error_skipn in H1.
  split; [lia | assumption].
Qed.

Lemma find_notin c s i : ~ In c s -> find c s i = None.
Proof.
  intros H. unfold find. rewrite index_of_notin; [reflexivity|].
  intros Hin. apply H. rewrite <- (firstn_skipn i s). apply in_or_app. now right.
Qed.

Lemma find_first c s i a j :
  find c s i = Some a -> i <= j < a -> nth_error s j <> Some c.
Proof.
  unfold find. destruct (index_of c (skipn i s)) as [k|] eqn:E; [|discriminate].
  intros [= <-] Hj. apply index_of_Some in E. destruct E as (_ & _ & H3).
  specialize (H3 (j - i)). rewrite nth_error_skipn in H3.
  replace (i + (j - i)) with j in H3 by lia. apply H3. lia.
Qed.

Lemma skipn_nth_error_cons (s : str) a c :
  nth_error s a = Some c -> skipn a s = c :: skipn (S a) s.
Proof.
  revert a; induction s as [|x s IH]; intros [|a]; simpl; try discriminate.
  - intros [= ->]. reflexivity.
  - intros H. now apply IH.
Qed.

(** ** [strip] *)

Lemma dropwhile_head p c s : p c = false -> dropwhile p (c :: s) = c :: s.
Proof. intros H. simpl. now rewrite H. Qed.

Lemma lstrip_head c s : isspace_c c = false -> lstrip (c :: s) = c :: s.
Proof. apply dropwhile_head. Qed.

Lemma rstrip_last s c : isspace_c c = false -> rstrip (s ++ [c]) = s ++ [c].
Proof.
  intros H. unfold rstrip. rewrite rev_app_distr. simpl. rewrite H.
  simpl. now rewrite rev_involutive.
Qed.

Lemma dropwhile_suffix p s : exists pre, s = pre ++ dropwhile p s.
Proof.
  induction s as [|c s [pre IH]]; simpl.
  - now exists [].
  - destruct (p c); [exists (c :: pre); simpl; congruence | now exists []].
Qed.

Lemma dropwhile_app_keep p s c t :
  p c = false -> dropwhile p (s ++ c :: t) = dropwhile p s ++
    match dropwhile p s with [] => dropwhile p (c :: t) | _ => c :: t end.
Proof.
  intros H. induction s as [|x s IH]; simpl.
  - rewrite H. reflexivity.
  - destruct (p x); [assumption | reflexivity].
Qed.

Lemma rstrip_cons c s :
  isspace_c c = false -> exists t, rstrip (c :: s) = c :: t.
Proof.
  intros H. unfold rstrip. simpl.
  rewrite dropwhile_app_keep by assumption.
  destruct (dropwhile isspace_c (rev s)) as [|y l]; simpl.
  - rewrite H. simpl. now exists [].
  - rewrite rev_app_distr. simpl. eexists. reflexivity.
Qed.

Lemma strip_cons_nonempty c s : isspace_c c = false -> strip (c :: s) <> [].
Proof.
  intros H. unfold strip. rewrite lstrip_head by assumption.
  destruct (rstrip_cons c s H) as [t ->]. discriminate.
Qed.

(** A string that neither starts nor ends with white space is its own
    [strip]. *)
Lemma strip_id s :
  match s with c :: _ => isspace_c c = false | [] => True end ->
  match rev s with c :: _ => isspace_c c = false | [] => True end ->
  strip s = s.
Proof.
  intros H1 H2. unfold strip.
  assert (lstrip s = s) as ->.
  { destruct s; [reflexivity | now apply lstrip_head]. }
  unfold rstrip. destruct (rev s) as [|c r] eqn:E.
  - apply (f_equal (@rev _)) in E. rewrite rev_involutive in E. now subst.
  - simpl. rewrite H2. rewrite <- E. apply rev_involutive.
Qed.

Lemma rstrip_length s : length (rstrip s) <= length s.
Proof.
  unfold rstrip. rewrite length_rev.
  destruct (dropwhile_suffix isspace_c (rev s)) as [pre E].
  apply (f_equal (@length _)) in E. rewrite length_app, length_rev in E. lia.
Qed.

Lemma isword_lower_c c : isword_c (lower_c c) = isword_c c.
Proof. destruct c as [[] [] [] [] [] [] [] []]; reflexivity. Qed.

Lemma forallb_isword_lower s :
  forallb isword_c (lower s) = forallb isword_c s.
Proof.
  induction s as [|c s IH]; simpl; [reflexivity|].
  now rewrite isword_lower_c, IH.
Qed.

Lemma dropwhile_nil p s : dropwhile p s = [] <-> forallb p s = true.
Proof.
  induction s as [|c s IH]; simpl; [tauto|].
  destruct (p c); simpl; [assumption|]. split; discriminate.
Qed.

Lemma dropwhile_hd p s c t : dropwhile p s = c :: t -> p c = false.
Proof.
  induction s as [|x s IH]; simpl; [discriminate|].
  destruct (p x) eqn:E; [assumption|]. now intros [= <- _].
Qed.

Lemma strip_nil s : strip s = [] <-> forallb isspace_c s = true.
Proof.
  unfold strip, lstrip. rewrite <- dropwhile_nil.
  destruct (dropwhile isspace_c s) as [|c t] eqn:E.
  - split; reflexivity.
  - apply dropwhile_hd in E. split; [|discriminate].
    intros H. destruct (rstrip_cons c t E) as [u Hu]. congruence.
Qed.

Lemma replace_char_map a b s :
  replace [a] [b] s = map (fun c => if chr_eqb a c then b else c) s.
Proof.
  unfold replace. induction s as [|c s IH]; simpl; [reflexivity|].
  destruct (chr_eqb a c); simpl; now rewrite IH.
Qed.

Lemma replace_char_length a b s : length (replace [a] [b] s) = length s.
Proof. rewrite replace_char_map. apply length_map. Qed.

Lemma rev_hd_last (s : str) k c :
  nth_error s k = Some c -> S k = length s -> hd_error (rev s) = Some c.
Proof.
  intros Hn Hl. destruct (rev s) as [|x r] eqn:E.
  - apply (f_equal (@length _)) in E. rewrite length_rev in E. simpl in E. lia.
  - simpl. apply (f_equal (@rev _)) in E. rewrite rev_involutive in E.
    subst s. simpl in *. rewrite length_app, length_rev in Hl. simpl in Hl.
    rewrite nth_error_app2 in Hn by (rewrite length_rev; lia).
    rewrite length_rev in Hn. replace (k - length r) with 0 in Hn by lia.
    simpl in Hn. congruence.
Qed.

Lemma strip_at_head raw :
  hd_error raw = Some "@"%char -> strip raw = rstrip raw.
Proof.
  destruct raw as [|c raw]; [discriminate|]. intros [= ->]. reflexivity.
Qed.

Lemma rstrip_id s c :
  hd_error (rev s) = Some c -> isspace_c c = false -> rstrip s = s.
Proof.
  unfold rstrip. destruct (rev s) as [|x r] eqn:E; [discriminate|].
  intros [= ->] Hc. simpl. rewrite Hc. rewrite <- E. apply rev_involutive.
Qed.

Lemma index_of_app_skip c a b :
  ~ In c a -> index_of c (a ++ c :: b) = Some (length a).
Proof.
  induction a as [|x a IH]; simpl; intros H.
  - now rewrite chr_eqb_refl.
  - destruct (chr_eqb x c) eqn:E.
    + apply chr_eqb_eq in E. tauto.
    + rewrite IH; tauto.
Qed.

Lemma skipn_rev_app (before w : str) :
  skipn (length before) (rev before ++ w) = w.
Proof.
  rewrite <- (length_rev before). rewrite skipn_app, Nat.sub_diag.
  now rewrite skipn_all.
Qed.

Lemma takewhile_forallb f s : forallb f (takewhile f s) = true.
Proof.
  induction s as [|c s IH]; simpl; [reflexivity|].
  destruct (f c) eqn:E; simpl; [now rewrite E|reflexivity].
Qed.

Lemma dropwhile_length f s : length (dropwhile f s) <= length s.
Proof.
  induction s as [|c s IH]; simpl; [lia|]. destruct (f c); simpl; lia.
Qed.

End PyFacts.

(* ================================================================== *)
(** * The matcher against the relation *)
(* ================================================================== *)

Module ReFacts.
Import Py Re ReSem PyFacts.

Section Sound.
Context {A : Type}.

Lemma star_loop_sound a (body : option ascii -> str -> caps ->
                                (option ascii -> str -> caps -> option A) -> option A) g k :
  (forall p s e k' x, body p s e k' = Some x ->
      exists p' s' e', M a p s e p' s' e' /\ k' p' s' e' = Some x) ->
  forall fuel p s e x,
    star_loop body g k fuel p s e = Some x ->
    exists p' s' e', M (Star g a) p s e p' s' e' /\ k p' s' e' = Some x.
Proof.
  intros Hb. induction fuel as [|fuel IH]; intros p s e x; simpl.
  - intros H. exists p, s, e. split; [constructor | assumption].
  - assert (Hmore : forall y,
      body p s e (fun p' s' e' => if length s' <? length s
                                 then star_loop body g k fuel p' s' e' else None) = Some y ->
      exists p' s' e', M (Star g a) p s e p' s' e' /\ k p' s' e' = Some y).
    { intros y H. apply Hb in H. destruct H as (p1 & s1 & e1 & H1 & H2).
      destruct (length s1 <? length s) eqn:El; [|discriminate].
      apply Nat.ltb_lt in El. apply IH in H2.
      destruct H2 as (p2 & s2 & e2 & H2 & H3).
      exists p2, s2, e2. split; [|assumption]. econstructor; eassumption. }
    assert (Hk : forall y, k p s e = Some y ->
      exists p' s' e', M (Star g a) p s e p' s' e' /\ k p' s' e' = Some y).
    { intros y H. exists p, s, e. split; [constructor | assumption]. }
    destruct g.
    + destruct (body p s e _) as [y|] eqn:E.
      * intros [= <-]. now apply Hmore.
      * apply Hk.
    + destruct (k p s e) as [y|] eqn:E.
      * intros [= <-]. now apply Hk.
      * apply Hmore.
Qed.

Lemma star_loop_complete a (body : option ascii -> str -> caps ->
                                (option ascii -> str -> caps -> option A) -> option A) g k :
  (forall p s e p' s' e' k' x, M a p s e p' s' e' -> k' p' s' e' = Some x ->
      exists y, body p s e k' = Some y) ->
  forall fuel p s e p' s' e' x,
    length s <= fuel ->
    M (Star g a) p s e p' s' e' -> k p' s' e' = Some x ->
    exists y, star_loop body g k fuel p s e = Some y.
Proof.
  intros Hb. induction fuel as [|fuel IH]; intros p s e p' s' e' x Hf HM Hk.
  - inversion HM; subst.
    + simpl. eauto.
    + simpl in *. lia.
  - simpl. inversion HM; subst.
    + destruct g.
      * destruct (body _ _ _ _); eauto.
      * rewrite Hk. eauto.
    + assert (exists y, body p s e (fun p' s' e' => if length s' <? length s
                 then star_loop body g k fuel p' s' e' else None) = Some y) as [y Hy].
      { destruct (IH p1 s1 e1 p' s' e' x) as [y Hy]; try assumption; [lia|].
        eapply Hb; [eassumption|].
        match goal with H : length _ < length _ |- _ =>
          apply Nat.ltb_lt in H; rewrite H end. eassumption. }
      destruct g.
      * rewrite Hy. eauto.
      * destruct (k p s e); eauto.
Qed.

End Sound.

Lemma run_sound r : forall A p s e (k : option ascii -> str -> caps -> option A) x,
  run r p s e k = Some x ->
  exists p' s' e', M r p s e p' s' e' /\ k p' s' e' = Some x.
Proof.
  induction r as [|f|a IHa b IHb|a IHa b IHb|g a IHa|n a IHa| |];
    intros A p s e k x; simpl.
  - intros H. exists p, s, e. split; [constructor|assumption].
  - destruct s as [|c s]; [discriminate|].
    destruct (f c) eqn:E; [|discriminate].
    intros H. exists (Some c), s, e. split; [now constructor|assumption].
  - intros H. apply IHa in H. destruct H as (p1 & s1 & e1 & H1 & H).
    apply IHb in H. destruct H as (p2 & s2 & e2 & H2 & H).
    exists p2, s2, e2. split; [econstructor; eassumption|assumption].
  - destruct (run a p s e k) as [y|] eqn:E.
    + intros [= <-]. apply IHa in E. destruct E as (p1 & s1 & e1 & H1 & H).
      exists p1, s1, e1. split; [now apply M_AltL|assumption].
    + intros H. apply IHb in H. destruct H as (p1 & s1 & e1 & H1 & H).
      exists p1, s1, e1. split; [now apply M_AltR|assumption].
  - apply star_loop_sound. intros. now apply IHa.
  - intros H. apply IHa in H. destruct H as (p1 & s1 & e1 & H1 & H).
    eexists _, _, _. split; [apply M_Group; eassumption|assumption].
  - destruct (at_eol s) eqn:E; [|discriminate].
    intros H. exists p, s, e. split; [now constructor|assumption].
  - destruct (at_boundary p s) eqn:E; [|discriminate].
    intros H. exists p, s, e. split; [now constructor|assumption].
Qed.

Lemma run_complete r : forall A p s e p' s' e' (k : option ascii -> str -> caps -> option A) x,
  M r p s e p' s' e' -> k p' s' e' = Some x ->
  exists y, run r p s e k = Some y.
Proof.
  induction r as [|f|a IHa b IHb|a IHa b IHb|g a IHa|n a IHa| |];
    intros A p s e p' s' e' k x HM Hk; simpl; inversion HM; subst.
  - eauto.
  - match goal with H : f _ = true |- _ => rewrite H end. eauto.
  - match goal with H : M b _ _ _ _ _ _ |- _ =>
      destruct (IHb _ _ _ _ _ _ _ k x H Hk) as [y Hy] end.
    eapply IHa; eassumption.
  - match goal with H : M a _ _ _ _ _ _ |- _ =>
      destruct (IHa _ _ _ _ _ _ _ k x H Hk) as [y ->] end. eauto.
  - destruct (run a p s e k); eauto.
  - eapply star_loop_complete; try eassumption; [|lia].
    intros. eapply IHa; eassumption.
  - eapply star_loop_complete; try eassumption; [|lia].
    intros. eapply IHa; eassumption.
  - eapply IHa; [eassumption|]. simpl. eassumption.
  - match goal with H : at_eol _ = true |- _ => rewrite H end. eauto.
  - match goal with H : at_boundary _ _ = true |- _ => rewrite H end. eauto.
Qed.

(** A pattern ends at a suffix of where it starts. *)
Lemma M_suffix r p s e p' s' e' :
  M r p s e p' s' e' -> exists pre, s = pre ++ s'.
Proof.
  induction 1.
  - now exists [].
  - now exists [c].
  - destruct IHM1 as [x ->], IHM2 as [y ->]. exists (x ++ y). now rewrite app_assoc.
  - assumption.
  - assumption.
  - now exists [].
  - destruct IHM1 as [x ->], IHM2 as [y ->]. exists (x ++ y). now rewrite app_assoc.
  - assumption.
  - now exists [].
  - now exists [].
Qed.

Lemma firstn_suffix (s pre s' : str) :
  s = pre ++ s' -> firstn (length s - length s') s = pre.
Proof.
  intros ->. rewrite length_app, Nat.add_sub, firstn_app, Nat.sub_diag.
  rewrite firstn_all, firstn_0. apply app_nil_r.
Qed.

Lemma search_from_sound r : forall s before m,
  search_from r before s = Some m ->
  exists skipped p',
    m_before m = rev before ++ skipped
    /\ s = skipped ++ m_text m ++ m_after m
    /\ M r (hd_error (rev skipped ++ before)) (m_text m ++ m_after m) []
         p' (m_after m) (m_groups m).
Proof.
  induction s as [|c s IH]; intros before m; cbn [search_from].
  - unfold match_here.
    destruct (run r (hd_error before) [] [] _) as [[s' env]|] eqn:E;
      [|discriminate].
    intros [= <-]. apply run_sound in E.
    destruct E as (p' & s1 & e1 & HM & [= -> ->]).
    destruct (M_suffix _ _ _ _ _ _ _ HM) as [pre Hpre].
    destruct pre; [|discriminate]. simpl in Hpre. subst s'.
    exists [], p'. simpl. rewrite app_nil_r. auto.
  - unfold match_here.
    destruct (run r (hd_error before) (c :: s) [] _) as [[s' env]|] eqn:E.
    + intros [= <-]. apply run_sound in E.
      destruct E as (p' & s1 & e1 & HM & [= -> ->]).
      destruct (M_suffix _ _ _ _ _ _ _ HM) as [pre Hpre].
      exists [], p'. pose proof (firstn_suffix _ _ _ Hpre) as Hf.
      cbn in Hf |- *. rewrite Hf, <- Hpre, app_nil_r. auto.
    + intros H. apply IH in H. destruct H as (sk & p' & H1 & H2 & H3).
      exists (c :: sk), p'. simpl in *. rewrite <- app_assoc in *. simpl in *.
      rewrite H1, <- H2. auto.
Qed.

Lemma search_from_none r : forall s before,
  search_from r before s = None ->
  forall skipped s0 p' s' e',
    s = skipped ++ s0 ->
    ~ M r (hd_error (rev skipped ++ before)) s0 [] p' s' e'.
Proof.
  induction s as [|c s IH]; intros before; simpl; unfold match_here.
  - destruct (run r _ _ _ _) as [[s1 env]|] eqn:E; [discriminate|].
    intros _ skipped s0 p' s' e' Hs HM.
    destruct skipped; [|discriminate]. simpl in *. subst s0.
    destruct (run_complete r _ _ _ _ _ _ _
                (fun _ s1 env => Some (s1, env)) (s', e') HM eq_refl) as [y Hy].
    rewrite E in Hy. discriminate.
  - destruct (run r _ _ _ _) as [[s1 env]|] eqn:E; [discriminate|].
    intros H skipped s0 p' s' e' Hs HM.
    destruct skipped as [|x sk]; simpl in *.
    + subst s0.
      destruct (run_complete r _ _ _ _ _ _ _
                  (fun _ s1 env => Some (s1, env)) (s', e') HM eq_refl) as [y Hy].
      rewrite E in Hy. discriminate.
    + injection Hs as -> ->.
      eapply (IH _ H sk s0); [reflexivity|].
      rewrite <- app_assoc in HM. simpl in HM. exact HM.
Qed.

(** A starred character class consumes characters of the class and leaves
    the groups alone. *)
Lemma M_star_chr g f p s e p' s' e' :
  M (Star g (Chr f)) p s e p' s' e' ->
  e' = e /\ exists pre, s = pre ++ s' /\ forallb f pre = true.
Proof.
  remember (Star g (Chr f)) as r eqn:Er. induction 1; try discriminate.
  - split; [reflexivity|]. now exists [].
  - injection Er as -> ->. destruct (IHM2 eq_refl) as [-> [pre [-> Hpre]]].
    inversion H; subst. split; [reflexivity|].
    exists (c :: pre). simpl. match goal with H : f _ = true |- _ => now rewrite Hpre, H end.
Qed.

Ltac invM :=
  repeat match goal with
  | H : M (Seq _ _) _ _ _ _ _ _ |- _ => inversion H; subst; clear H
  | H : M (Group _ _) _ _ _ _ _ _ |- _ => inversion H; subst; clear H
  | H : M (Chr _) _ _ _ _ _ _ |- _ => inversion H; subst; clear H
  | H : M (Alt _ _) _ _ _ _ _ _ |- _ => inversion H; subst; clear H
  | H : M Eps _ _ _ _ _ _ |- _ => inversion H; subst; clear H
  | H : M (Star _ (Chr _)) _ _ _ _ _ _ |- _ =>
      apply M_star_chr in H; destruct H as [-> [? [-> ?]]]
  end.

(** ** Searching with a pattern whose matches are known *)

Lemma search_from_skip r before c s :
  match_here r (hd_error before) (c :: s) = None ->
  search_from r before (c :: s) = search_from r (c :: before) s.
Proof. intros H. cbn [search_from]. now rewrite H. Qed.

Lemma search_from_hit r before s s' env :
  match_here r (hd_error before) s = Some (s', env) ->
  search_from r before s
  = Some (MkMatch (rev before) (firstn (length s - length s') s) env s').
Proof. intros H. destruct s; cbn [search_from]; now rewrite H. Qed.

Lemma search_from_nil r before :
  match_here r (hd_error before) [] = None -> search_from r before [] = None.
Proof. intros H. cbn [search_from]. now rewrite H. Qed.

(** ** Where a search stops, and what it has passed *)

Lemma search_from_Some r : forall s before m,
  search_from r before s = Some m ->
  exists skipped p,
    m_before m = rev before ++ skipped
    /\ s = skipped ++ m_text m ++ m_after m
    /\ match_here r p (m_text m ++ m_after m) = Some (m_after m, m_groups m)
    /\ forall u v, skipped = u ++ v -> v <> [] ->
         exists p', match_here r p' (v ++ m_text m ++ m_after m) = None.
Proof.
  induction s as [|c s IH]; intros before m; cbn [search_from].
  - destruct (match_here r (hd_error before) []) as [[s' env]|] eqn:E;
      [|discriminate].
    intros [= <-]. cbn [m_before m_text m_after m_groups].
    pose proof E as E'. unfold match_here in E'. apply run_sound in E'.
    destruct E' as (p' & s1 & e1 & HM & [= -> ->]).
    destruct (M_suffix _ _ _ _ _ _ _ HM) as [pre Hpre].
    destruct pre; [|discriminate]. simpl in Hpre. subst s'.
    exists [], (hd_error before). simpl. rewrite app_nil_r.
    repeat split; auto.
    intros u v Huv Hv. destruct u, v; try discriminate. congruence.
  - destruct (match_here r (hd_error before) (c :: s)) as [[s' env]|] eqn:E.
    + intros [= <-]. cbn [m_before m_text m_after m_groups].
      pose proof E as E'. unfold match_here in E'. apply run_sound in E'.
      destruct E' as (p' & s1 & e1 & HM & [= -> ->]).
      destruct (M_suffix _ _ _ _ _ _ _ HM) as [pre Hpre].
      pose proof (firstn_suffix _ _ _ Hpre) as Hfs. cbn in Hfs |- *.
      rewrite Hfs.
      exists [], (hd_error before). rewrite app_nil_r. simpl app.
      rewrite <- Hpre. repeat split; auto.
      intros u v Huv Hv. destruct u, v; try discriminate. congruence.
    + intros H. apply IH in H. destruct H as (sk & p & H1 & H2 & H3 & H4).
      exists (c :: sk), p. repeat split.
      * rewrite H1. simpl. now rewrite <- app_assoc.
      * simpl. now rewrite <- H2.
      * assumption.
      * intros u v Huv Hv. destruct u as [|x u].
        -- simpl in Huv. subst v. exists (hd_error before).
           simpl. rewrite <- H2. exact E.
        -- injection Huv as -> ->. now apply (H4 u v).
Qed.

Lemma search_from_None r : forall s before,
  search_from r before s = None ->
  forall u v, s = u ++ v -> exists p', match_here r p' v = None.
Proof.
  induction s as [|c s IH]; intros before; cbn [search_from].
  - destruct (match_here r (hd_error before) []) as [[s' env]|] eqn:E;
      [discriminate|].
    intros _ u v Huv. destruct u, v; try discriminate. eauto.
  - destruct (match_here r (hd_error before) (c :: s)) as [[s' env]|] eqn:E;
      [discriminate|].
    intros H u v Huv. destruct u as [|x u].
    + simpl in Huv. subst v. eauto.
    + injection Huv as -> ->. eapply IH; eauto.
Qed.

(** ** The pieces of a split *)

Section Pieces.
Variable r : re.
Variable n : nat.
(** [Q]: what a stretch the search has passed looks like; [G]: what the
    groups of a match look like. *)
Variables Q G : str -> Prop.

Hypothesis match_consumes :
  forall p s s' env, match_here r p s = Some (s', env) -> length s' < length s.
Hypothesis match_groups :
  forall p s s' env, match_here r p s = Some (s', env) ->
                     Forall G (groups_upto n env).
Hypothesis passed :
  forall x rest,
    (forall u v, x = u ++ v -> v <> [] ->
                 exists p, match_here r p (v ++ rest) = None) ->
    Q x.

Lemma split_from_pieces : forall fuel before s,
  length s < fuel ->
  Forall (fun t => Q t \/ G t) (split_from fuel r n before [] s).
Proof.
  induction fuel as [|fuel IH]; intros before s Hf; [lia|].
  cbn [split_from]. destruct (search_from r before s) as [m|] eqn:E.
  - apply search_from_Some in E.
    destruct E as (sk & p & H1 & H2 & H3 & H4).
    pose proof (match_consumes _ _ _ _ H3) as Hc.
    rewrite length_app in Hc.
    destruct (m_text m) as [|c t] eqn:Et; [simpl in Hc; lia|].
    rewrite H1, skipn_rev_app. constructor.
    + left. simpl. eapply passed. intros u v Huv Hv. eapply H4; eassumption.
    + apply Forall_app. split.
      * eapply Forall_impl; [|eapply match_groups; eassumption]. auto.
      * apply IH. apply (f_equal (@length _)) in H2.
        rewrite !length_app in H2. simpl in H2. lia.
  - constructor; [|constructor]. left. simpl. apply (passed s []).
    intros u v Huv Hv. rewrite app_nil_r.
    eapply search_from_None; eassumption.
Qed.

End Pieces.

End ReFacts.

(* ================================================================== *)
(** * The patterns of the scripts, matched at one position *)
(* ================================================================== *)

Module MatchFacts.
Import Py Re PyData BibAuditBatch Notions ReSem PyFacts ReFacts.

Lemma star_loop_chr_greedy {A} f (k : option ascii -> str -> caps -> option A) e :
  forall fuel p s,
    length s <= fuel ->
    star_loop (fun p' s' e' k' => run (Chr f) p' s' e' k') true k fuel p s e
    = greedy_chr f k p s e.
Proof.
  induction fuel as [|fuel IH]; intros p s Hf.
  - destruct s; [reflexivity | simpl in Hf; lia].
  - destruct s as [|c s]; [reflexivity|].
    cbn [star_loop run greedy_chr]. destruct (f c); [|reflexivity].
    assert ((length s <? length (c :: s)) = true) as ->
      by (apply Nat.ltb_lt; simpl; lia).
    rewrite IH by (simpl in Hf; lia). reflexivity.
Qed.

Lemma run_star_chr_greedy {A} f (k : option ascii -> str -> caps -> option A) p s e :
  run (Star true (Chr f)) p s e k = greedy_chr f k p s e.
Proof. cbn [run]. apply star_loop_chr_greedy. lia. Qed.

Lemma takewhile_dropwhile f s : takewhile f s ++ dropwhile f s = s.
Proof.
  induction s as [|c s IH]; simpl; [reflexivity|].
  destruct (f c); simpl; [now rewrite IH | reflexivity].
Qed.

Lemma last_prev_cons p c pre : last_prev p (c :: pre) = last_prev (Some c) pre.
Proof.
  unfold last_prev. simpl. destruct (rev pre) as [|x r] eqn:E; simpl;
    [reflexivity|]. reflexivity.
Qed.

(** When what follows accepts the longest run, that is the answer. *)
Lemma greedy_chr_longest {A} f (k : option ascii -> str -> caps -> option A) e x :
  forall s p,
    k (last_prev p (takewhile f s)) (dropwhile f s) e = Some x ->
    greedy_chr f k p s e = Some x.
Proof.
  induction s as [|c s IH]; intros p; simpl; [auto|].
  destruct (f c); [|auto].
  rewrite last_prev_cons. intros H. now rewrite (IH _ H).
Qed.

(** When what follows refuses every position that is inside the run, only
    the longest run counts. *)
Lemma greedy_chr_only_longest {A} f (k : option ascii -> str -> caps -> option A) e :
  (forall p c s, f c = true -> k p (c :: s) e = None) ->
  forall s p,
    greedy_chr f k p s e = k (last_prev p (takewhile f s)) (dropwhile f s) e.
Proof.
  intros Hk. induction s as [|c s IH]; intros p; simpl; [reflexivity|].
  destruct (f c) eqn:E; [|reflexivity].
  rewrite last_prev_cons, IH. destruct (k _ _ e); [reflexivity|].
  now apply Hk.
Qed.

Lemma firstn_takewhile f s :
  firstn (length s - length (dropwhile f s)) s = takewhile f s.
Proof.
  apply firstn_suffix. symmetry. apply takewhile_dropwhile.
Qed.

Lemma match_here_WS p s : match_here WS_GROUP_RE p s = ws_match s.
Proof.
  unfold match_here, WS_GROUP_RE, Plus, ws_match, ws. cbn [run].
  destruct s as [|c s]; [reflexivity|].
  destruct (isspace_c c) eqn:E; [|reflexivity].
  change (star_loop _ true ?k (length s) (Some c) s [])
    with (run (Star true (Chr isspace_c)) (Some c) s [] k).
  rewrite run_star_chr_greedy.
  erewrite greedy_chr_longest; [|reflexivity].
  f_equal. f_equal; [simpl; now rewrite E|].
  f_equal. f_equal. rewrite <- firstn_takewhile. simpl dropwhile. now rewrite E.
Qed.

Lemma match_here_SEP p s : match_here SEP_GROUP_RE p s = sep_match s.
Proof.
  unfold match_here, SEP_GROUP_RE, Plus, sep_match, ws, Lit. cbn [run].
  destruct s as [|c s]; [reflexivity|].
  destruct (isspace_c c) eqn:E.
  - change (star_loop _ true ?k (length s) (Some c) s [])
      with (run (Star true (Chr isspace_c)) (Some c) s [] k).
    rewrite run_star_chr_greedy.
    erewrite greedy_chr_longest; [|reflexivity].
    f_equal. f_equal; [simpl; now rewrite E|].
    f_equal. f_equal. rewrite <- firstn_takewhile. simpl dropwhile. now rewrite E.
  - destruct (chr_eqb "-" c) eqn:E2; [|reflexivity].
    apply chr_eqb_eq in E2. subst c. do 4 f_equal.
    simpl length. replace (S (length s) - length s) with 1 by lia. reflexivity.
Qed.

Lemma match_here_SEP_RE p s :
  is_some (match_here SEP_RE p s)
  = match s with
    | c :: _ => isspace_c c || chr_eqb "-" c
    | [] => false
    end.
Proof.
  unfold match_here, SEP_RE, Plus, ws, Lit. cbn [run].
  destruct s as [|c s]; [reflexivity|].
  destruct (isspace_c c) eqn:E.
  - change (star_loop _ true ?k (length s) (Some c) s [])
      with (run (Star true (Chr isspace_c)) (Some c) s [] k).
    rewrite run_star_chr_greedy.
    erewrite greedy_chr_longest; reflexivity.
  - destruct (chr_eqb "-" c); reflexivity.
Qed.

Lemma search_LETTER s m :
  search LETTER_RE s = Some m ->
  exists c, m_text m = [c] /\ letter_c c = true.
Proof.
  intros H. apply search_from_sound in H.
  destruct H as (sk & p' & _ & _ & HM). unfold LETTER_RE in HM.
  inversion HM as [|f c p s0 e Hc Hs| | | | | | | |]; subst.
  exists c. split; [|assumption].
  apply (app_inv_tail (m_after m)). simpl. congruence.
Qed.

Lemma isspace_not_word c : isspace_c c = true -> isword_c c = false.
Proof.
  destruct c as [[] [] [] [] [] [] [] []]; vm_compute; intros; congruence.
Qed.

Lemma is_and_word a n d :
  is_and a n d = true -> isword_c a = true /\ isword_c d = true.
Proof.
  unfold is_and. intros [[Ha Hn]%andb_true_iff Hd]%andb_true_iff.
  split.
  - clear -Ha. destruct a as [[] [] [] [] [] [] [] []]; vm_compute in *; congruence.
  - clear -Hd. destruct d as [[] [] [] [] [] [] [] []]; vm_compute in *; congruence.
Qed.

Lemma dropwhile_takewhile_hd f s c r :
  dropwhile f s = c :: r -> f c = false.
Proof. apply dropwhile_hd. Qed.

Lemma last_prev_ws p s c :
  isspace_c c = true ->
  exists w, last_prev p (takewhile isspace_c (c :: s)) = Some w
            /\ isspace_c w = true.
Proof.
  intros Hc. simpl. rewrite Hc, last_prev_cons. clear p.
  revert c Hc. induction s as [|x s IH]; intros c Hc; simpl.
  - now exists c.
  - destruct (isspace_c x) eqn:E.
    + rewrite last_prev_cons. now apply IH.
    + now exists c.
Qed.

Lemma match_here_AND p s :
  match_here AND_RE p s
  = match and_match s with Some r => Some (r, []) | None => None end.
Proof.
  unfold match_here, AND_RE, Plus, ws, LitI, and_match. cbn [run].
  destruct s as [|c s]; [reflexivity|].
  destruct (isspace_c c) eqn:E; [|reflexivity].
  change (star_loop _ true ?k (length s) (Some c) s [])
    with (run (Star true (Chr isspace_c)) (Some c) s [] k).
  rewrite run_star_chr_greedy.
  rewrite greedy_chr_only_longest.
  2:{ intros p0 c0 s0 Hc0. cbn [hd_error].
      destruct (at_boundary p0 (c0 :: s0)); [|reflexivity].
      destruct (chr_eqb (lower_c c0) (lower_c "a")) eqn:Ea; [|reflexivity].
      exfalso. clear -Hc0 Ea.
      destruct c0 as [[] [] [] [] [] [] [] []]; vm_compute in *; congruence. }
  destruct (last_prev_ws (Some c) s c E) as (w & Hw & Hws).
  assert (Hlp : last_prev (Some c) (takewhile isspace_c s)
                = last_prev p (takewhile isspace_c (c :: s))).
  { simpl. now rewrite E, last_prev_cons. }
  rewrite Hlp. simpl takewhile in Hw. rewrite E in Hw.
  rewrite last_prev_cons in Hw. simpl takewhile. rewrite E, last_prev_cons, Hw.
  simpl dropwhile. rewrite E.
  destruct (dropwhile isspace_c s) as [|a r] eqn:Ed;
    [now destruct (at_boundary _ _)|].
  unfold at_boundary at 1. cbn [is_word_opt hd_error].
  rewrite (isspace_not_word w Hws).
  destruct r as [|n [|d r]].
  - destruct (isword_c a); simpl; [|reflexivity].
    destruct (chr_eqb _ _); reflexivity.
  - destruct (isword_c a); simpl; [|reflexivity].
    destruct (chr_eqb (lower_c a) _); [|reflexivity].
    destruct (chr_eqb (lower_c n) _); reflexivity.
  - unfold is_and. change (lower_c "a") with "a"%char.
    change (lower_c "n") with "n"%char. change (lower_c "d") with "d"%char.
    destruct (chr_eqb (lower_c a) "a") eqn:Ea.
    2:{ destruct (isword_c a); reflexivity. }
    assert (isword_c a = true) as ->.
    { clear -Ea. destruct a as [[] [] [] [] [] [] [] []]; vm_compute in *; congruence. }
    cbn [Bool.eqb negb andb].
    destruct (chr_eqb (lower_c n) "n"); [|reflexivity].
    destruct (chr_eqb (lower_c d) "d") eqn:Edd; [|reflexivity].
    cbn [andb].
    assert (isword_c d = true) as Hwd.
    { clear -Edd. destruct d as [[] [] [] [] [] [] [] []]; vm_compute in *; congruence. }
    unfold at_boundary. cbn [is_word_opt]. rewrite Hwd.
    destruct r as [|x r]; [reflexivity|]. cbn [hd_error is_word_opt].
    destruct (isspace_c x) eqn:Ex.
    + rewrite (isspace_not_word x Ex). cbn [Bool.eqb negb].
      change (star_loop _ true ?k (length r) (Some x) r [])
        with (run (Star true (Chr isspace_c)) (Some x) r [] k).
      rewrite run_star_chr_greedy.
      erewrite greedy_chr_longest; [|reflexivity].
      simpl dropwhile. now rewrite Ex.
    + destruct (isword_c x); reflexivity.
Qed.

End MatchFacts.

(* ================================================================== *)
(** * Sentence case *)
(* ================================================================== *)

Module SentenceCaseFacts.
Import Py Re PyData BibAuditBatch Notions ReSem PyFacts ReFacts MatchFacts.

(** ** Splitting on white space *)

Lemma ws_match_nonspace c s : nonspace_c c = true -> ws_match (c :: s) = None.
Proof.
  unfold nonspace_c, ws_match. now intros ->%negb_true_iff.
Qed.

Lemma dropwhile_run f sp rest :
  forallb f sp = true ->
  match rest with c :: _ => f c = false | [] => True end ->
  dropwhile f (sp ++ rest) = rest /\ takewhile f (sp ++ rest) = sp.
Proof.
  intros Hsp Hr. induction sp as [|x sp IH]; simpl in *.
  - destruct rest as [|c rest]; [auto|]. simpl. now rewrite Hr.
  - apply andb_true_iff in Hsp. destruct Hsp as [-> Hsp].
    destruct (IH Hsp) as [-> ->]. auto.
Qed.

Lemma starts_nonspace_spec rest :
  starts_nonspace rest = true ->
  match rest with c :: _ => isspace_c c = false | [] => True end.
Proof.
  destruct rest as [|c rest]; simpl; [auto|]. unfold nonspace_c.
  now intros ->%negb_true_iff.
Qed.

Lemma isspace_forallb s : isspace s = true -> forallb isspace_c s = true /\ s <> [].
Proof.
  unfold isspace. destruct s; [discriminate|]. intros H. split; [assumption|discriminate].
Qed.

Lemma ws_search_word w : forall before,
  word w = true -> search_from WS_GROUP_RE before w = None.
Proof.
  induction w as [|c w IH]; intros before H.
  - apply search_from_nil. now rewrite match_here_WS.
  - simpl in H. apply andb_true_iff in H. destruct H as [Hc Hw].
    rewrite search_from_skip by (rewrite match_here_WS; now apply ws_match_nonspace).
    now apply IH.
Qed.

Lemma ws_search_run w sp rest : forall before,
  word w = true -> isspace sp = true -> starts_nonspace rest = true ->
  search_from WS_GROUP_RE before (w ++ sp ++ rest)
  = Some (MkMatch (rev before ++ w) sp [(1, sp)] rest).
Proof.
  induction w as [|c w IH]; intros before Hw Hsp Hr.
  - apply isspace_forallb in Hsp. destruct Hsp as [Hsp Hne].
    apply starts_nonspace_spec in Hr.
    destruct (dropwhile_run isspace_c sp rest Hsp Hr) as [Hd Ht].
    simpl app. erewrite search_from_hit.
    2:{ rewrite match_here_WS. unfold ws_match.
        destruct sp as [|x sp]; [congruence|]. simpl app.
        simpl in Hsp. apply andb_true_iff in Hsp. destruct Hsp as [Hx _].
        rewrite Hx. simpl app in Hd, Ht. rewrite Hd, Ht. reflexivity. }
    rewrite app_nil_r. f_equal. f_equal.
    apply firstn_suffix. reflexivity.
  - simpl in Hw. apply andb_true_iff in Hw. destruct Hw as [Hc Hw].
    simpl app.
    rewrite search_from_skip by (rewrite match_here_WS; now apply ws_match_nonspace).
    rewrite IH by assumption. simpl. now rewrite <- app_assoc.
Qed.

Lemma ws_split_from_concat_aux n : forall L fuel before,
  length L <= n ->
  ws_alternating L = true ->
  length (concat L) < fuel ->
  split_from fuel WS_GROUP_RE 1 before [] (concat L) = L.
Proof.
  induction n as [|n IH]; intros L fuel before Hn HL Hf.
  - destruct L; [discriminate | simpl in Hn; lia].
  - destruct L as [|w [|sp L']]; [discriminate| |].
    + simpl in HL. simpl concat. rewrite app_nil_r in *.
      destruct fuel; [lia|]. cbn [split_from].
      now rewrite ws_search_word.
    + cbn [ws_alternating] in HL.
      apply andb_true_iff in HL. destruct HL as [HL HL'].
      apply andb_true_iff in HL. destruct HL as [HL Hr].
      apply andb_true_iff in HL. destruct HL as [Hw Hsp].
      destruct fuel; [lia|]. cbn [split_from concat].
      rewrite ws_search_run by assumption. cbn [m_text m_after m_before m_groups].
      destruct sp as [|x sp]; [discriminate|].
      rewrite skipn_rev_app.
      simpl. f_equal. f_equal. apply IH.
      * simpl in Hn. lia.
      * assumption.
      * cbn [concat] in Hf. rewrite !length_app in Hf. cbn [length] in Hf. lia.
Qed.

Lemma ws_split_concat L :
  ws_alternating L = true -> split WS_GROUP_RE 1 (concat L) = L.
Proof.
  intros H. apply (ws_split_from_concat_aux (length L)); [lia | assumption | lia].
Qed.

Lemma ws_decompose_aux n : forall s,
  length s <= n ->
  exists L, ws_alternating L = true /\ concat L = s.
Proof.
  induction n as [|n IH]; intros s Hn.
  - destruct s; [|simpl in Hn; lia]. now exists [[]].
  - pose proof (takewhile_dropwhile nonspace_c s) as Hs.
    destruct (dropwhile nonspace_c s) as [|c r] eqn:Er.
    + exists [s]. rewrite app_nil_r in Hs. simpl. rewrite app_nil_r.
      split; [|reflexivity]. unfold word. rewrite <- Hs.
      apply takewhile_forallb.
    + assert (Hc : isspace_c c = true).
      { apply dropwhile_hd in Er. unfold nonspace_c in Er.
        now apply negb_false_iff in Er. }
      pose proof (takewhile_dropwhile isspace_c (c :: r)) as Hr.
      destruct (IH (dropwhile isspace_c (c :: r))) as (L & HL & HcL).
      { pose proof (dropwhile_length isspace_c r) as H1.
        pose proof (dropwhile_length nonspace_c s) as H2. rewrite Er in H2.
        simpl in *. rewrite Hc. lia. }
      exists (takewhile nonspace_c s :: takewhile isspace_c (c :: r) :: L).
      split.
      * cbn [ws_alternating]. rewrite HL, andb_true_r.
        apply andb_true_iff. split; [apply andb_true_iff; split|].
        -- apply takewhile_forallb.
        -- unfold isspace. simpl takewhile. rewrite Hc.
           simpl. rewrite Hc. simpl. apply takewhile_forallb.
        -- rewrite HcL.
           destruct (dropwhile isspace_c (c :: r)) as [|x r2] eqn:Ed;
             [reflexivity|].
           apply dropwhile_hd in Ed. simpl. unfold nonspace_c. now rewrite Ed.
      * cbn [concat]. rewrite HcL, Hr. exact Hs.
Qed.

Lemma ws_decompose s : exists L, ws_alternating L = true /\ concat L = s.
Proof. apply (ws_decompose_aux (length s)). lia. Qed.

Lemma ws_split_alternating s :
  ws_alternating (split WS_GROUP_RE 1 s) = true
  /\ concat (split WS_GROUP_RE 1 s) = s.
Proof.
  destruct (ws_decompose s) as (L & HL & <-).
  rewrite ws_split_concat by assumption. auto.
Qed.

(** ** What a turn of the loop keeps *)

Lemma isspace_upper_c c : isspace_c (upper_c c) = isspace_c c.
Proof. destruct c as [[] [] [] [] [] [] [] []]; reflexivity. Qed.

Lemma isspace_lower_c c : isspace_c (lower_c c) = isspace_c c.
Proof. destruct c as [[] [] [] [] [] [] [] []]; reflexivity. Qed.

Lemma pat_upper s : pat (upper s) = pat s.
Proof.
  unfold pat, upper. rewrite map_map. apply map_ext. apply isspace_upper_c.
Qed.

Lemma pat_lower s : pat (lower s) = pat s.
Proof.
  unfold pat, lower. rewrite map_map. apply map_ext. apply isspace_lower_c.
Qed.

Lemma pat_app a b : pat (a ++ b) = pat a ++ pat b.
Proof. apply map_app. Qed.

Lemma pat_sc_cap t : pat (sc_cap t) = pat t.
Proof.
  unfold sc_cap. rewrite pat_app, pat_upper, pat_lower, <- pat_app.
  now rewrite firstn_skipn.
Qed.

Lemma pat_sc_token out fad t : pat (sc_token out fad t) = pat t.
Proof.
  unfold sc_token. destruct (isspace t); [reflexivity|].
  destruct (negb fad); destruct (sc_short_upper t); try reflexivity.
  - apply pat_sc_cap.
  - destruct (match rev out with [] => false | _ => _ end);
      [apply pat_sc_cap | apply pat_lower].
Qed.

(** Being a word, a run of white space, starting without white space:
    all read off the pattern. *)
Lemma forallb_map_pat (f : bool -> bool) s :
  forallb f (pat s) = forallb (fun c => f (isspace_c c)) s.
Proof.
  unfold pat. induction s as [|c s IH]; simpl; [reflexivity|]. now rewrite IH.
Qed.

Lemma pat_eq_isspace a b : pat a = pat b -> isspace a = isspace b.
Proof.
  intros H. unfold isspace.
  destruct a as [|x a], b as [|y b]; try discriminate; [reflexivity|].
  change (forallb isspace_c (x :: a))
    with (forallb (fun c => id (isspace_c c)) (x :: a)).
  change (forallb isspace_c (y :: b))
    with (forallb (fun c => id (isspace_c c)) (y :: b)).
  rewrite <- !forallb_map_pat. now rewrite H.
Qed.

Lemma pat_eq_word a b : pat a = pat b -> word a = word b.
Proof.
  intros H. unfold word, nonspace_c. rewrite <- !forallb_map_pat. now rewrite H.
Qed.

Lemma pat_eq_starts a b : pat a = pat b -> starts_nonspace a = starts_nonspace b.
Proof.
  unfold pat. destruct a, b; simpl; try discriminate; [reflexivity|].
  unfold nonspace_c. now intros [= -> _].
Qed.

Lemma pat_concat L X :
  Forall2 (fun t x => pat x = pat t) L X -> pat (concat X) = pat (concat L).
Proof.
  induction 1; simpl; [reflexivity|]. rewrite !pat_app. congruence.
Qed.

Lemma ws_alternating_pat_aux n : forall L X,
  length L <= n ->
  Forall2 (fun t x => pat x = pat t) L X ->
  ws_alternating X = ws_alternating L.
Proof.
  induction n as [|n IH]; intros L X Hn H.
  - destruct H; [reflexivity | simpl in Hn; lia].
  - destruct H as [|t x L X Hx H]; [reflexivity|].
    destruct H as [|t2 x2 L2 X2 Hx2 H2]; cbn [ws_alternating].
    + now apply pat_eq_word.
    + rewrite (pat_eq_word _ _ Hx), (pat_eq_isspace _ _ Hx2).
      rewrite (pat_eq_starts _ _ (pat_concat _ _ H2)).
      f_equal. apply IH; [simpl in Hn; lia | assumption].
Qed.

Lemma ws_alternating_pat L X :
  Forall2 (fun t x => pat x = pat t) L X ->
  ws_alternating X = ws_alternating L.
Proof. apply (ws_alternating_pat_aux (length L)). lia. Qed.

(** ** The loop, turn by turn *)

Lemma sentence_case_loop_step t tokens out fad :
  sentence_case_loop (t :: tokens) out fad
  = sentence_case_loop tokens (out ++ [sc_token out fad t]) (sc_flag fad t).
Proof.
  cbn [sentence_case_loop]. unfold sc_token, sc_flag, sc_short_upper, sc_cap.
  destruct (isspace t); [reflexivity|].
  destruct (negb fad); destruct (isupper t && (length t <=? 5));
    try reflexivity.
  destruct (match rev out with [] => false | _ => _ end); reflexivity.
Qed.

Lemma lower_c_idem c : lower_c (lower_c c) = lower_c c.
Proof. destruct c as [[] [] [] [] [] [] [] []]; reflexivity. Qed.

Lemma upper_c_idem c : upper_c (upper_c c) = upper_c c.
Proof. destruct c as [[] [] [] [] [] [] [] []]; reflexivity. Qed.

Lemma isupper_lower_c c : isupper_c (lower_c c) = false.
Proof. destruct c as [[] [] [] [] [] [] [] []]; reflexivity. Qed.

Lemma lower_idem s : lower (lower s) = lower s.
Proof.
  unfold lower. rewrite map_map. apply map_ext. apply lower_c_idem.
Qed.

Lemma upper_idem s : upper (upper s) = upper s.
Proof.
  unfold upper. rewrite map_map. apply map_ext. apply upper_c_idem.
Qed.

Lemma isupper_lower s : isupper (lower s) = false.
Proof.
  unfold isupper, lower.
  assert (existsb isupper_c (map lower_c s) = false) as ->; [|reflexivity].
  induction s as [|c s IH]; simpl; [reflexivity|].
  now rewrite isupper_lower_c, IH.
Qed.

Lemma sc_cap_idem t : sc_cap (sc_cap t) = sc_cap t.
Proof.
  unfold sc_cap. destruct t as [|c t]; [reflexivity|].
  simpl. now rewrite upper_c_idem, lower_idem.
Qed.

Lemma isspace_sc_token out fad t : isspace (sc_token out fad t) = isspace t.
Proof. apply pat_eq_isspace. apply pat_sc_token. Qed.

Lemma sc_flag_token out fad t : sc_flag fad (sc_token out fad t) = sc_flag fad t.
Proof. unfold sc_flag. now rewrite isspace_sc_token. Qed.

Lemma sc_token_idem out fad t :
  sc_token out fad (sc_token out fad t) = sc_token out fad t.
Proof.
  unfold sc_token at 1. rewrite isspace_sc_token.
  unfold sc_token. destruct (isspace t); [reflexivity|].
  destruct (negb fad).
  - destruct (sc_short_upper t) eqn:E; [now rewrite E|].
    rewrite sc_cap_idem. now destruct (sc_short_upper (sc_cap t)).
  - destruct (sc_short_upper t) eqn:E; [now rewrite E|].
    destruct (match rev out with [] => false | _ => _ end).
    + rewrite sc_cap_idem. now destruct (sc_short_upper (sc_cap t)).
    + unfold sc_short_upper. rewrite isupper_lower. simpl.
      apply lower_idem.
Qed.

(** A second run of the loop over its own output changes nothing. *)
Lemma sentence_case_loop_idem tokens : forall out fad,
  exists X,
    sentence_case_loop tokens out fad = out ++ X
    /\ sentence_case_loop X out fad = out ++ X
    /\ Forall2 (fun t x => pat x = pat t) tokens X.
Proof.
  induction tokens as [|t tokens IH]; intros out fad.
  - exists []. simpl. rewrite app_nil_r. auto.
  - rewrite sentence_case_loop_step.
    destruct (IH (out ++ [sc_token out fad t]) (sc_flag fad t))
      as (X & H1 & H2 & H3).
    exists (sc_token out fad t :: X). split; [|split].
    + rewrite H1. now rewrite <- app_assoc.
    + rewrite sentence_case_loop_step, sc_token_idem, sc_flag_token, H2.
      now rewrite <- app_assoc.
    + constructor; [apply pat_sc_token | assumption].
Qed.

(** Sentence case is idempotent. *)
Lemma sentence_case_idem t : sentence_case (sentence_case t) = sentence_case t.
Proof.
  destruct (strip t) as [|a u] eqn:Et.
  - assert (sentence_case t = t) as -> by (unfold sentence_case; now rewrite Et).
    unfold sentence_case. now rewrite Et.
  - destruct (sentence_case_loop_idem (split WS_GROUP_RE 1 t) [] false)
      as (X & H1 & H2 & H3).
    simpl app in H1, H2.
    assert (sentence_case t = concat X) as ->
      by (unfold sentence_case; now rewrite Et, H1).
    unfold sentence_case. destruct (strip (concat X)); [reflexivity|].
    assert (HX : ws_alternating X = true).
    { rewrite (ws_alternating_pat _ _ H3). apply ws_split_alternating. }
    rewrite (ws_split_concat X HX), H2. reflexivity.
Qed.

End SentenceCaseFacts.

(* ================================================================== *)
(** * Initials *)
(* ================================================================== *)

Module InitialsFacts.
Import Py Re PyData BibAuditBatch Notions ReSem PyFacts ReFacts MatchFacts
       SentenceCaseFacts.

(** ** The author separator *)

Lemma dropwhile_app_nonnil f s y :
  dropwhile f s <> [] -> dropwhile f (s ++ y) = dropwhile f s ++ y.
Proof.
  induction s as [|c s IH]; simpl; [congruence|].
  destruct (f c); [assumption | reflexivity].
Qed.

Lemma and_match_app x y r :
  and_match x = Some r -> exists r', and_match (x ++ y) = Some r'.
Proof.
  unfold and_match. destruct x as [|c x]; [discriminate|].
  simpl app. destruct (isspace_c c) eqn:Ec; [|discriminate].
  destruct (dropwhile isspace_c (c :: x)) as [|a [|n [|d [|w r0]]]] eqn:Ed;
    try discriminate.
  - destruct (is_and a n d); discriminate.
  - change (c :: x ++ y) with ((c :: x) ++ y).
    rewrite dropwhile_app_nonnil by (rewrite Ed; discriminate).
    rewrite Ed. simpl app. rewrite Ec.
    destruct (is_and a n d); [|discriminate].
    destruct (isspace_c w) eqn:Ew; [|discriminate]. intros _.
    cbn [dropwhile]. rewrite Ew. eauto.
Qed.

Lemma and_match_shorter s r : and_match s = Some r -> length r < length s.
Proof.
  unfold and_match. destruct s as [|c s]; [discriminate|].
  destruct (isspace_c c) eqn:Ec; [|discriminate].
  pose proof (dropwhile_length isspace_c (c :: s)) as H1.
  destruct (dropwhile isspace_c (c :: s)) as [|a [|n [|d [|w r0]]]] eqn:Ed;
    try discriminate.
  - destruct (is_and a n d); discriminate.
  - destruct (is_and a n d); [|discriminate].
    destruct (isspace_c w); [|discriminate]. intros [= <-].
    pose proof (dropwhile_length isspace_c (w :: r0)) as H2.
    simpl in *. lia.
Qed.

Lemma nomatch_tail c s : nomatch (c :: s) = true -> nomatch s = true.
Proof. cbn [nomatch]. now intros [_ H]%andb_true_iff. Qed.

Lemma nomatch_suffix u v : nomatch (u ++ v) = true -> nomatch v = true.
Proof.
  induction u as [|c u IH]; [auto|]. intros H. apply IH.
  now apply nomatch_tail in H.
Qed.

Lemma nomatch_prefix u v : nomatch (u ++ v) = true -> nomatch u = true.
Proof.
  induction u as [|c u IH]; [reflexivity|]. cbn [app nomatch].
  intros [H1 H2]%andb_true_iff. apply andb_true_iff. split; [|now apply IH].
  destruct (and_match (c :: u)) as [r|] eqn:E; [|reflexivity].
  destruct (and_match_app _ v _ E) as [r' Hr']. simpl app in Hr'.
  now rewrite Hr' in H1.
Qed.

Lemma lstrip_suffix s : exists u, s = u ++ lstrip s.
Proof. apply dropwhile_suffix. Qed.

Lemma rstrip_prefix s : exists t, s = rstrip s ++ t.
Proof.
  unfold rstrip. destruct (dropwhile_suffix isspace_c (rev s)) as [pre E].
  exists (rev pre). apply (f_equal (@rev _)) in E.
  rewrite rev_involutive, rev_app_distr in E. exact E.
Qed.

Lemma strip_middle s : exists u t, s = u ++ strip s ++ t.
Proof.
  unfold strip. destruct (lstrip_suffix s) as [u Hu].
  destruct (rstrip_prefix (lstrip s)) as [t Ht].
  exists u, t. now rewrite <- Ht.
Qed.

Lemma nomatch_strip s : nomatch s = true -> nomatch (strip s) = true.
Proof.
  intros H. destruct (strip_middle s) as (u & t & E). rewrite E in H.
  apply nomatch_suffix in H. now apply nomatch_prefix in H.
Qed.

Lemma and_split_pieces_nomatch s :
  Forall (fun a => nomatch a = true) (split AND_RE 0 s).
Proof.
  unfold split.
  eapply Forall_impl;
    [|apply (split_from_pieces AND_RE 0 (fun a => nomatch a = true)
               (fun _ => False))].
  - intros a [H|[]]. exact H.
  - intros p x s' env. rewrite match_here_AND.
    destruct (and_match x) as [r|] eqn:E; [|discriminate].
    intros [= <- _]. now apply and_match_shorter.
  - intros. constructor.
  - intros x rest. induction x as [|c x IH]; intros H; [reflexivity|].
    cbn [nomatch]. apply andb_true_iff. split.
    + destruct (H [] (c :: x) eq_refl) as [p Hp]; [discriminate|].
      rewrite match_here_AND in Hp.
      destruct (and_match (c :: x)) as [r|] eqn:E; [|reflexivity].
      destruct (and_match_app _ rest _ E) as [r' Hr'].
      now rewrite Hr' in Hp.
    + apply IH. intros u v Huv Hv. apply (H (c :: u) v); [|assumption].
      simpl. now rewrite Huv.
  - lia.
Qed.

(** ** Strings free of the separator *)

Lemma is_and_chars a n d :
  is_and a n d = true ->
  chr_eqb (lower_c a) "a" = true /\ chr_eqb (lower_c n) "n" = true
  /\ chr_eqb (lower_c d) "d" = true.
Proof.
  unfold is_and. intros [[Ha Hn]%andb_true_iff Hd]%andb_true_iff. auto.
Qed.

Lemma lower_a_facts c :
  chr_eqb (lower_c c) "a" = true ->
  isspace_c c = false /\ letter_c c = true /\ c <> ","%char.
Proof.
  destruct c as [[] [] [] [] [] [] [] []]; vm_compute; intros H;
    try discriminate H; repeat split; discriminate.
Qed.

Lemma lower_n_facts c :
  chr_eqb (lower_c c) "n" = true ->
  isspace_c c = false /\ c <> "."%char /\ c <> ","%char.
Proof.
  destruct c as [[] [] [] [] [] [] [] []]; vm_compute; intros H;
    try discriminate H; repeat split; discriminate.
Qed.

Lemma lower_d_facts c :
  chr_eqb (lower_c c) "d" = true ->
  isspace_c c = false /\ c <> "}"%char /\ c <> ","%char.
Proof.
  destruct c as [[] [] [] [] [] [] [] []]; vm_compute; intros H;
    try discriminate H; repeat split; discriminate.
Qed.

(** White space, [and], white space: the pattern matches. *)
Lemma and_match_window w a n d c r :
  isspace_c w = true -> is_and a n d = true -> isspace_c c = true ->
  exists r', and_match (w :: a :: n :: d :: c :: r) = Some r'.
Proof.
  intros Hw Hand Hc. destruct (is_and_chars _ _ _ Hand) as (Ha & _).
  destruct (lower_a_facts a Ha) as (Has & _).
  unfold and_match. rewrite Hw. cbn [dropwhile]. rewrite Hw, Has, Hand, Hc.
  eauto.
Qed.

Lemma and_free_tail c s : and_free (c :: s) = true -> and_free s = true.
Proof. cbn [and_free]. now intros [_ H]%andb_true_iff. Qed.

Lemma and_free_closing u :
  nomatch (u ++ ["}"%char]) = true -> and_free (u ++ ["}"%char]) = true.
Proof.
  induction u as [|w u IH]; intros H; [reflexivity|].
  cbn [app and_free]. pose proof H as H'. apply nomatch_tail in H'.
  rewrite (IH H'), andb_true_r. apply negb_true_iff.
  destruct (isspace_c w) eqn:Ew; [|reflexivity]. cbn [andb].
  destruct (and_window (u ++ ["}"%char])) eqn:E; [|reflexivity].
  exfalso. unfold and_window in E.
  destruct u as [|a [|n [|d [|c r]]]]; cbn [app] in E.
  - discriminate E.
  - discriminate E.
  - apply andb_true_iff in E. destruct E as [E _].
    destruct (is_and_chars _ _ _ E) as (_ & _ & Hd).
    destruct (lower_d_facts _ Hd) as (_ & Hd' & _). congruence.
  - apply andb_true_iff in E. destruct E as [_ E]. discriminate E.
  - apply andb_true_iff in E. destruct E as [E Hc].
    destruct (and_match_window w a n d c (r ++ ["}"%char]) Ew E Hc) as [r' Hr'].
    cbn [app nomatch] in H. rewrite Hr' in H. discriminate.
Qed.

Lemma and_free_before_comma x y :
  nomatch x = true -> and_free (","%char :: y) = true ->
  and_free (x ++ ","%char :: y) = true.
Proof.
  induction x as [|w x IH]; intros H Hy; [exact Hy|].
  cbn [app and_free]. pose proof H as H'. apply nomatch_tail in H'.
  rewrite (IH H' Hy), andb_true_r. apply negb_true_iff.
  destruct (isspace_c w) eqn:Ew; [|reflexivity]. cbn [andb].
  destruct (and_window (x ++ ","%char :: y)) eqn:E; [|reflexivity].
  exfalso. unfold and_window in E.
  destruct x as [|a [|n [|d [|c r]]]]; cbn [app] in E.
  - destruct y as [|n [|d r]]; discriminate E.
  - destruct y as [|d r]; [discriminate E|].
    apply andb_true_iff in E. destruct E as [E _].
    destruct (is_and_chars _ _ _ E) as (_ & Hn & _).
    destruct (lower_n_facts _ Hn) as (_ & _ & Hn'). congruence.
  - apply andb_true_iff in E. destruct E as [E _].
    destruct (is_and_chars _ _ _ E) as (_ & _ & Hd).
    destruct (lower_d_facts _ Hd) as (_ & _ & Hd'). congruence.
  - apply andb_true_iff in E. destruct E as [_ E]. discriminate E.
  - apply andb_true_iff in E. destruct E as [E Hc].
    destruct (and_match_window w a n d c r Ew E Hc) as [r' Hr'].
    cbn [nomatch] in H. rewrite Hr' in H. discriminate.
Qed.

Lemma dotted_tail c s : dotted (c :: s) = true -> dotted s = true.
Proof. cbn [dotted]. now intros [_ H]%andb_true_iff. Qed.

Lemma dotted_window s : dotted s = true -> and_window s = false.
Proof.
  destruct s as [|a [|n [|d r]]]; try reflexivity. intros H.
  unfold and_window. destruct (is_and a n d) eqn:E; [|reflexivity].
  exfalso. destruct (is_and_chars _ _ _ E) as (Ha & Hn & _).
  destruct (lower_a_facts _ Ha) as (_ & Hl & _).
  destruct (lower_n_facts _ Hn) as (_ & Hn' & _).
  cbn [dotted] in H. rewrite Hl in H.
  apply andb_true_iff in H. destruct H as [H _].
  apply chr_eqb_eq in H. congruence.
Qed.

Lemma dotted_and_free s : dotted s = true -> and_free s = true.
Proof.
  induction s as [|c s IH]; intros H; [reflexivity|].
  cbn [and_free]. pose proof (dotted_tail _ _ H) as H'.
  rewrite (IH H'), (dotted_window s H'). now rewrite andb_false_r.
Qed.

(** The shape [surname, initials] holds no separator. *)
Lemma and_free_surname_initials sur ini :
  nomatch sur = true -> dotted ini = true ->
  and_free (sur ++ lit ", " ++ ini) = true.
Proof.
  intros Hs Hi. apply and_free_before_comma; [assumption|].
  cbn [and_free]. change (isspace_c ",") with false.
  change (isspace_c " ") with true. cbn [andb negb].
  rewrite (dotted_window ini Hi), (dotted_and_free ini Hi). reflexivity.
Qed.

(** ** Splitting what was joined *)

Lemma and_match_ctx s :
  and_match s
  = if starts_nonspace s || negb (and_ctx (dropwhile isspace_c s))
    then None
    else Some (dropwhile isspace_c (skipn 3 (dropwhile isspace_c s))).
Proof.
  unfold and_match, starts_nonspace, nonspace_c, and_ctx.
  destruct s as [|c s]; [reflexivity|].
  destruct (isspace_c c) eqn:Ec; [|reflexivity]. cbn [negb orb].
  destruct (dropwhile isspace_c (c :: s)) as [|a [|n [|d [|w r]]]];
    try reflexivity.
  - now destruct (is_and a n d).
  - destruct (is_and a n d); [|reflexivity]. cbn [andb skipn].
    destruct (isspace_c w) eqn:Ew; reflexivity.
Qed.

Lemma and_free_run s : forall c,
  isspace_c c = true -> and_free (c :: s) = true ->
  and_window (dropwhile isspace_c (c :: s)) = false.
Proof.
  induction s as [|c' s IH]; intros c Hc H.
  - simpl. now rewrite Hc.
  - cbn [dropwhile]. rewrite Hc. destruct (isspace_c c') eqn:Ec'.
    + apply and_free_tail in H. specialize (IH c' Ec' H).
      cbn [dropwhile] in IH. now rewrite Ec' in IH.
    + cbn [and_free] in H. rewrite Hc in H. apply andb_true_iff in H.
      destruct H as [H _]. now apply negb_true_iff in H.
Qed.

Lemma is_and_space_1 n d : is_and " " n d = false.
Proof. reflexivity. Qed.

Lemma is_and_space_2 a d : is_and a " " d = false.
Proof. unfold is_and. now rewrite andb_false_r. Qed.

Lemma is_and_space_3 a n : is_and a n " " = false.
Proof. unfold is_and. now rewrite andb_false_r. Qed.

Lemma and_ctx_window y S :
  and_window y = false ->
  and_ctx (y ++ " "%char :: S) = false /\ and_ctx y = false.
Proof.
  unfold and_window, and_ctx.
  destruct y as [|a [|n [|d [|c r]]]]; cbn [app]; intros H.
  - split; [|reflexivity]. destruct S as [|? [|? [|? ?]]]; reflexivity.
  - split; [|reflexivity]. destruct S as [|? [|? ?]]; try reflexivity.
    now rewrite is_and_space_2.
  - split; [|reflexivity]. destruct S as [|? ?]; [reflexivity|].
    now rewrite is_and_space_3.
  - split; [|reflexivity]. rewrite andb_true_r in H. now rewrite H.
  - split; exact H.
Qed.

Lemma and_match_inside c p S :
  and_free (c :: p) = true ->
  forallb isspace_c (c :: p) = false ->
  and_match ((c :: p) ++ " "%char :: S) = None.
Proof.
  intros Hf Hns. rewrite and_match_ctx.
  destruct (isspace_c c) eqn:Ec; [|cbn; unfold nonspace_c; now rewrite Ec].
  assert (Hd : dropwhile isspace_c (c :: p) <> []).
  { intros E. apply dropwhile_nil in E. congruence. }
  rewrite dropwhile_app_nonnil by assumption.
  destruct (and_ctx_window _ S (and_free_run p c Ec Hf)) as [-> _].
  now rewrite orb_true_r.
Qed.

Lemma and_match_alone c p :
  and_free (c :: p) = true -> and_match (c :: p) = None.
Proof.
  intros Hf. rewrite and_match_ctx.
  destruct (isspace_c c) eqn:Ec; [|cbn; unfold nonspace_c; now rewrite Ec].
  destruct (and_ctx_window _ [] (and_free_run p c Ec Hf)) as [_ ->].
  now rewrite orb_true_r.
Qed.

(** At the white space that ends a name, followed by [ and ]. *)
Lemma and_match_separator tw R :
  forallb isspace_c tw = true -> starts_nonspace R = true ->
  and_match (tw ++ lit " and " ++ R) = Some R.
Proof.
  intros Htw HR. rewrite and_match_ctx.
  assert (Hs : starts_nonspace (tw ++ lit " and " ++ R) = false).
  { destruct tw as [|c tw]; [reflexivity|]. simpl in *.
    apply andb_true_iff in Htw. destruct Htw as [Hc _].
    unfold nonspace_c. now rewrite Hc. }
  rewrite Hs. cbn [orb].
  assert (Hd : dropwhile isspace_c (tw ++ lit " and " ++ R) = lit "and " ++ R).
  { change (tw ++ lit " and " ++ R) with (tw ++ [" "%char] ++ lit "and " ++ R).
    rewrite app_assoc.
    apply (dropwhile_run isspace_c (tw ++ [" "%char]) (lit "and " ++ R)).
    - rewrite forallb_app, Htw. reflexivity.
    - reflexivity. }
  rewrite Hd. cbn [lit list_ascii_of_string app and_ctx skipn].
  change (is_and "a" "n" "d" && isspace_c " ") with true. cbn [negb].
  f_equal. cbn [dropwhile]. change (isspace_c " ") with true. cbn iota.
  destruct R as [|x R]; [reflexivity|]. simpl in HR. unfold nonspace_c in HR.
  apply negb_true_iff in HR. cbn [dropwhile]. now rewrite HR.
Qed.

Lemma forallb_rev {A} (f : A -> bool) l : forallb f (rev l) = forallb f l.
Proof.
  induction l as [|x l IH]; [reflexivity|]. simpl.
  rewrite forallb_app, IH. simpl. rewrite andb_true_r. apply andb_comm.
Qed.

Lemma rstrip_all_space p : forallb isspace_c p = true -> rstrip p = [].
Proof.
  intros H. unfold rstrip.
  assert (dropwhile isspace_c (rev p) = []) as ->; [|reflexivity].
  apply dropwhile_nil. now rewrite forallb_rev.
Qed.

Lemma rstrip_cons_keep c p :
  forallb isspace_c (c :: p) = false -> rstrip (c :: p) = c :: rstrip p.
Proof.
  intros H. unfold rstrip. cbn [rev].
  destruct (forallb isspace_c p) eqn:Ep.
  - simpl in H. rewrite Ep, andb_true_r in H.
    assert (Hd : dropwhile isspace_c (rev p) = []).
    { apply dropwhile_nil. now rewrite forallb_rev. }
    rewrite Hd.
    assert (dropwhile isspace_c (rev p ++ [c]) = [c]) as ->; [|reflexivity].
    destruct (dropwhile_run isspace_c (rev p) [c]) as [-> _];
      [now rewrite forallb_rev | assumption | reflexivity].
  - rewrite dropwhile_app_nonnil.
    + now rewrite rev_app_distr.
    + intros E. apply dropwhile_nil in E. rewrite forallb_rev in E. congruence.
Qed.

Lemma trailing_space_all p :
  forallb isspace_c p = true -> trailing_space p = p.
Proof.
  intros H. unfold trailing_space. now rewrite rstrip_all_space.
Qed.

Lemma trailing_space_cons c p :
  forallb isspace_c (c :: p) = false ->
  trailing_space (c :: p) = trailing_space p.
Proof.
  intros H. unfold trailing_space. now rewrite rstrip_cons_keep.
Qed.

Lemma and_search_join p R : forall before,
  and_free p = true -> starts_nonspace R = true ->
  search_from AND_RE before (p ++ lit " and " ++ R)
  = Some (MkMatch (rev before ++ rstrip p)
                  (trailing_space p ++ lit " and ") [] R).
Proof.
  induction p as [|c p IH]; intros before Hf HR.
  - erewrite search_from_hit.
    2:{ rewrite match_here_AND.
        now rewrite (and_match_separator [] R eq_refl HR). }
    f_equal. f_equal.
    + now rewrite app_nil_r.
    + apply firstn_suffix. reflexivity.
  - destruct (forallb isspace_c (c :: p)) eqn:Ea.
    + erewrite search_from_hit.
      2:{ rewrite match_here_AND.
          now rewrite (and_match_separator (c :: p) R Ea HR). }
      rewrite rstrip_all_space, trailing_space_all by assumption.
      f_equal. f_equal.
      * now rewrite app_nil_r.
      * apply firstn_suffix. now rewrite <- app_assoc.
    + cbn [app]. rewrite search_from_skip.
      2:{ rewrite match_here_AND.
          change (c :: p ++ lit " and " ++ R)
            with ((c :: p) ++ " "%char :: lit "and " ++ R).
          now rewrite and_match_inside. }
      rewrite IH by (try assumption; eapply and_free_tail; eassumption).
      rewrite rstrip_cons_keep, trailing_space_cons by assumption.
      simpl. now rewrite <- app_assoc.
Qed.

Lemma and_search_last p : forall before,
  and_free p = true -> search_from AND_RE before p = None.
Proof.
  induction p as [|c p IH]; intros before Hf.
  - apply search_from_nil. now rewrite match_here_AND.
  - rewrite search_from_skip.
    + apply IH. eapply and_free_tail; eassumption.
    + rewrite match_here_AND. now rewrite and_match_alone.
Qed.

Lemma join_cons2 sep p q ps :
  join sep (p :: q :: ps) = p ++ sep ++ join sep (q :: ps).
Proof. reflexivity. Qed.

Lemma starts_nonspace_app a b :
  a <> [] -> starts_nonspace a = true -> starts_nonspace (a ++ b) = true.
Proof. destruct a; [congruence | auto]. Qed.

Lemma join_starts sep p ps :
  p <> [] -> starts_nonspace p = true ->
  starts_nonspace (join sep (p :: ps)) = true.
Proof.
  intros Hp Hs. destruct ps as [|q ps]; [exact Hs|].
  rewrite join_cons2. now apply starts_nonspace_app.
Qed.

Lemma dropwhile_idem f s : dropwhile f (dropwhile f s) = dropwhile f s.
Proof.
  induction s as [|c s IH]; [reflexivity|]. simpl.
  destruct (f c) eqn:E; [assumption|]. simpl. now rewrite E.
Qed.

Lemma rstrip_idem p : rstrip (rstrip p) = rstrip p.
Proof. unfold rstrip. now rewrite rev_involutive, dropwhile_idem. Qed.

Lemma lstrip_rstrip p : lstrip (rstrip p) = rstrip (lstrip p).
Proof.
  induction p as [|c p IH]; [reflexivity|].
  destruct (forallb isspace_c (c :: p)) eqn:Ea.
  - rewrite rstrip_all_space by assumption.
    assert (lstrip (c :: p) = []) as -> by now apply dropwhile_nil.
    reflexivity.
  - rewrite rstrip_cons_keep by assumption. unfold lstrip in *.
    cbn [dropwhile]. destruct (isspace_c c) eqn:Ec.
    + exact IH.
    + now rewrite rstrip_cons_keep.
Qed.

Lemma strip_rstrip p : strip (rstrip p) = strip p.
Proof. unfold strip. now rewrite lstrip_rstrip, rstrip_idem. Qed.

Lemma strip_idem p : strip (strip p) = strip p.
Proof.
  unfold strip. rewrite lstrip_rstrip, rstrip_idem.
  unfold lstrip. now rewrite dropwhile_idem.
Qed.

(** Splitting the joined names gives the names back, up to the white
    space at their end. *)
Lemma and_resplit ps : forall fuel before,
  ps <> [] -> Forall joinable ps ->
  length (join (lit " and ") ps) < fuel ->
  Forall2 (fun q p => strip q = strip p)
          (split_from fuel AND_RE 0 before [] (join (lit " and ") ps)) ps.
Proof.
  induction ps as [|p ps IH]; intros fuel before Hne Hj Hf; [congruence|].
  inversion Hj as [|? ? (Hp1 & Hp2 & Hp3) Hj']; subst.
  destruct fuel; [lia|]. destruct ps as [|q ps].
  - cbn [join split_from]. rewrite and_search_last by assumption.
    constructor; [reflexivity | constructor].
  - rewrite join_cons2. cbn [split_from].
    inversion Hj' as [|? ? (Hq1 & Hq2 & Hq3) _]; subst.
    rewrite and_search_join by (try assumption; now apply join_starts).
    cbn [m_text m_after m_before m_groups].
    rewrite skipn_rev_app.
    destruct (trailing_space p ++ lit " and ") as [|x t] eqn:Et.
    { destruct (trailing_space p); discriminate. }
    cbn [groups_upto seq map app]. constructor.
    + apply strip_rstrip.
    + apply IH; [discriminate | assumption |].
      rewrite join_cons2 in Hf. rewrite !length_app in Hf.
      simpl in Hf. simpl. lia.
Qed.

(** ** A surname with initials has no full given name *)

Lemma cut_at_only (c : ascii) : forall a a' b b',
  a ++ c :: b = a' ++ c :: b' -> ~ In c a -> ~ In c b -> a = a' /\ b = b'.
Proof.
  induction a as [|x a IH]; intros a' b b' E Ha Hb.
  - destruct a' as [|y a']; simpl in E.
    + injection E as <-. auto.
    + injection E as <- ->. exfalso. apply Hb. apply in_or_app. right. now left.
  - destruct a' as [|y a']; simpl in E.
    + injection E as -> _. exfalso. apply Ha. now left.
    + injection E as <- E. destruct (IH a' b b' E) as [-> ->]; auto.
      intros H. apply Ha. now right.
Qed.

Lemma dotted_suffix u v : dotted (u ++ v) = true -> dotted v = true.
Proof.
  induction u as [|c u IH]; [auto|]. intros H. apply IH.
  simpl app in H. now apply dotted_tail in H.
Qed.

Lemma letter_not_space c : letter_c c = true -> isspace_c c = false.
Proof.
  destruct c as [[] [] [] [] [] [] [] []]; vm_compute; intros; congruence.
Qed.

Lemma letter_not_stop c : letter_c c = true -> chr_eqb c "." = false.
Proof.
  destruct c as [[] [] [] [] [] [] [] []]; vm_compute; intros; congruence.
Qed.

Lemma dotted_no_letter_pair w l1 l2 r ini :
  forallb isspace_c w = true -> letter_c l1 = true -> letter_c l2 = true ->
  dotted ini = true -> w ++ l1 :: l2 :: r <> " "%char :: ini.
Proof.
  intros Hw H1 H2 Hd E.
  assert (Hs : dropwhile isspace_c (" "%char :: ini) = l1 :: l2 :: r).
  { rewrite <- E.
    apply (dropwhile_run isspace_c w (l1 :: l2 :: r) Hw).
    now apply letter_not_space. }
  change (dropwhile isspace_c (" "%char :: ini))
    with (dropwhile isspace_c ini) in Hs.
  destruct (lstrip_suffix ini) as [u Hu]. unfold lstrip in Hu. rewrite Hs in Hu.
  rewrite Hu in Hd. apply dotted_suffix in Hd. simpl in Hd.
  rewrite H1, (letter_not_stop _ H2) in Hd. discriminate.
Qed.

Lemma In_strip c s : In c (strip s) -> In c s.
Proof.
  destruct (strip_middle s) as (u & t & E). intros H. rewrite E.
  apply in_or_app. right. apply in_or_app. now left.
Qed.

Lemma full_given_none sur ini :
  ~ In ","%char sur -> ~ In ","%char ini -> dotted ini = true ->
  search FULL_GIVEN_RE (strip (sur ++ lit ", " ++ ini)) = None.
Proof.
  intros Hs Hi Hd.
  destruct (search _ _) as [m|] eqn:E; [exfalso|reflexivity].
  apply search_from_sound in E. destruct E as (sk & p' & _ & E & HM).
  unfold FULL_GIVEN_RE, AtLeast2, Lit, ws in HM. invM.
  match goal with
  | H : chr_eqb _ ?c = true |- _ => apply chr_eqb_eq in H; subst c
  end.
  destruct (strip_middle (sur ++ lit ", " ++ ini)) as (u & t & Em).
  match goal with
  | H : ?lhs = m_text m ++ m_after m |- _ => rewrite <- H in E
  end.
  rewrite E in Em. clear E.
  change (sur ++ lit ", " ++ ini) with (sur ++ ","%char :: " "%char :: ini) in Em.
  rewrite <- !app_assoc in Em. rewrite app_assoc in Em. simpl in Em.
  apply cut_at_only in Em; auto.
  - destruct Em as [_ Em]. symmetry in Em. rewrite <- !app_assoc in Em.
    simpl in Em.
    eapply dotted_no_letter_pair in Em; eauto.
  - intros [Hc|Hc]; [discriminate|auto].
Qed.

(** ** What [_givens_to_initials] writes *)

Lemma dotted_app a b :
  dotted a = true -> dotted b = true -> dotted (a ++ b) = true.
Proof.
  induction a as [|c a IH]; [auto|]. intros Ha Hb.
  pose proof (dotted_tail _ _ Ha) as Ht. simpl in Ha |- *.
  rewrite (IH Ht Hb), andb_true_r. destruct (letter_c c); [|reflexivity].
  destruct a as [|d a]; [discriminate|]. simpl.
  now apply andb_true_iff in Ha.
Qed.

Lemma stops_weaken s : forall p,
  stops_after_letters false s = true -> stops_after_letters p s = true.
Proof.
  destruct s as [|c s]; [auto|]. intros p. simpl.
  destruct (chr_eqb c "."); [discriminate|auto].
Qed.

Lemma stops_app a b : forall p,
  stops_after_letters p a = true -> stops_after_letters false b = true ->
  stops_after_letters p (a ++ b) = true.
Proof.
  induction a as [|c a IH]; intros p Ha Hb.
  - now apply stops_weaken.
  - simpl in Ha |- *. apply andb_true_iff in Ha. destruct Ha as [H1 H2].
    rewrite H1. simpl. now apply IH.
Qed.

Lemma replace_stops_id s : forall p,
  stops_after_letters p s = true -> replace (lit "..") (lit ".") s = s.
Proof.
  unfold replace. induction s as [|c s IH]; intros p H; [reflexivity|].
  cbn [replace_go]. simpl in H. apply andb_true_iff in H.
  destruct H as [H1 H2].
  assert (Hn : startswith (lit "..") (c :: s) = false).
  { change (startswith (lit "..") (c :: s))
      with (chr_eqb "." c && startswith (lit ".") s).
    destruct (chr_eqb "." c) eqn:Ec; [|reflexivity].
    apply chr_eqb_eq in Ec. subst c. destruct s as [|d s]; [reflexivity|].
    change (startswith (lit ".") (d :: s)) with (chr_eqb "." d && true).
    simpl in H2. destruct (chr_eqb "." d) eqn:Ed; [|reflexivity].
    apply chr_eqb_eq in Ed. subst d. discriminate. }
  rewrite Hn. f_equal. eapply IH; eassumption.
Qed.

Lemma initials_token_concat L :
  Forall initials_token L -> initials_token (concat L).
Proof.
  induction 1 as [|t L (A & B & C) _ (A' & B' & C')]; simpl.
  - repeat split; auto.
  - repeat split.
    + now apply dotted_app.
    + intros H. apply in_app_or in H. tauto.
    + now apply stops_app.
Qed.

Lemma space_token t : forallb isspace_c t = true -> initials_token t.
Proof.
  induction t as [|c t IH]; intros H; [repeat split; auto|].
  simpl in H. apply andb_true_iff in H. destruct H as [Hc Ht].
  destruct (IH Ht) as (A & B & C). repeat split.
  - simpl. rewrite A, andb_true_r.
    destruct (letter_c c) eqn:El; [|reflexivity].
    apply letter_not_space in El. congruence.
  - intros [E|H]; [subst c; discriminate|auto].
  - simpl. destruct (chr_eqb c ".") eqn:E.
    + apply chr_eqb_eq in E. subst c. discriminate.
    + simpl. now apply stops_weaken.
Qed.

Lemma upper_letter c :
  letter_c c = true ->
  letter_c (upper_c c) = true /\ upper_c c <> ","%char /\ upper_c c <> "."%char.
Proof.
  destruct c as [[] [] [] [] [] [] [] []]; vm_compute; intros;
    repeat split; congruence.
Qed.

Lemma initial_token c : letter_c c = true -> initials_token (upper [c] ++ lit ".").
Proof.
  intros H. destruct (upper_letter c H) as (A & B & C).
  change (upper [c] ++ lit ".") with [upper_c c; "."%char].
  repeat split.
  - simpl. now rewrite A.
  - intros [E|[E|[]]]; [congruence|discriminate].
  - simpl. rewrite A. destruct (chr_eqb (upper_c c) ".") eqn:E; [|reflexivity].
    apply chr_eqb_eq in E. congruence.
Qed.

Lemma sep_match_consumes s s' env :
  sep_match s = Some (s', env) -> length s' < length s.
Proof.
  destruct s as [|c s]; [discriminate|]. unfold sep_match.
  destruct (isspace_c c) eqn:E.
  - intros [= <- _]. simpl. rewrite E.
    pose proof (dropwhile_length isspace_c s). simpl. lia.
  - destruct (chr_eqb "-" c); [|discriminate]. intros [= <- _]. simpl. lia.
Qed.

Lemma sep_split_pieces s :
  Forall (fun t => sep_free t \/ is_sep t) (split SEP_GROUP_RE 1 s).
Proof.
  unfold split. apply split_from_pieces; [| | |lia].
  - intros p x x' env. rewrite match_here_SEP. apply sep_match_consumes.
  - intros p x x' env. rewrite match_here_SEP.
    destruct x as [|c x]; [discriminate|]. unfold sep_match.
    destruct (isspace_c c) eqn:E.
    + intros [= <- <-]. cbn. constructor; [|constructor]. left.
      rewrite E. simpl. rewrite E. simpl. apply takewhile_forallb.
    + destruct (chr_eqb "-" c); [|discriminate]. intros [= <- <-]. cbn.
      constructor; [|constructor]. now right.
  - intros x rest. induction x as [|c x IH]; intros H; [reflexivity|].
    unfold sep_free. simpl. apply andb_true_iff. split.
    + destruct (H [] (c :: x) eq_refl ltac:(discriminate)) as [p Hp].
      rewrite match_here_SEP in Hp. cbn [app] in Hp.
      unfold sep_match in Hp. unfold sep_c.
      destruct (isspace_c c); [discriminate|].
      destruct (chr_eqb "-" c); [discriminate|reflexivity].
    + apply IH. intros u v -> Hv. apply (H (c :: u) v eq_refl Hv).
Qed.

Lemma givens_to_initials_loop_tokens parts : forall out,
  Forall (fun t => sep_free t \/ is_sep t) parts ->
  Forall initials_token out ->
  Forall initials_token (givens_to_initials_loop parts out).
Proof.
  induction parts as [|p parts IH]; intros out Hp Ho; [exact Ho|].
  inversion Hp as [|? ? Hp1 Hp2]; subst. cbn [givens_to_initials_loop].
  rewrite match_here_SEP_RE.
  destruct p as [|c p].
  - simpl. apply IH; [assumption|]. apply Forall_app. split; [assumption|].
    constructor; [|constructor]. repeat split; auto.
  - cbn [orb]. destruct (isspace_c c || chr_eqb "-" c) eqn:Ec.
    + apply IH; [assumption|]. apply Forall_app. split; [assumption|].
      constructor; [|constructor]. destruct Hp1 as [Hf|[Hs|Hs]].
      * unfold sep_free in Hf. cbn [forallb] in Hf. unfold sep_c in Hf.
        rewrite Ec in Hf. discriminate.
      * now apply space_token.
      * injection Hs as -> ->. repeat split; auto.
        intros [E|[]]. discriminate.
    + destruct (search LETTER_RE (c :: p)) as [m|] eqn:Em.
      * apply search_LETTER in Em. destruct Em as (l & -> & Hl).
        apply IH; [assumption|]. apply Forall_app. split; [assumption|].
        constructor; [|constructor]. now apply initial_token.
      * now apply IH.
Qed.

Lemma givens_to_initials_token g : initials_token (_givens_to_initials g).
Proof.
  unfold _givens_to_initials.
  assert (H : initials_token
    (concat (givens_to_initials_loop (split SEP_GROUP_RE 1 (strip g)) []))).
  { apply initials_token_concat. apply givens_to_initials_loop_tokens.
    - apply sep_split_pieces.
    - constructor. }
  destruct H as (A & B & C).
  rewrite (replace_stops_id _ false C). repeat split; assumption.
Qed.

End InitialsFacts.

(* ================================================================== *)
(** * The record parser *)
(* ================================================================== *)

Module ParseFacts.
Import Py Re PyData BibAuditBatch Notions ReSem PyFacts ReFacts.

Lemma entry_head_match p s p' s' env :
  M ENTRY_HEAD_RE p s [] p' s' env ->
  exists ty w1 w2 raw w3,
    s = "@"%char :: ty ++ w1 ++ "{"%char :: w2 ++ raw ++ w3 ++ ","%char :: s'
    /\ env = [(2, raw); (1, ty)]
    /\ ty <> [] /\ forallb isword_c ty = true
    /\ raw <> [] /\ forallb not_comma raw = true
    /\ forallb isspace_c w1 = true /\ forallb isspace_c w2 = true
    /\ forallb isspace_c w3 = true.
Proof.
  unfold ENTRY_HEAD_RE, Plus, Lit, ws. intros H. invM.
  repeat match goal with
  | H : chr_eqb _ _ = true |- _ => apply chr_eqb_eq in H; subst
  end.
  match goal with
  | |- context [(2, firstn _ (?c0 :: ?x0 ++ ?x1 ++ _))] =>
      match goal with
      | |- context [(1, firstn _ (?c :: ?x ++ ?x3 ++ _ :: ?x2 ++ _))] =>
          exists (c :: x), x3, x2, (c0 :: x0), x1
      end
  end.
  repeat split; try discriminate; try assumption.
  - repeat f_equal; apply firstn_suffix; reflexivity.
  - simpl. apply andb_true_iff. now split.
  - simpl. apply andb_true_iff. now split.
Qed.

Lemma forallb_not_comma s : forallb not_comma s = true -> ~ In ","%char s.
Proof.
  rewrite forallb_forall. intros H Hin. apply H in Hin.
  unfold not_comma in Hin. now rewrite chr_eqb_refl in Hin.
Qed.

Lemma parse_entry_Ok text etype key F :
  parse_entry text = Ok (etype, key, F) ->
  exists m ty raw,
    search ENTRY_HEAD_RE text = Some m
    /\ m_groups m = [(2, raw); (1, ty)]
    /\ etype = lower ty /\ key = strip raw
    /\ ty <> [] /\ forallb isword_c ty = true
    /\ raw <> [] /\ forallb not_comma raw = true.
Proof.
  unfold parse_entry. destruct (search ENTRY_HEAD_RE text) as [m|] eqn:E;
    [|discriminate].
  intros [= <- <- <-]. pose proof E as E'. apply search_from_sound in E.
  destruct E as (sk & p' & _ & _ & HM). apply entry_head_match in HM.
  destruct HM as (ty & w1 & w2 & raw & w3 & _ & Henv & H).
  exists m, ty, raw. unfold group_text. rewrite Henv. simpl. tauto.
Qed.

Lemma parse_entry_no_comma text :
  ~ In ","%char text -> parse_entry text = Raise (ValueError parse_error_msg).
Proof.
  intros Hn. unfold parse_entry.
  destruct (search ENTRY_HEAD_RE text) as [m|] eqn:E; [|reflexivity].
  exfalso. apply search_from_sound in E.
  destruct E as (sk & p' & _ & Ht & HM). apply entry_head_match in HM.
  destruct HM as (ty & w1 & w2 & raw & w3 & Hs & _).
  apply Hn. rewrite Ht, Hs. apply in_or_app. right.
  right. apply in_or_app. right. apply in_or_app. right.
  right. apply in_or_app. right. apply in_or_app. right.
  apply in_or_app. right. now left.
Qed.

(** C9 (as amended).  When [parse_entry] succeeds, the text holds a header
    [@type{key,], with white space allowed before the brace, after it and
    before the comma, which is the match of the header pattern.  The type
    returned is the lower case of the [type] of that header, a non-empty
    string of word characters; the key returned is the [strip] of its
    [key], a non-empty span without a comma, and is empty exactly when
    that span is all white space. *)
Theorem parse_entry_type_and_raw_key_nonempty text etype key F :
  parse_entry text = Ok (etype, key, F) ->
  exists before ty w1 w2 raw w3 after m,
    text = before ++ "@"%char :: ty ++ w1 ++ "{"%char :: w2 ++ raw ++ w3
                  ++ ","%char :: after
    /\ search ENTRY_HEAD_RE text = Some m
    /\ m_before m = before /\ m_after m = after
    /\ m_groups m = [(2, raw); (1, ty)]
    /\ forallb isspace_c w1 = true /\ forallb isspace_c w2 = true
    /\ forallb isspace_c w3 = true
    /\ ty <> [] /\ forallb isword_c ty = true
    /\ etype = lower ty /\ etype <> [] /\ forallb isword_c etype = true
    /\ raw <> [] /\ ~ In ","%char raw
    /\ key = strip raw
    /\ (key = [] <-> forallb isspace_c raw = true).
Proof.
  unfold parse_entry. destruct (search ENTRY_HEAD_RE text) as [m|] eqn:E;
    [|discriminate].
  intros [= <- <- <-]. pose proof E as E'. apply search_from_sound in E'.
  destruct E' as (sk & p' & Hb & Ht & HM). apply entry_head_match in HM.
  destruct HM as (ty & w1 & w2 & raw & w3 & Hs & Henv & H1 & H2 & H3 & H4
                  & H5 & H6 & H7).
  exists sk, ty, w1, w2, raw, w3, (m_after m), m.
  unfold group_text. rewrite Henv. cbn [group Nat.eqb].
  repeat split; try assumption; try reflexivity.
  - now rewrite Ht, Hs.
  - destruct ty; [congruence|discriminate].
  - now rewrite forallb_isword_lower.
  - now apply forallb_not_comma.
  - apply strip_nil.
  - apply strip_nil.
Qed.

Lemma parse_entry_type_and_raw_key_nonempty_witness :
  exists before ty w1 w2 raw w3 after m,
    lit "% x @Article { doe2020 , year = {2020}}"
    = before ++ "@"%char :: ty ++ w1 ++ "{"%char :: w2 ++ raw ++ w3
             ++ ","%char :: after
    /\ search ENTRY_HEAD_RE (lit "% x @Article { doe2020 , year = {2020}}")
       = Some m
    /\ m_before m = before /\ m_after m = after
    /\ m_groups m = [(2, raw); (1, ty)]
    /\ forallb isspace_c w1 = true /\ forallb isspace_c w2 = true
    /\ forallb isspace_c w3 = true
    /\ ty <> [] /\ forallb isword_c ty = true
    /\ lit "article" = lower ty /\ lit "article" <> []
    /\ forallb isword_c (lit "article") = true
    /\ raw <> [] /\ ~ In ","%char raw
    /\ lit "doe2020" = strip raw
    /\ (lit "doe2020" = [] <-> forallb isspace_c raw = true).
Proof.
  apply (parse_entry_type_and_raw_key_nonempty
           (lit "% x @Article { doe2020 , year = {2020}}")
           (lit "article") (lit "doe2020") [(lit "year", lit "2020")]).
  reflexivity.
Defined.

(** C9, counterexample: the header pattern accepts a key made of one
    blank, and [strip] leaves the empty key. *)
Lemma parse_entry_blank_key :
  parse_entry (lit "@a{ ,") = Ok (lit "a", [], []).
Proof. reflexivity. Qed.

End ParseFacts.

(* ================================================================== *)
(** * Dictionaries *)
(* ================================================================== *)

Module DictFacts.
Import Py PyData BibAuditBatch PyFacts.

Lemma dict_find_in k v F :
  NoDup (map fst F) -> In (k, v) F -> dict_find k F = Some v.
Proof.
  induction F as [|[k' v'] F IH]; simpl; intros Hnd Hin; [tauto|].
  inversion Hnd as [|? ? Hni Hnd']; subst.
  destruct Hin as [[= -> ->]|Hin].
  - now rewrite str_eqb_refl.
  - destruct (str_eqb k k') eqn:E.
    + apply str_eqb_eq in E. subst k'. exfalso. apply Hni.
      change k with (fst (k, v)). now apply in_map.
    + now apply IH.
Qed.

Lemma str_in_In x l : str_in x l = true <-> In x l.
Proof.
  unfold str_in. rewrite existsb_exists. split.
  - intros [y [Hy E]]. apply str_eqb_eq in E. now subst.
  - intros H. exists x. split; [assumption | apply str_eqb_refl].
Qed.

Lemma str_in_app x l1 l2 : str_in x (l1 ++ l2) = str_in x l1 || str_in x l2.
Proof. apply existsb_app. Qed.


Lemma dict_in_find k F : dict_in k F = is_some (dict_find k F).
Proof.
  induction F as [|[k' v'] F IH]; simpl; [reflexivity|].
  destruct (str_eqb k k'); simpl; [reflexivity | assumption].
Qed.

Lemma dict_getitem_find k F v :
  dict_find k F = Some v -> dict_getitem k F = Ok v.
Proof. unfold dict_getitem. now intros ->. Qed.

Lemma dict_in_getitem k F :
  dict_in k F = true -> exists v, dict_find k F = Some v /\ dict_getitem k F = Ok v.
Proof.
  rewrite dict_in_find. unfold dict_getitem.
  destruct (dict_find k F) as [v|]; [|discriminate]. intros _. now exists v.
Qed.

Lemma dict_find_set_same k v F : dict_find k (dict_set k v F) = Some v.
Proof.
  induction F as [|[k' v'] F IH]; simpl.
  - now rewrite str_eqb_refl.
  - destruct (str_eqb k k') eqn:E; simpl; rewrite E; [reflexivity | assumption].
Qed.

Lemma dict_find_set_other k k' v F :
  k <> k' -> dict_find k (dict_set k' v F) = dict_find k F.
Proof.
  intros Hk. induction F as [|[k0 v0] F IH]; simpl.
  - apply str_eqb_neq in Hk. now rewrite Hk.
  - destruct (str_eqb k' k0) eqn:E; simpl.
    + apply str_eqb_eq in E. subst k0. apply str_eqb_neq in Hk. now rewrite Hk.
    + now rewrite IH.
Qed.

Lemma dict_find_pop_other k k' F :
  k <> k' -> dict_find k (dict_pop k' F) = dict_find k F.
Proof.
  intros Hk. induction F as [|[k0 v0] F IH]; simpl; [reflexivity|].
  destruct (str_eqb k' k0) eqn:E; simpl.
  - apply str_eqb_eq in E. subst k0. apply str_eqb_neq in Hk. now rewrite Hk.
  - now rewrite IH.
Qed.

Lemma dict_find_None_notin k F :
  dict_find k F = None <-> ~ In k (map fst F).
Proof.
  induction F as [|[k' v'] F IH]; simpl; [tauto|].
  destruct (str_eqb k k') eqn:E.
  - apply str_eqb_eq in E. subst. split; [discriminate | tauto].
  - apply str_eqb_neq in E. rewrite IH. split; [intros H [?|?]; congruence | tauto].
Qed.

Lemma dict_set_keys k v F :
  map fst (dict_set k v F)
  = if dict_in k F then map fst F else map fst F ++ [k].
Proof.
  induction F as [|[k' v'] F IH]; simpl; [reflexivity|].
  destruct (str_eqb k k') eqn:E; simpl; [reflexivity|].
  rewrite IH. now destruct (dict_in k F).
Qed.

Lemma dict_set_NoDup k v F :
  NoDup (map fst F) -> NoDup (map fst (dict_set k v F)).
Proof.
  intros H. rewrite dict_set_keys. destruct (dict_in k F) eqn:E; [assumption|].
  rewrite dict_in_find in E. apply NoDup_app; [assumption | repeat constructor; tauto |].
  intros x Hx [Ex|[]]. subst x. destruct (dict_find k F) eqn:Ef; [discriminate|].
  now apply dict_find_None_notin in Ef.
Qed.

Lemma dict_pop_filter k F :
  NoDup (map fst F) ->
  dict_pop k F = filter (fun kv => negb (str_eqb k (fst kv))) F.
Proof.
  induction F as [|[k' v'] F IH]; simpl; intros H; [reflexivity|].
  inversion H as [|? ? Hni Hnd]; subst.
  destruct (str_eqb k k') eqn:E; simpl.
  - apply str_eqb_eq in E. subst k'. symmetry.
    rewrite (proj2 (filter_ext_in_iff _ (fun _ => true) F)).
    + clear. induction F; simpl; congruence.
    + intros [k1 v1] Hin. simpl. apply negb_true_iff, str_eqb_neq.
      intros ->. apply Hni. change k1 with (fst (k1, v1)). now apply in_map.
  - now rewrite IH.
Qed.

Lemma filter_keys_NoDup (f : str * str -> bool) F :
  NoDup (map fst F) -> NoDup (map fst (filter f F)).
Proof.
  induction F as [|[k v] F IH]; simpl; intros H; [constructor|].
  inversion H as [|? ? Hni Hnd]; subst.
  destruct (f (k, v)); simpl; [|now apply IH].
  constructor; [|now apply IH]. intros Hin. apply Hni.
  apply in_map_iff in Hin. destruct Hin as [[k1 v1] [Hk Hin]].
  apply filter_In in Hin. destruct Hin as [Hin _].
  apply in_map_iff. now exists (k1, v1).
Qed.
End DictFacts.

(* ================================================================== *)
(** * The serializer *)
(* ================================================================== *)

Module SerializerFacts.
Import Py Re PyData BibAuditBatch Notions PyFacts DictFacts.

Lemma rebuild_hinted_spec hint F : forall lines used,
  rebuild_hinted hint F lines used
  = (lines ++ map item_line (hinted_items hint F),
     used ++ map fst (hinted_items hint F)).
Proof.
  induction hint as [|k hint IH]; intros lines used; simpl.
  - now rewrite !app_nil_r.
  - destruct (dict_find k F) as [v|]; [|apply IH].
    unfold nonblank. destruct (strip v); [apply IH|].
    rewrite IH. simpl. now rewrite <- !app_assoc.
Qed.

Lemma rebuild_rest_spec used items : forall lines,
  rebuild_rest items lines used
  = lines ++ map item_line
               (filter (fun kv => negb (str_in (fst kv) used)) items).
Proof.
  induction items as [|[k v] items IH]; intros lines; simpl.
  - now rewrite app_nil_r.
  - destruct (str_in k used); simpl; rewrite IH; [reflexivity|].
    now rewrite <- app_assoc.
Qed.

Lemma hinted_items_keys hint F k :
  str_in k (map fst (hinted_items hint F))
  = str_in k hint && match dict_find k F with
                     | Some v => nonblank v
                     | None => false
                     end.
Proof.
  induction hint as [|h hint IH]; simpl; [reflexivity|].
  rewrite map_app, str_in_app, IH.
  destruct (str_eqb k h) eqn:E.
  - apply str_eqb_eq in E. subst h.
    destruct (dict_find k F) as [v|]; simpl.
    + destruct (nonblank v); simpl; [now rewrite str_eqb_refl|].
      now rewrite andb_false_r.
    + now rewrite andb_false_r.
  - simpl. destruct (dict_find h F) as [v|]; simpl; [|reflexivity].
    destruct (nonblank v); simpl; [|reflexivity]. now rewrite E.
Qed.

(** The lines of [rebuild_entry], whatever the mapping. *)
Lemma rebuild_lines_spec etype key F :
  NoDup (map fst F) ->
  rebuild_lines etype key F
  = strip_last_comma
      (header_line etype key
         :: map item_line (preferred_items F ++ remaining_items F))
    ++ [lit "}"].
Proof.
  intros Hnd. unfold rebuild_lines, preferred_items, remaining_items.
  rewrite rebuild_hinted_spec. cbv beta iota. rewrite rebuild_rest_spec.
  rewrite map_app, <- app_assoc. unfold header_line.
  change ([?h] ++ ?l) with (h :: l).
  do 5 f_equal.
  apply filter_ext_in. intros [k v] Hin. cbn [fst snd]. f_equal.
  rewrite app_nil_l, hinted_items_keys.
  now rewrite (dict_find_in k v F Hnd Hin).
Qed.

(** C6.  [rebuild_entry] writes blank fields.  The first loop passes
    over a blank field of the preferred list, and the second loop, which
    does not look at the values, then writes it, after the fields the
    first loop wrote; a blank field outside the list is written by the
    second loop as well.  The blank title of a parsed record comes out
    after the year. *)
Theorem rebuild_entry_writes_blank_fields :
  parse_entry (lit "@Book{k1, title = {}, year = {1999}}")
  = Ok (lit "book", lit "k1", [(lit "title", lit ""); (lit "year", lit "1999")])
  /\ rebuild_entry (lit "book") (lit "k1")
                   [(lit "title", lit ""); (lit "year", lit "1999")]
     = lit "@Book{k1," ++ [nl] ++ lit "  year        = {1999}," ++ [nl]
       ++ lit "  title       = {}" ++ [nl] ++ lit "}"
  /\ rebuild_entry (lit "misc") (lit "k") [(lit "keywords", lit "")]
     = lit "@Misc{k," ++ [nl] ++ lit "  keywords    = {}" ++ [nl] ++ lit "}".
Proof. repeat split; vm_compute; reflexivity. Qed.

End SerializerFacts.

(* ================================================================== *)
(** * The rule engine *)
(* ================================================================== *)

Module RuleFacts.
Import Py Re PyData BibAuditBatch Notions ReSem PyFacts ReFacts MatchFacts
       SentenceCaseFacts InitialsFacts DictFacts.

(** ** No rule raises *)

Lemma contains_char c s : contains [c] s = true <-> In c s.
Proof.
  induction s as [|x s IH]; simpl.
  - split; [discriminate | tauto].
  - rewrite orb_true_iff, IH, andb_true_r, chr_eqb_eq. split.
    + intros [->|H]; auto.
    + intros [->|H]; auto.
Qed.

Lemma index_of_in c s : In c s -> exists k, index_of c s = Some k.
Proof.
  intros H. destruct (index_of c s) eqn:E; [eauto|].
  now apply index_of_None in E.
Qed.

Lemma split_ws_aux_nonempty s cur :
  cur <> [] \/ (exists c, In c s /\ isspace_c c = false) ->
  split_ws_aux s cur <> [].
Proof.
  revert cur; induction s as [|x s IH]; intros cur H; simpl.
  - destruct H as [H|[c [[] _]]]. destruct cur; [congruence | discriminate].
  - destruct (isspace_c x) eqn:E.
    + destruct cur; [|discriminate]. apply IH. right.
      destruct H as [H|[c [[->|Hc] Hs]]]; [congruence | congruence | eauto].
    + apply IH. left. discriminate.
Qed.

Lemma list_last_nonempty l : l <> [] -> exists x, list_last l = Ok x.
Proof.
  intros H. unfold list_last. destruct (rev l) as [|x r] eqn:E; [|eauto].
  apply (f_equal (@rev _)) in E. rewrite rev_involutive in E. simpl in E.
  congruence.
Qed.

Lemma strip_head_nonspace s c t : strip s = c :: t -> isspace_c c = false.
Proof.
  unfold strip, lstrip. destruct (dropwhile isspace_c s) as [|x u] eqn:E.
  - discriminate.
  - apply dropwhile_hd in E. destruct (rstrip_cons x u E) as [w ->].
    now intros [= <- _].
Qed.

Lemma enforce_initials_loop_total authors : forall fixed,
  exists out, enforce_initials_loop authors fixed = Ok out.
Proof.
  induction authors as [|a authors IH]; intros fixed;
    cbn [enforce_initials_loop]; [eauto|].
  destruct (strip a) as [|c t] eqn:Ea; [apply IH|].
  destruct (is_corporate (c :: t)); [apply IH|].
  destruct (contains (lit ",") (c :: t)) eqn:Ec.
  - apply (contains_char ","%char) in Ec. apply index_of_in in Ec.
    destruct Ec as [k Ek]. unfold split_once. rewrite Ek.
    cbn [unpack2 bind]. apply IH.
  - destruct (list_last_nonempty (split_ws (c :: t))) as [x ->].
    + apply split_ws_aux_nonempty. right. exists c. split; [now left|].
      eapply strip_head_nonspace; eassumption.
    + cbn [bind]. apply IH.
Qed.

Lemma enforce_initials_total a : exists out, enforce_initials a = Ok out.
Proof.
  unfold enforce_initials.
  destruct (enforce_initials_loop_total (split AND_RE 0 a) []) as [out ->].
  simpl. eauto.
Qed.

(** ** The names [enforce_initials] writes *)

Lemma endswith_char x s : endswith [x] s = true -> exists u, s = u ++ [x].
Proof.
  unfold endswith. destruct (rev s) as [|y r] eqn:E; [discriminate|].
  simpl. rewrite andb_true_r. intros H. apply chr_eqb_eq in H. subst y.
  exists (rev r). apply (f_equal (@rev _)) in E.
  now rewrite rev_involutive in E.
Qed.

Lemma index_of_firstn_notin c s : forall k,
  index_of c s = Some k -> ~ In c (firstn k s).
Proof.
  induction s as [|x s IH]; intros k; simpl; [discriminate|].
  destruct (chr_eqb x c) eqn:E.
  - intros [= <-]. simpl. tauto.
  - destruct (index_of c s) as [j|]; [|discriminate]. intros [= <-].
    simpl. apply chr_eqb_neq in E. intros [H|H]; [congruence|].
    now apply (IH j).
Qed.

Lemma word_nomatch t : word t = true -> nomatch t = true.
Proof.
  induction t as [|c t IH]; [reflexivity|]. unfold word. simpl.
  intros H. apply andb_true_iff in H. destruct H as [Hc Ht].
  unfold nonspace_c in Hc. apply negb_true_iff in Hc. rewrite Hc. simpl.
  now apply IH.
Qed.

Lemma split_ws_aux_tokens s : forall cur,
  forallb nonspace_c cur = true ->
  Forall (fun t => word t = true /\ t <> []
                   /\ forall x, In x t -> In x cur \/ In x s)
         (split_ws_aux s cur).
Proof.
  assert (Hcur : forall cur s', cur <> [] -> forallb nonspace_c cur = true ->
            word (rev cur) = true /\ rev cur <> []
            /\ forall x : ascii, In x (rev cur) -> In x cur \/ In x s').
  { intros cur s' Hn Hw. repeat split.
    - unfold word. now rewrite forallb_rev.
    - intros E. apply (f_equal (@rev _)) in E. rewrite rev_involutive in E.
      now apply Hn.
    - intros x Hx. left. now apply in_rev. }
  induction s as [|c s IH]; intros cur Hw; cbn [split_ws_aux].
  - destruct cur as [|y cur]; constructor; [|constructor].
    apply (Hcur (y :: cur) []); [discriminate|assumption].
  - destruct (isspace_c c) eqn:Ec.
    + assert (Ht : Forall (fun t => word t = true /\ t <> []
                      /\ forall x, In x t -> In x cur \/ In x (c :: s))
                     (split_ws_aux s [])).
      { eapply Forall_impl; [|apply (IH [] eq_refl)].
        intros t (A & B & C). repeat split; auto.
        intros x Hx. destruct (C x Hx) as [[]|H]. right. now right. }
      destruct cur as [|y cur]; [exact Ht|]. constructor; [|exact Ht].
      apply (Hcur (y :: cur) (c :: s)); [discriminate|assumption].
    + eapply Forall_impl; [|apply (IH (c :: cur))].
      * intros t (A & B & C). repeat split; auto.
        intros x Hx. destruct (C x Hx) as [[H|H]|H]; auto.
        -- right. now left.
        -- right. now right.
      * simpl. unfold nonspace_c at 1. now rewrite Ec.
Qed.

Lemma list_last_In l x : list_last l = Ok x -> In x l.
Proof.
  unfold list_last. destruct (rev l) as [|y r] eqn:E; [discriminate|].
  intros [= <-]. apply in_rev. rewrite E. now left.
Qed.

Lemma settled_corporate a c t :
  strip a = c :: t -> nomatch a = true -> is_corporate (c :: t) = true ->
  settled (c :: t).
Proof.
  intros Ea Hn Hc. rewrite <- Ea in *. repeat split.
  - pose proof Hc as Hc'. unfold is_corporate in Hc'.
    apply andb_true_iff in Hc'. destruct Hc' as [_ He].
    apply endswith_char in He. destruct He as [u Hu]. rewrite Hu.
    apply and_free_closing. rewrite <- Hu. now apply nomatch_strip.
  - rewrite Ea. simpl. unfold nonspace_c.
    now rewrite (strip_head_nonspace _ _ _ Ea).
  - rewrite Ea. discriminate.
  - left. now rewrite strip_idem.
Qed.

Lemma settled_surname_initials sur g :
  nomatch sur = true -> ~ In ","%char sur -> starts_nonspace sur = true ->
  settled (sur ++ lit ", " ++ _givens_to_initials g).
Proof.
  intros Hn Hc Hs. destruct (givens_to_initials_token g) as (A & B & C).
  repeat split.
  - now apply and_free_surname_initials.
  - destruct sur as [|x sur]; [reflexivity|exact Hs].
  - destruct sur; discriminate.
  - right. now apply full_given_none.
Qed.

Lemma starts_nonspace_strip s : starts_nonspace (strip s) = true.
Proof.
  destruct (strip s) as [|c t] eqn:E; [reflexivity|]. simpl.
  unfold nonspace_c. now rewrite (strip_head_nonspace _ _ _ E).
Qed.

Lemma enforce_initials_loop_settled authors : forall fixed out,
  Forall (fun a => nomatch a = true) authors -> Forall settled fixed ->
  enforce_initials_loop authors fixed = Ok out -> Forall settled out.
Proof.
  induction authors as [|a authors IH]; intros fixed out Ha Hf;
    cbn [enforce_initials_loop]; [now intros [= <-]|].
  inversion Ha as [|? ? Hn Ha']; subst.
  destruct (strip a) as [|c t] eqn:Ea; [now apply IH|].
  assert (Hna : nomatch (c :: t) = true).
  { rewrite <- Ea. now apply nomatch_strip. }
  destruct (is_corporate (c :: t)) eqn:Ec.
  - apply IH; [assumption|]. apply Forall_app. split; [assumption|].
    constructor; [|constructor]. eapply settled_corporate; eassumption.
  - destruct (contains (lit ",") (c :: t)) eqn:Ek.
    + apply (contains_char ","%char) in Ek. apply index_of_in in Ek.
      destruct Ek as [k Ek]. unfold split_once. rewrite Ek.
      cbn [unpack2 bind]. apply IH; [assumption|].
      apply Forall_app. split; [assumption|]. constructor; [|constructor].
      apply settled_surname_initials.
      * apply nomatch_strip. apply (nomatch_prefix _ (skipn k (c :: t))).
        now rewrite firstn_skipn.
      * intros H. apply In_strip in H.
        now apply (index_of_firstn_notin _ _ _ Ek).
      * apply starts_nonspace_strip.
    + destruct (list_last (split_ws (c :: t))) as [sur|e] eqn:El;
        [|discriminate].
      cbn [bind]. apply IH; [assumption|].
      apply Forall_app. split; [assumption|]. constructor; [|constructor].
      apply list_last_In in El.
      pose proof (split_ws_aux_tokens (c :: t) [] eq_refl) as Ht.
      rewrite Forall_forall in Ht. destruct (Ht _ El) as (A & B & C).
      apply settled_surname_initials.
      * now apply word_nomatch.
      * intros H. destruct (C _ H) as [[]|H'].
        apply (contains_char ","%char) in H'.
        change (lit ",") with [","%char] in Ek. congruence.
      * destruct sur as [|x sur]; [congruence|]. unfold word in A.
        simpl in A. apply andb_true_iff in A. now destruct A.
Qed.

(** ** After [enforce_initials], nothing is left to shorten *)

Lemma uses_full_loop_false qs :
  Forall (fun q => strip q = [] \/ is_corporate (strip q) = true
                   \/ search FULL_GIVEN_RE (strip q) = None) qs ->
  author_uses_full_given_names_loop qs = false.
Proof.
  induction 1 as [|q qs H _ IH]; [reflexivity|].
  cbn [author_uses_full_given_names_loop].
  destruct (strip q) as [|c t] eqn:E; [exact IH|].
  destruct H as [H|[H|H]]; [discriminate| |].
  - now rewrite H.
  - rewrite H. simpl. now destruct (is_corporate (c :: t)).
Qed.

Lemma settled_passed_over qs ps :
  Forall2 (fun q p => strip q = strip p) qs ps -> Forall settled ps ->
  Forall (fun q => strip q = [] \/ is_corporate (strip q) = true
                   \/ search FULL_GIVEN_RE (strip q) = None) qs.
Proof.
  induction 1 as [|q p qs ps E _ IH]; intros Hs; constructor.
  - inversion Hs as [|? ? [_ Hp] _]; subst. rewrite E. right. exact Hp.
  - apply IH. now inversion Hs.
Qed.

Lemma enforce_initials_settles a fixed :
  enforce_initials a = Ok fixed -> author_uses_full_given_names fixed = false.
Proof.
  unfold enforce_initials.
  destruct (enforce_initials_loop (split AND_RE 0 a) []) as [l|e] eqn:El;
    [|discriminate].
  cbn [bind]. intros [= <-].
  apply enforce_initials_loop_settled in El;
    [|apply and_split_pieces_nomatch|constructor].
  destruct l as [|p l]; [reflexivity|].
  unfold author_uses_full_given_names, split.
  apply uses_full_loop_false.
  apply (settled_passed_over _ (p :: l)); [|exact El].
  apply and_resplit; [discriminate| |apply Nat.lt_succ_diag_r].
  eapply Forall_impl; [|exact El]. now intros x [H _].
Qed.

Lemma accessed_today_total today :
  valid_date today -> exists out, accessed_today today = Ok out.
Proof.
  unfold valid_date, accessed_today, list_getitem. intros H.
  destruct (nth_error MONTHS (month today - 1)) as [m|] eqn:E; simpl; [eauto|].
  apply nth_error_None in E. simpl in E. lia.
Qed.

(** ** Frames *)

Lemma frame_refl W st : frame W st st.
Proof.
  repeat split; auto. exists []. now rewrite app_nil_r.
Qed.

Lemma frame_issue W F i msg : frame W (F, i) (F, i ++ [msg]).
Proof. repeat split; auto. now exists [msg]. Qed.

Lemma frame_trans W1 W2 W st1 st2 st3 :
  incl W1 W -> incl W2 W ->
  frame W1 st1 st2 -> frame W2 st2 st3 -> frame W st1 st3.
Proof.
  intros I1 I2 (A1 & B1 & [e1 C1] & D1) (A2 & B2 & [e2 C2] & D2).
  repeat split; auto.
  - intros k Hk. rewrite A2, A1; auto.
  - exists (e1 ++ e2). now rewrite C2, C1, app_assoc.
Qed.

Lemma frame_weaken W W' st st' : incl W W' -> frame W st st' -> frame W' st st'.
Proof.
  intros I (A & B & C & D). repeat split; auto.
Qed.

Lemma dict_in_set k k' v F :
  dict_in k (dict_set k' v F) = str_eqb k k' || dict_in k F.
Proof.
  rewrite !dict_in_find. destruct (str_eqb k k') eqn:E.
  - apply str_eqb_eq in E. subst. now rewrite dict_find_set_same.
  - apply str_eqb_neq in E. now rewrite dict_find_set_other.
Qed.

Lemma frame_set k v F i ex : frame [k] (F, i) (dict_set k v F, i ++ ex).
Proof.
  repeat split; simpl.
  - intros k0 Hk. apply dict_find_set_other. intros ->. apply Hk. now left.
  - intros k0 Hk. rewrite dict_in_set, Hk. apply orb_true_r.
  - now exists ex.
  - apply dict_set_NoDup.
Qed.

Lemma frame_In W st st' x : frame W st st' -> In x (snd st) -> In x (snd st').
Proof.
  intros (_ & _ & [ex ->] & _) H. apply in_or_app. now left.
Qed.

(** ** Rule 1: noisy fields *)

Lemma rule_noisy_step k keys F i :
  rule_noisy (k :: keys) (F, i)
  = if noisy_key k
    then rule_noisy keys
           (dict_pop k F, i ++ [lit "Removed noisy field '" ++ k ++ lit "'."])
    else rule_noisy keys (F, i).
Proof. reflexivity. Qed.

Lemma noisy_key_neq k k' : noisy_key k = false -> noisy_key k' = true -> k <> k'.
Proof. intros H1 H2 ->. congruence. Qed.

Lemma rule_noisy_find keys : forall F i k,
  noisy_key k = false ->
  dict_find k (fst (rule_noisy keys (F, i))) = dict_find k F.
Proof.
  induction keys as [|k' keys IH]; intros F i k Hk; [reflexivity|].
  rewrite rule_noisy_step. destruct (noisy_key k') eqn:E; [|now apply IH].
  rewrite IH by assumption. apply dict_find_pop_other.
  eapply noisy_key_neq; eassumption.
Qed.

Lemma rule_noisy_issues keys : forall F i,
  exists ex, snd (rule_noisy keys (F, i)) = i ++ ex.
Proof.
  induction keys as [|k' keys IH]; intros F i.
  - exists []. simpl. now rewrite app_nil_r.
  - rewrite rule_noisy_step. destruct (noisy_key k'); [|apply IH].
    destruct (IH (dict_pop k' F) (i ++ [lit "Removed noisy field '" ++ k' ++ lit "'."]))
      as [ex ->].
    eexists. now rewrite <- app_assoc.
Qed.

Lemma rule_noisy_id keys F i :
  (forall k, In k keys -> noisy_key k = false) ->
  rule_noisy keys (F, i) = (F, i).
Proof.
  induction keys as [|k' keys IH]; intros H; [reflexivity|].
  rewrite rule_noisy_step, (H k') by now left.
  apply IH. intros k Hk. apply H. now right.
Qed.

Lemma filter_filter {A} (f g : A -> bool) l :
  filter f (filter g l) = filter (fun x => g x && f x) l.
Proof.
  induction l as [|x l IH]; simpl; [reflexivity|].
  destruct (g x); simpl; [destruct (f x)|]; now rewrite IH.
Qed.

Lemma rule_noisy_fst keys : forall F i,
  NoDup (map fst F) ->
  fst (rule_noisy keys (F, i))
  = filter (fun kv => negb (noisy_key (fst kv) && str_in (fst kv) keys)) F.
Proof.
  induction keys as [|k' keys IH]; intros F i Hnd.
  - simpl. symmetry. rewrite (proj2 (filter_ext_in_iff _ (fun _ => true) F)).
    + clear. induction F; simpl; congruence.
    + intros x _. now rewrite andb_false_r.
  - rewrite rule_noisy_step. destruct (noisy_key k') eqn:E.
    + rewrite IH by (rewrite dict_pop_filter by assumption;
                     now apply filter_keys_NoDup).
      rewrite dict_pop_filter by assumption. rewrite filter_filter.
      apply filter_ext. intros [k v]. cbn [fst str_in existsb].
      rewrite (str_eqb_sym k k'). destruct (str_eqb k' k) eqn:Ek; simpl.
      * apply str_eqb_eq in Ek. subst. now rewrite E.
      * reflexivity.
    + rewrite IH by assumption. apply filter_ext. intros [k v].
      cbn [fst str_in existsb]. destruct (str_eqb k k') eqn:Ek; [|reflexivity].
      apply str_eqb_eq in Ek. subst. now rewrite E.
Qed.

Lemma rule_noisy_clean F i :
  NoDup (map fst F) -> clean_keys (fst (rule_noisy (dict_keys F) (F, i))).
Proof.
  intros Hnd k Hk. rewrite rule_noisy_fst in Hk by assumption.
  unfold dict_keys in Hk. apply in_map_iff in Hk.
  destruct Hk as [[k1 v1] [<- Hin]]. apply filter_In in Hin.
  destruct Hin as [Hin Hf]. cbn [fst] in *.
  destruct (noisy_key k1); [|reflexivity]. simpl in Hf.
  assert (str_in k1 (map fst F) = true) as Hs.
  { apply str_in_In. change k1 with (fst (k1, v1)). now apply in_map. }
  rewrite Hs in Hf. discriminate.
Qed.


(** ** Rule 2: initials *)

Lemma rule_initials_ok F i :
  initials_ok F = true -> rule_initials (F, i) = Ok (F, i).
Proof.
  unfold initials_ok, rule_initials. rewrite dict_in_find. unfold dict_getitem.
  destruct (dict_find (lit "author") F) as [a|]; [|reflexivity].
  cbn [REQUIRE_INITIALS andb is_some bind].
  now intros ->%negb_true_iff.
Qed.

Lemma rule_initials_fix F i :
  initials_ok F = false ->
  exists a fixed,
    dict_find (lit "author") F = Some a
    /\ author_uses_full_given_names a = true
    /\ enforce_initials a = Ok fixed
    /\ rule_initials (F, i)
       = Ok (dict_set (lit "author") fixed F, i ++ [initials_msg]).
Proof.
  unfold initials_ok, rule_initials. rewrite dict_in_find. unfold dict_getitem.
  destruct (dict_find (lit "author") F) as [a|]; [|discriminate].
  intros Ha%negb_false_iff. destruct (enforce_initials_total a) as [fixed Hf].
  exists a, fixed. cbn [REQUIRE_INITIALS andb is_some bind].
  rewrite Ha, Hf. auto.
Qed.

Lemma rule_initials_total st : exists st', rule_initials st = Ok st' /\ frame [lit "author"] st st'.
Proof.
  destruct st as [F i]. destruct (initials_ok F) eqn:E.
  - rewrite rule_initials_ok by assumption. eexists. split; [reflexivity|].
    apply frame_refl.
  - destruct (rule_initials_fix F i E) as (a & fixed & _ & _ & _ & ->).
    eexists. split; [reflexivity|]. apply frame_set.
Qed.

(** ** Rule 3: sentence case *)

Lemma sentence_case_nil : sentence_case [] = [].
Proof. reflexivity. Qed.

Lemma rule_title_ok etype F i :
  title_ok etype F = true -> rule_title etype (F, i) = (F, i).
Proof.
  unfold title_ok, rule_title, dict_get.
  cbn [STRICT_SENTENCE_CASE_HINT andb].
  destruct (str_in etype _); [|reflexivity]. cbn [negb orb].
  destruct (dict_find (lit "title") F) as [t|].
  - destruct (sentence_case t) as [|c sc]; [reflexivity|].
    intros ->. reflexivity.
  - now rewrite sentence_case_nil.
Qed.

Lemma rule_title_fix etype F i :
  title_ok etype F = false ->
  exists t,
    dict_find (lit "title") F = Some t
    /\ sentence_case t <> []
    /\ str_in etype [lit "article"; lit "online"] = true
    /\ rule_title etype (F, i)
       = (dict_set (lit "title") (sentence_case t) F, i ++ [title_msg]).
Proof.
  unfold title_ok, rule_title, dict_get.
  cbn [STRICT_SENTENCE_CASE_HINT andb].
  destruct (str_in etype _); [|discriminate]. cbn [negb orb].
  destruct (dict_find (lit "title") F) as [t|]; [|discriminate].
  destruct (sentence_case t) as [|c sc] eqn:E; [discriminate|].
  intros H. rewrite H. exists t. rewrite E.
  repeat split; try reflexivity. discriminate.
Qed.

Lemma rule_title_frame etype st : frame [lit "title"] st (rule_title etype st).
Proof.
  destruct st as [F i]. destruct (title_ok etype F) eqn:E.
  - rewrite rule_title_ok by assumption. apply frame_refl.
  - destruct (rule_title_fix etype F i E) as (t & _ & _ & _ & ->).
    apply frame_set.
Qed.

(** ** Rules 8 and 9: flags only *)

Lemma rule_exclusive_fst st : fst (rule_exclusive st) = fst st.
Proof. now destruct st. Qed.

Lemma rule_exclusive_frame st : frame [] st (rule_exclusive st).
Proof.
  destruct st as [F i]. unfold rule_exclusive.
  repeat split; auto. simpl.
  destruct (_ && _), (_ && _); eexists; rewrite <- ?app_assoc;
    try reflexivity. now rewrite app_nil_r.
Qed.

Lemma rule_edition_total st :
  exists ex, rule_edition st = Ok (fst st, snd st ++ ex).
Proof.
  destruct st as [F i]. unfold rule_edition. rewrite dict_in_find.
  unfold dict_getitem. destruct (dict_find (lit "edition") F) as [v|]; simpl.
  - destruct (fullmatch EDITION_RE v); simpl; eexists;
      try reflexivity. now rewrite app_nil_r.
  - exists []. now rewrite app_nil_r.
Qed.

(** ** Rules 5 to 7: required fields *)

Ltac lit_neq := let H := fresh in intros H; vm_compute in H; discriminate H.

Lemma rule_required_frame what reqs : forall st,
  frame reqs st (rule_required what reqs st).
Proof.
  induction reqs as [|req reqs IH]; intros [F i]; [apply frame_refl|].
  cbn [rule_required]. destruct (negb (dict_in req F)).
  - eapply frame_trans; [| |apply (frame_set req)|apply IH].
    + intros x [<-|[]]. now left.
    + apply incl_tl, incl_refl.
  - eapply frame_weaken; [|apply IH]. apply incl_tl, incl_refl.
Qed.

Lemma rule_required_in what reqs : forall st req,
  In req reqs -> dict_in req (fst (rule_required what reqs st)) = true.
Proof.
  induction reqs as [|r reqs IH]; intros [F i] req; [intros []|].
  cbn [rule_required]. intros [->|Hin].
  - destruct (dict_in req F) eqn:E; cbn [negb].
    + destruct (rule_required_frame what reqs (F, i)) as (_ & H & _). now apply H.
    + destruct (rule_required_frame what reqs
                  (dict_set req (lit "<ADD " ++ upper req ++ lit ">") F,
                   i ++ [lit "Missing " ++ req ++ lit " for " ++ what ++ lit "."]))
        as (_ & H & _).
      apply H. cbn [fst]. rewrite dict_in_set, str_eqb_refl. reflexivity.
  - destruct (negb (dict_in r F)); now apply IH.
Qed.

Lemma rule_required_id what reqs : forall F i,
  (forall req, In req reqs -> dict_in req F = true) ->
  rule_required what reqs (F, i) = (F, i).
Proof.
  induction reqs as [|r reqs IH]; intros F i H; [reflexivity|].
  cbn [rule_required]. rewrite (H r) by now left. cbn [negb].
  apply IH. intros req Hr. apply H. now right.
Qed.

(** A missing required field gets its placeholder and its issue. *)
Lemma rule_required_placeholder what reqs : forall st req,
  NoDup reqs -> In req reqs -> dict_in req (fst st) = false ->
  dict_find req (fst (rule_required what reqs st))
  = Some (lit "<ADD " ++ upper req ++ lit ">")
  /\ In (lit "Missing " ++ req ++ lit " for " ++ what ++ lit ".")
        (snd (rule_required what reqs st)).
Proof.
  induction reqs as [|r reqs IH]; intros [F i] req Hnd; [intros []|].
  inversion Hnd as [|? ? Hni Hnd']; subst.
  cbn [rule_required fst]. intros [->|Hin] Hm.
  - rewrite Hm. cbn [negb].
    match goal with |- context [rule_required what reqs ?s] =>
      destruct (rule_required_frame what reqs s) as (A & _ & [ex C] & _) end.
    rewrite A by assumption. rewrite C. cbn [fst snd].
    rewrite dict_find_set_same. split; [reflexivity|].
    apply in_or_app. left. apply in_or_app. right. now left.
  - destruct (negb (dict_in r F)) eqn:E.
    + apply IH; try assumption. cbn [fst]. rewrite dict_in_set, Hm.
      assert (req <> r) as Hne by (intros ->; contradiction).
      apply str_eqb_neq in Hne. now rewrite Hne.
    + now apply IH.
Qed.

(** ** Rule 4: the online block *)

Lemma rule_online_steps today etype st :
  rule_online today etype st
  = if str_in etype [lit "online"; lit "electronic"]
    then st1 <- online_note st ;;
         st2 <- online_addendum today (online_urldate today st1) ;;
         online_url st2
    else Ok st.
Proof.
  destruct st as [F i]. unfold rule_online.
  destruct (str_in etype _); [|reflexivity].
  unfold online_note.
  destruct (dict_in (lit "note") F); [destruct (dict_getitem _ F) as [v|e]|];
    cbn [bind]; try reflexivity.
  - destruct (negb _); cbn [bind]; unfold online_urldate, online_addendum;
      destruct (negb (dict_in (lit "urldate") _)); reflexivity.
  - unfold online_urldate, online_addendum;
      destruct (negb (dict_in (lit "urldate") _)); reflexivity.
Qed.

Lemma online_note_total st :
  exists st', online_note st = Ok st' /\ frame [lit "note"] st st'
    /\ match dict_find (lit "note") (fst st') with
       | Some v => str_eqb (lower (strip v)) (lit "[online]")
       | None => false
       end = true.
Proof.
  destruct st as [F i]. unfold online_note. rewrite dict_in_find.
  unfold dict_getitem. destruct (dict_find (lit "note") F) as [v|] eqn:E;
    cbn [is_some bind].
  - destruct (str_eqb (lower (strip v)) (lit "[online]")) eqn:Ev; cbn [negb].
    + eexists. split; [reflexivity|]. split; [apply frame_refl|].
      cbn [fst]. now rewrite E.
    + eexists. split; [reflexivity|]. split; [apply frame_set|].
      cbn [fst]. now rewrite dict_find_set_same.
  - eexists. split; [reflexivity|]. split; [apply frame_set|].
    cbn [fst]. now rewrite dict_find_set_same.
Qed.

Lemma online_urldate_frame today st :
  frame [lit "urldate"] st (online_urldate today st)
  /\ is_some (dict_find (lit "urldate") (fst (online_urldate today st))) = true.
Proof.
  destruct st as [F i]. unfold online_urldate. rewrite dict_in_find.
  destruct (dict_find (lit "urldate") F) as [v|] eqn:E; cbn [is_some negb].
  - split; [apply frame_refl|]. cbn [fst]. now rewrite E.
  - split; [apply frame_set|]. cbn [fst]. now rewrite dict_find_set_same.
Qed.

Lemma contains_app_l sub a b : contains sub a = true -> contains sub (a ++ b) = true.
Proof.
  induction a as [|x a IH]; simpl.
  - rewrite orb_false_r. destruct sub; [|discriminate]. intros _.
    now destruct b.
  - rewrite !orb_true_iff. intros [H|H]; [left|right; now apply IH].
    clear IH. revert x a H. induction sub as [|y sub IHs]; intros x a H;
      [reflexivity|]. simpl in *. apply andb_true_iff in H. destruct H as [-> H].
    simpl. destruct a as [|z a]; simpl.
    + destruct sub; [reflexivity|discriminate].
    + now apply IHs.
Qed.

Lemma accessed_today_contains today acc :
  accessed_today today = Ok acc -> contains (lit "Accessed") acc = true.
Proof.
  unfold accessed_today. destruct (list_getitem _ _) as [m|]; [|discriminate].
  cbn [bind]. intros [= <-]. reflexivity.
Qed.

Lemma online_addendum_total today st :
  valid_date today ->
  exists st', online_addendum today st = Ok st' /\ frame [lit "addendum"] st st'
    /\ match dict_find (lit "addendum") (fst st') with
       | Some v => contains (lit "Accessed") v
       | None => false
       end = true.
Proof.
  intros Hd. destruct st as [F i]. unfold online_addendum, dict_get.
  rewrite dict_in_find. destruct (accessed_today_total today Hd) as [acc Ha].
  destruct (dict_find (lit "addendum") F) as [v|] eqn:E; cbn [is_some negb orb].
  - destruct (contains (lit "Accessed") v) eqn:Ec; cbn [negb].
    + eexists. split; [reflexivity|]. split; [apply frame_refl|].
      cbn [fst]. now rewrite E.
    + rewrite Ha. cbn [bind]. eexists. split; [reflexivity|].
      split; [apply frame_set|]. cbn [fst]. rewrite dict_find_set_same.
      eapply accessed_today_contains; eassumption.
  - rewrite Ha. cbn [bind]. eexists. split; [reflexivity|].
    split; [apply frame_set|]. cbn [fst]. rewrite dict_find_set_same.
    eapply accessed_today_contains; eassumption.
Qed.

(** The url is only flagged: never a placeholder. *)
Lemma online_url_total st :
  exists ex, online_url st = Ok (fst st, snd st ++ ex)
    /\ (match dict_find (lit "url") (fst st) with
        | Some v => nonblank v
        | None => false
        end = false -> ex = [url_msg]).
Proof.
  destruct st as [F i]. unfold online_url. rewrite dict_in_find.
  unfold dict_getitem, nonblank. cbn [fst snd].
  destruct (dict_find (lit "url") F) as [v|]; cbn [is_some bind].
  - destruct (strip v).
    + exists [url_msg]. auto.
    + exists []. rewrite app_nil_r. split; [reflexivity | discriminate].
  - exists [url_msg]. auto.
Qed.

Lemma notin_lits k (l : list str) :
  existsb (str_eqb k) l = false -> ~ In k l.
Proof.
  intros H Hin. apply str_in_In in Hin. unfold str_in in Hin. congruence.
Qed.

Ltac notin := apply notin_lits; reflexivity.
Ltac incl_lits :=
  let x := fresh in let H := fresh in
  intros x H; simpl in H; simpl;
  repeat (destruct H as [H|H]; [subst x; tauto|]); destruct H.

Lemma online_ok_ext etype F F' :
  (forall k, In k [lit "note"; lit "urldate"; lit "addendum"] ->
             dict_find k F' = dict_find k F) ->
  online_ok etype F' = online_ok etype F.
Proof.
  intros H. unfold online_ok.
  rewrite !H by (simpl; tauto). reflexivity.
Qed.

Lemma rule_online_total today etype st :
  valid_date today ->
  exists st', rule_online today etype st = Ok st'
    /\ frame [lit "note"; lit "urldate"; lit "addendum"] st st'
    /\ online_ok etype (fst st') = true
    /\ (str_in etype [lit "online"; lit "electronic"] = true ->
        match dict_find (lit "url") (fst st) with
        | Some v => nonblank v
        | None => false
        end = false ->
        In url_msg (snd st')).
Proof.
  intros Hd. rewrite rule_online_steps. unfold online_ok.
  destruct (str_in etype _) eqn:Et.
  - destruct (online_note_total st) as (st1 & -> & F1 & N1). cbn [bind].
    destruct (online_urldate_frame today st1) as [F2 N2].
    destruct (online_addendum_total today (online_urldate today st1) Hd)
      as (st3 & -> & F3 & N3). cbn [bind].
    destruct (online_url_total st3) as (ex & -> & Hu).
    assert (Fr : frame [lit "note"; lit "urldate"; lit "addendum"] st st3).
    { eapply frame_trans; [| |exact F1|].
      2: apply incl_refl. 1: incl_lits.
      eapply frame_trans; [| |exact F2|exact F3]; incl_lits. }
    eexists. split; [reflexivity|]. cbn [fst snd negb orb]. split; [|split].
    + destruct Fr as (A & B & [e C] & D). repeat split; auto.
      exists (e ++ ex). cbn [snd]. now rewrite C, app_assoc.
    + destruct F3 as (A3 & _). destruct F2 as (A2 & _).
      rewrite N3. rewrite (A3 (lit "urldate")), N2 by notin.
      rewrite (A3 (lit "note")), (A2 (lit "note")), N1 by notin. reflexivity.
    + intros _ Hu'. destruct Fr as (A & _).
      rewrite (A (lit "url")) in Hu by notin.
      rewrite (Hu Hu'). apply in_or_app. right. now left.
  - eexists. split; [reflexivity|]. split; [apply frame_refl|].
    split; [reflexivity | discriminate].
Qed.

Lemma rule_online_ok today etype F i :
  online_ok etype F = true ->
  exists ex, rule_online today etype (F, i) = Ok (F, i ++ ex).
Proof.
  rewrite rule_online_steps. unfold online_ok.
  destruct (str_in etype _); cbn [negb orb].
  - destruct (dict_find (lit "note") F) as [v1|] eqn:E1; [|discriminate].
    destruct (dict_find (lit "urldate") F) as [v2|] eqn:E2;
      [|now rewrite andb_false_r].
    destruct (dict_find (lit "addendum") F) as [v3|] eqn:E3;
      [|now rewrite andb_false_r].
    cbn [is_some]. rewrite andb_true_r. intros [H1 H3]%andb_true_iff.
    unfold online_note, online_urldate, online_addendum, dict_getitem, dict_get.
    rewrite !dict_in_find, E1. cbn [is_some bind]. rewrite H1. cbn [negb bind].
    rewrite !dict_in_find, E2. cbn [is_some negb].
    rewrite ?dict_in_find, E3. cbn [is_some negb orb]. rewrite H3.
    cbn [negb bind]. destruct (online_url_total (F, i)) as (ex & -> & _).
    now exists ex.
  - intros _. exists []. now rewrite app_nil_r.
Qed.

(** ** Rule 5: articles *)

Lemma rule_article_steps etype st :
  rule_article etype st
  = if str_eqb etype (lit "article")
    then article_volume
           (ensure (lit "pages") (lit "<ADD PAGES>")
                   (lit "Missing pages for article.")
              (ensure (lit "journaltitle") (lit "<ADD JOURNAL TITLE>")
                      (lit "Missing journaltitle for article.") st))
    else st.
Proof.
  destruct st as [F i]. unfold rule_article, ensure, article_volume.
  destruct (str_eqb etype _); [|reflexivity].
  destruct (negb (dict_in (lit "journaltitle") F));
  destruct (negb (dict_in (lit "pages") _)); reflexivity.
Qed.

Lemma ensure_frame k v msg st : frame [k] st (ensure k v msg st).
Proof.
  destruct st as [F i]. unfold ensure.
  destruct (negb _); [apply frame_set | apply frame_refl].
Qed.

Lemma ensure_in k v msg st : dict_in k (fst (ensure k v msg st)) = true.
Proof.
  destruct st as [F i]. unfold ensure. destruct (dict_in k F) eqn:E; cbn [negb fst].
  - assumption.
  - rewrite dict_in_set, str_eqb_refl. reflexivity.
Qed.

Lemma ensure_id k v msg F i : dict_in k F = true -> ensure k v msg (F, i) = (F, i).
Proof. unfold ensure. now intros ->. Qed.

Lemma ensure_placeholder k v msg st :
  dict_in k (fst st) = false ->
  dict_find k (fst (ensure k v msg st)) = Some v /\ In msg (snd (ensure k v msg st)).
Proof.
  destruct st as [F i]. unfold ensure. cbn [fst]. intros ->. cbn [negb fst snd].
  rewrite dict_find_set_same. split; [reflexivity|].
  apply in_or_app. right. now left.
Qed.

Lemma article_volume_frame st : frame [lit "volume"] st (article_volume st).
Proof.
  destruct st as [F i]. unfold article_volume.
  destruct (_ && _); [apply frame_set | apply frame_refl].
Qed.

Lemma article_volume_in st :
  dict_in (lit "volume") (fst (article_volume st))
  || dict_in (lit "number") (fst (article_volume st)) = true.
Proof.
  destruct st as [F i]. unfold article_volume.
  destruct (dict_in (lit "volume") F) eqn:E1; cbn [negb andb fst].
  - now rewrite E1.
  - destruct (dict_in (lit "number") F) eqn:E2; cbn [negb fst].
    + rewrite E2. apply orb_true_r.
    + rewrite dict_in_set, str_eqb_refl. reflexivity.
Qed.

Lemma rule_article_frame etype st :
  frame [lit "journaltitle"; lit "pages"; lit "volume"] st (rule_article etype st).
Proof.
  rewrite rule_article_steps. destruct (str_eqb etype _); [|apply frame_refl].
  eapply frame_trans; [| |apply ensure_frame|].
  2: apply incl_refl. 1: incl_lits.
  eapply frame_trans; [| |apply ensure_frame|apply article_volume_frame];
    incl_lits.
Qed.

Lemma rule_article_post etype st :
  article_ok etype (fst (rule_article etype st)) = true.
Proof.
  unfold article_ok. rewrite rule_article_steps.
  destruct (str_eqb etype _); [|reflexivity]. cbn [negb orb].
  rewrite <- !dict_in_find. rewrite article_volume_in, andb_true_r.
  destruct (article_volume_frame
              (ensure (lit "pages") (lit "<ADD PAGES>")
                      (lit "Missing pages for article.")
                 (ensure (lit "journaltitle") (lit "<ADD JOURNAL TITLE>")
                         (lit "Missing journaltitle for article.") st)))
    as (_ & B & _).
  rewrite !B; [reflexivity | apply ensure_in |].
  destruct (ensure_frame (lit "pages") (lit "<ADD PAGES>")
                         (lit "Missing pages for article.")
              (ensure (lit "journaltitle") (lit "<ADD JOURNAL TITLE>")
                      (lit "Missing journaltitle for article.") st))
    as (_ & B' & _).
  apply B'. apply ensure_in.
Qed.

Lemma rule_article_ok etype F i :
  article_ok etype F = true -> rule_article etype (F, i) = (F, i).
Proof.
  unfold article_ok. rewrite rule_article_steps.
  destruct (str_eqb etype _); [|reflexivity]. cbn [negb orb].
  rewrite <- !dict_in_find. intros [[H1 H2]%andb_true_iff H3]%andb_true_iff.
  rewrite !ensure_id by assumption. unfold article_volume.
  destruct (dict_in (lit "volume") F), (dict_in (lit "number") F);
    try discriminate; reflexivity.
Qed.

(** ** Rules 6 and 7: books and theses *)

Lemma rule_book_frame etype st :
  frame [lit "publisher"; lit "location"] st (rule_book etype st).
Proof.
  unfold rule_book. destruct (str_eqb etype _);
    [apply rule_required_frame | apply frame_refl].
Qed.

Lemma rule_book_post etype st : book_ok etype (fst (rule_book etype st)) = true.
Proof.
  unfold book_ok, rule_book. destruct (str_eqb etype _); [|reflexivity].
  cbn [negb orb]. rewrite <- !dict_in_find.
  rewrite !rule_required_in by (simpl; tauto). reflexivity.
Qed.

Lemma rule_book_ok etype F i :
  book_ok etype F = true -> rule_book etype (F, i) = (F, i).
Proof.
  unfold book_ok, rule_book. destruct (str_eqb etype _); [|reflexivity].
  cbn [negb orb]. rewrite <- !dict_in_find. intros [H1 H2]%andb_true_iff.
  apply rule_required_id. intros req [<-|[<-|[]]]; assumption.
Qed.

Lemma rule_thesis_frame etype st :
  frame [lit "type"; lit "institution"] st (rule_thesis etype st).
Proof.
  unfold rule_thesis. destruct (str_eqb etype _);
    [apply rule_required_frame | apply frame_refl].
Qed.

Lemma rule_thesis_post etype st :
  thesis_ok etype (fst (rule_thesis etype st)) = true.
Proof.
  unfold thesis_ok, rule_thesis. destruct (str_eqb etype _); [|reflexivity].
  cbn [negb orb]. rewrite <- !dict_in_find.
  rewrite !rule_required_in by (simpl; tauto). reflexivity.
Qed.

Lemma rule_thesis_ok etype F i :
  thesis_ok etype F = true -> rule_thesis etype (F, i) = (F, i).
Proof.
  unfold thesis_ok, rule_thesis. destruct (str_eqb etype _); [|reflexivity].
  cbn [negb orb]. rewrite <- !dict_in_find. intros [H1 H2]%andb_true_iff.
  apply rule_required_id. intros req [<-|[<-|[]]]; assumption.
Qed.

(** ** The whole pass *)

Lemma frame_find W st st' k :
  frame W st st' -> ~ In k W -> dict_find k (fst st') = dict_find k (fst st).
Proof. intros (A & _) H. now apply A. Qed.

(** The states a pass goes through. *)
Lemma apply_rules_run today etype F :
  valid_date today ->
  exists st1 st3 st8,
    rule_initials (rule_noisy (dict_keys F) (F, [])) = Ok st1
    /\ rule_online today etype (rule_title etype st1) = Ok st3
    /\ rule_edition
         (rule_exclusive
            (rule_thesis etype (rule_book etype (rule_article etype st3))))
       = Ok st8
    /\ apply_rules today etype F = Ok st8.
Proof.
  intros Hd. unfold apply_rules.
  destruct (rule_initials_total (rule_noisy (dict_keys F) (F, [])))
    as (st1 & E1 & _).
  destruct (rule_online_total today etype (rule_title etype st1) Hd)
    as (st3 & E3 & _).
  destruct (rule_edition_total
              (rule_exclusive
                 (rule_thesis etype (rule_book etype (rule_article etype st3)))))
    as (ex & E8).
  eexists st1, st3, _. rewrite E1. cbn [bind]. rewrite E3. cbn [bind].
  rewrite E8. auto.
Qed.

(** From the input to the state the completeness rules start from: the
    keys they look at are untouched. *)
Lemma apply_rules_before today etype F st1 st3 k :
  rule_initials (rule_noisy (dict_keys F) (F, [])) = Ok st1 ->
  rule_online today etype (rule_title etype st1) = Ok st3 ->
  valid_date today ->
  noisy_key k = false ->
  ~ In k [lit "author"; lit "title"; lit "note"; lit "urldate"; lit "addendum"] ->
  dict_find k (fst st3) = dict_find k F.
Proof.
  intros E1 E3 Hd Hn Hk.
  destruct (rule_initials_total (rule_noisy (dict_keys F) (F, [])))
    as (st1' & E1' & Fr1).
  rewrite E1 in E1'. injection E1' as <-.
  destruct (rule_online_total today etype (rule_title etype st1) Hd)
    as (st3' & E3' & Fr3 & _).
  rewrite E3 in E3'. injection E3' as <-.
  rewrite (frame_find _ _ _ k Fr3) by (simpl in *; tauto).
  rewrite (frame_find _ _ _ k (rule_title_frame etype st1)) by (simpl in *; tauto).
  rewrite (frame_find _ _ _ k Fr1) by (simpl in *; tauto).
  now apply rule_noisy_find.
Qed.

(** From a state after the article rule to the end of the pass. *)
Lemma apply_rules_after etype st4 st8 :
  rule_edition (rule_exclusive (rule_thesis etype (rule_book etype st4)))
  = Ok st8 ->
  frame [lit "publisher"; lit "location"; lit "type"; lit "institution"]
        st4 st8.
Proof.
  intros E8.
  destruct (rule_edition_total
              (rule_exclusive (rule_thesis etype (rule_book etype st4))))
    as (ex & E8').
  rewrite E8 in E8'. injection E8' as ->.
  eapply frame_trans; [| |apply rule_book_frame|]. 2: apply incl_refl.
  1: incl_lits.
  eapply frame_trans; [| |apply rule_thesis_frame|]. 2: apply incl_refl.
  1: incl_lits.
  destruct (rule_exclusive_frame (rule_thesis etype (rule_book etype st4)))
    as (A & B & [e C] & D).
  repeat split; auto. exists (e ++ ex). cbn [snd]. now rewrite C, app_assoc.
Qed.

Lemma dict_in_false_find k F : dict_in k F = false -> dict_find k F = None.
Proof. rewrite dict_in_find. now destruct (dict_find k F). Qed.

Lemma dict_find_None_in k F : dict_find k F = None -> dict_in k F = false.
Proof. rewrite dict_in_find. now intros ->. Qed.

(** C5 (as amended).  The rule engine is total: for any type, key and
    field mapping it returns a suggestion and a list of issues and raises
    nothing.  A required field of an article (journaltitle, pages; volume
    when neither volume nor number is there), of a book (publisher,
    location) or of a thesis (type, institution) that is missing gets its
    placeholder and an issue.  A missing or blank url of an online source is
    only reported: the field is left as it was, without a placeholder. *)
Theorem apply_rules_total_with_placeholders today etype key F :
  valid_date today ->
  exists F' issues,
    apply_rules today etype F = Ok (F', issues)
    /\ suggest_entry today etype key F = Ok (rebuild_entry etype key F', issues)
    /\ (forall req, In req (required_fields etype) -> dict_in req F = false ->
          dict_find req F' = Some (placeholder_for req)
          /\ In (missing_msg etype req) issues)
    /\ (etype = lit "article" ->
        dict_in (lit "volume") F = false -> dict_in (lit "number") F = false ->
          dict_find (lit "volume") F' = Some (lit "<ADD VOLUME>")
          /\ In (lit "Missing volume/number for article.") issues)
    /\ (str_in etype [lit "online"; lit "electronic"] = true ->
        url_unusable F = true ->
          dict_find (lit "url") F' = dict_find (lit "url") F
          /\ In url_msg issues).
Proof.
  intros Hd.
  destruct (apply_rules_run today etype F Hd) as (st1 & st3 & [F' issues] & E1 & E3 & E8 & E).
  exists F', issues. split; [assumption|]. split.
  { unfold suggest_entry. rewrite E. reflexivity. }
  pose proof (apply_rules_before today etype F st1 st3) as Hb.
  specialize (fun k => Hb k E1 E3 Hd).
  pose proof (apply_rules_after etype (rule_article etype st3) (F', issues) E8)
    as Ha.
  destruct (rule_online_total today etype (rule_title etype st1) Hd)
    as (st3' & E3' & Fr3 & _ & Hurl).
  rewrite E3 in E3'. injection E3' as <-.
  split; [|split].
  - (* required fields *)
    intros req Hreq Hm. unfold required_fields in Hreq.
    destruct (str_eqb etype (lit "article")) eqn:Ea.
    + apply str_eqb_eq in Ea. subst etype.
      rewrite rule_article_steps in Ha. change (str_eqb (lit "article") (lit "article")) with true in Ha.
      cbv iota in Ha.
      set (s1 := ensure (lit "journaltitle") (lit "<ADD JOURNAL TITLE>")
                        (lit "Missing journaltitle for article.") st3) in *.
      set (s2 := ensure (lit "pages") (lit "<ADD PAGES>")
                        (lit "Missing pages for article.") s1) in *.
      destruct Hreq as [<-|[<-|[]]].
      * assert (Hm3 : dict_in (lit "journaltitle") (fst st3) = false).
        { apply dict_find_None_in. rewrite Hb; [now apply dict_in_false_find|reflexivity|notin]. }
        destruct (ensure_placeholder (lit "journaltitle") (lit "<ADD JOURNAL TITLE>")
                    (lit "Missing journaltitle for article.") st3 Hm3) as [P1 P2].
        fold s1 in P1, P2.
        pose proof (ensure_frame (lit "pages") (lit "<ADD PAGES>")
                      (lit "Missing pages for article.") s1) as Fp. fold s2 in Fp.
        pose proof (article_volume_frame s2) as Fv.
        split.
        -- change F' with (fst (F', issues)).
           rewrite (frame_find _ _ _ _ Ha) by notin.
           rewrite (frame_find _ _ _ _ Fv) by notin.
           rewrite (frame_find _ _ _ _ Fp) by notin. exact P1.
        -- change issues with (snd (F', issues)).
           eapply frame_In; [exact Ha|]. eapply frame_In; [exact Fv|].
           eapply frame_In; [exact Fp|]. exact P2.
      * assert (Hm3 : dict_in (lit "pages") (fst s1) = false).
        { apply dict_find_None_in. unfold s1.
          rewrite (frame_find _ _ _ _ (ensure_frame _ _ _ st3)) by notin.
          rewrite Hb; [now apply dict_in_false_find|reflexivity|notin]. }
        destruct (ensure_placeholder (lit "pages") (lit "<ADD PAGES>")
                    (lit "Missing pages for article.") s1 Hm3) as [P1 P2].
        fold s2 in P1, P2.
        pose proof (article_volume_frame s2) as Fv.
        split.
        -- change F' with (fst (F', issues)).
           rewrite (frame_find _ _ _ _ Ha) by notin.
           rewrite (frame_find _ _ _ _ Fv) by notin. exact P1.
        -- change issues with (snd (F', issues)).
           eapply frame_In; [exact Ha|]. eapply frame_In; [exact Fv|]. exact P2.
    + destruct (str_eqb etype (lit "book")) eqn:Ebk.
      * apply str_eqb_eq in Ebk. subst etype. clear Ha.
        assert (rule_article (lit "book") st3 = st3) as Hart by now destruct st3.
        rewrite Hart in E8.
        change (rule_book (lit "book") st3)
          with (rule_required (lit "book") [lit "publisher"; lit "location"] st3) in E8.
        set (s5 := rule_required (lit "book") [lit "publisher"; lit "location"] st3) in *.
        assert (Hm3 : dict_in req (fst st3) = false).
        { apply dict_find_None_in.
          rewrite Hb; [now apply dict_in_false_find| |];
            destruct Hreq as [<-|[<-|[]]]; try reflexivity; notin. }
        assert (Hnd : NoDup [lit "publisher"; lit "location"]).
        { repeat constructor; simpl; intros H;
            repeat (destruct H as [H|H]; [discriminate H|]); exact H. }
        destruct (rule_required_placeholder (lit "book") _ st3 req Hnd Hreq Hm3)
          as [P1 P2]. fold s5 in P1, P2.
        assert (rule_thesis (lit "book") s5 = s5) as Hth by reflexivity.
        rewrite Hth in E8.
        destruct (rule_edition_total (rule_exclusive s5)) as (ex & E8').
        rewrite E8 in E8'. injection E8' as -> ->.
        rewrite rule_exclusive_fst.
        split.
        -- rewrite P1. unfold placeholder_for.
           destruct Hreq as [<-|[<-|[]]]; reflexivity.
        -- apply in_or_app. left.
           eapply frame_In; [apply rule_exclusive_frame|]. exact P2.
      * destruct (str_eqb etype (lit "thesis")) eqn:Eth; [|destruct Hreq].
        apply str_eqb_eq in Eth. subst etype. clear Ha.
        assert (rule_article (lit "thesis") st3 = st3) as Hart by now destruct st3.
        rewrite Hart in E8.
        assert (rule_book (lit "thesis") st3 = st3) as Hbk by reflexivity.
        rewrite Hbk in E8.
        change (rule_thesis (lit "thesis") st3)
          with (rule_required (lit "thesis") [lit "type"; lit "institution"] st3) in E8.
        set (s5 := rule_required (lit "thesis") [lit "type"; lit "institution"] st3) in *.
        assert (Hm3 : dict_in req (fst st3) = false).
        { apply dict_find_None_in.
          rewrite Hb; [now apply dict_in_false_find| |];
            destruct Hreq as [<-|[<-|[]]]; try reflexivity; notin. }
        assert (Hnd : NoDup [lit "type"; lit "institution"]).
        { repeat constructor; simpl; intros H;
            repeat (destruct H as [H|H]; [discriminate H|]); exact H. }
        destruct (rule_required_placeholder (lit "thesis") _ st3 req Hnd Hreq Hm3)
          as [P1 P2]. fold s5 in P1, P2.
        destruct (rule_edition_total (rule_exclusive s5)) as (ex & E8').
        rewrite E8 in E8'. injection E8' as -> ->.
        rewrite rule_exclusive_fst.
        split.
        -- rewrite P1. unfold placeholder_for.
           destruct Hreq as [<-|[<-|[]]]; reflexivity.
        -- apply in_or_app. left.
           eapply frame_In; [apply rule_exclusive_frame|]. exact P2.
  - (* volume / number *)
    intros -> Hv Hn.
    rewrite rule_article_steps in Ha.
    change (str_eqb (lit "article") (lit "article")) with true in Ha.
    cbv iota in Ha.
    set (s2 := ensure (lit "pages") (lit "<ADD PAGES>")
                      (lit "Missing pages for article.")
                 (ensure (lit "journaltitle") (lit "<ADD JOURNAL TITLE>")
                         (lit "Missing journaltitle for article.") st3)) in *.
    assert (H2 : forall k, ~ In k [lit "journaltitle"; lit "pages"] ->
                           dict_find k (fst s2) = dict_find k (fst st3)).
    { intros k Hk. unfold s2.
      rewrite (frame_find _ _ _ _ (ensure_frame _ _ _ _)) by (simpl in *; tauto).
      rewrite (frame_find _ _ _ _ (ensure_frame _ _ _ _)) by (simpl in *; tauto).
      reflexivity. }
    assert (Hv2 : dict_in (lit "volume") (fst s2) = false).
    { apply dict_find_None_in. rewrite H2 by notin.
      rewrite Hb; [now apply dict_in_false_find|reflexivity|notin]. }
    assert (Hn2 : dict_in (lit "number") (fst s2) = false).
    { apply dict_find_None_in. rewrite H2 by notin.
      rewrite Hb; [now apply dict_in_false_find|reflexivity|notin]. }
    destruct s2 as [F2 i2] eqn:Es2. cbn [fst] in Hv2, Hn2.
    unfold article_volume in Ha. rewrite Hv2, Hn2 in Ha. cbn [negb andb] in Ha.
    split.
    + change F' with (fst (F', issues)).
      rewrite (frame_find _ _ _ _ Ha) by notin. cbn [fst].
      apply dict_find_set_same.
    + change issues with (snd (F', issues)).
      eapply frame_In; [exact Ha|]. cbn [snd]. apply in_or_app. right. now left.
  - (* url *)
    intros Ho Hu. unfold url_unusable in Hu.
    assert (Hfind : forall st, frame [lit "journaltitle"; lit "pages"; lit "volume"]
                                 st3 st ->
                    frame [lit "publisher"; lit "location"; lit "type"; lit "institution"]
                          st (F', issues) ->
                    dict_find (lit "url") F' = dict_find (lit "url") F).
    { intros st FA FB. change F' with (fst (F', issues)).
      rewrite (frame_find _ _ _ _ FB) by notin.
      rewrite (frame_find _ _ _ _ FA) by notin.
      rewrite (frame_find _ _ _ _ Fr3) by notin.
      rewrite (frame_find _ _ _ _ (rule_title_frame etype st1)) by notin.
      destruct (rule_initials_total (rule_noisy (dict_keys F) (F, [])))
        as (st1' & E1' & Fr1).
      rewrite E1 in E1'. injection E1' as <-.
      rewrite (frame_find _ _ _ _ Fr1) by notin.
      now apply rule_noisy_find. }
    split.
    + eapply Hfind; [apply rule_article_frame | exact Ha].
    + change issues with (snd (F', issues)).
      eapply frame_In; [exact Ha|].
      eapply frame_In; [apply rule_article_frame|].
      apply Hurl; [assumption|].
      rewrite (frame_find _ _ _ _ (rule_title_frame etype st1)) by notin.
      destruct (rule_initials_total (rule_noisy (dict_keys F) (F, [])))
        as (st1' & E1' & Fr1).
      rewrite E1 in E1'. injection E1' as <-.
      rewrite (frame_find _ _ _ _ Fr1) by notin.
      rewrite rule_noisy_find by reflexivity.
      destruct (dict_find (lit "url") F) as [v|]; [|reflexivity].
      now apply negb_true_iff in Hu.
Qed.

Lemma apply_rules_total_with_placeholders_witness :
  exists F' issues,
    apply_rules (MkDate 2025 11 5) (lit "article") [(lit "year", lit "2020")]
    = Ok (F', issues)
    /\ suggest_entry (MkDate 2025 11 5) (lit "article") (lit "doe2020")
                     [(lit "year", lit "2020")]
       = Ok (rebuild_entry (lit "article") (lit "doe2020") F', issues)
    /\ (forall req, In req (required_fields (lit "article")) ->
          dict_in req [(lit "year", lit "2020")] = false ->
          dict_find req F' = Some (placeholder_for req)
          /\ In (missing_msg (lit "article") req) issues)
    /\ (lit "article" = lit "article" ->
        dict_in (lit "volume") [(lit "year", lit "2020")] = false ->
        dict_in (lit "number") [(lit "year", lit "2020")] = false ->
          dict_find (lit "volume") F' = Some (lit "<ADD VOLUME>")
          /\ In (lit "Missing volume/number for article.") issues)
    /\ (str_in (lit "article") [lit "online"; lit "electronic"] = true ->
        url_unusable [(lit "year", lit "2020")] = true ->
          dict_find (lit "url") F' = dict_find (lit "url") [(lit "year", lit "2020")]
          /\ In url_msg issues).
Proof.
  apply (apply_rules_total_with_placeholders (MkDate 2025 11 5) (lit "article")
           (lit "doe2020") [(lit "year", lit "2020")]).
  unfold valid_date. simpl. lia.
Defined.

(** C5, counterexample: an online source without url.  The engine cannot
    fix the field; it reports it and leaves it absent, with no
    placeholder. *)
Lemma online_url_gets_no_placeholder :
  exists F' issues,
    apply_rules (MkDate 2025 11 5) (lit "online") [] = Ok (F', issues)
    /\ In url_msg issues
    /\ dict_find (lit "url") F' = None.
Proof.
  eexists _, _. split; [reflexivity|]. split; [|reflexivity].
  simpl. tauto.
Qed.

(** ** A second pass of the rules *)

Lemma rule_initials_post st st' :
  rule_initials st = Ok st' -> initials_ok (fst st') = true.
Proof.
  destruct st as [F i]. destruct (initials_ok F) eqn:E.
  - rewrite rule_initials_ok by assumption. now intros [= <-].
  - destruct (rule_initials_fix F i E) as (a & fixed & _ & _ & Hf & ->).
    intros [= <-]. cbn [fst]. unfold initials_ok.
    rewrite dict_find_set_same. now rewrite (enforce_initials_settles _ _ Hf).
Qed.

Lemma rule_title_post etype st : title_ok etype (fst (rule_title etype st)) = true.
Proof.
  destruct st as [F i]. destruct (title_ok etype F) eqn:E.
  - now rewrite rule_title_ok.
  - destruct (rule_title_fix etype F i E) as (t & _ & Hn & He & ->).
    cbn [fst]. unfold title_ok. rewrite He, dict_find_set_same.
    rewrite sentence_case_idem.
    destruct (sentence_case t); [reflexivity|]. apply str_eqb_refl.
Qed.

Lemma initials_ok_ext F F' :
  dict_find (lit "author") F' = dict_find (lit "author") F ->
  initials_ok F' = initials_ok F.
Proof. unfold initials_ok. now intros ->. Qed.

Lemma title_ok_ext etype F F' :
  dict_find (lit "title") F' = dict_find (lit "title") F ->
  title_ok etype F' = title_ok etype F.
Proof. unfold title_ok. now intros ->. Qed.

Lemma article_ok_ext etype F F' :
  (forall k, In k [lit "journaltitle"; lit "pages"; lit "volume"; lit "number"] ->
             dict_find k F' = dict_find k F) ->
  article_ok etype F' = article_ok etype F.
Proof.
  intros H. unfold article_ok. rewrite !H by (simpl; tauto). reflexivity.
Qed.

Lemma book_ok_ext etype F F' :
  (forall k, In k [lit "publisher"; lit "location"] ->
             dict_find k F' = dict_find k F) ->
  book_ok etype F' = book_ok etype F.
Proof.
  intros H. unfold book_ok. rewrite !H by (simpl; tauto). reflexivity.
Qed.

Lemma frame_clean W st st' :
  frame W st st' -> (forall k, In k W -> noisy_key k = false) ->
  clean_keys (fst st) -> clean_keys (fst st').
Proof.
  intros (A & _) HW Hc k Hk.
  destruct (noisy_key k) eqn:En; [|reflexivity].
  assert (Hn : ~ In k W) by (intros H; apply HW in H; congruence).
  rewrite <- En. apply Hc. unfold dict_keys in *.
  destruct (dict_find k (fst st)) eqn:Ef.
  - destruct (in_dec (list_eq_dec ascii_dec) k (map fst (fst st)));
      [assumption|].
    apply dict_find_None_notin in n. congruence.
  - rewrite <- (A k Hn) in Ef. apply dict_find_None_notin in Ef. tauto.
Qed.

Lemma apply_rules_at_rest today etype F :
  at_rest etype F -> exists issues, apply_rules today etype F = Ok (F, issues).
Proof.
  intros (A & B & C & D & E & G & H). unfold apply_rules.
  rewrite (rule_noisy_id _ _ _ A), (rule_initials_ok _ _ B). cbn [bind].
  rewrite (rule_title_ok _ _ _ C).
  destruct (rule_online_ok today etype F [] D) as [ex ->]. cbn [bind].
  rewrite (rule_article_ok _ _ _ E), (rule_book_ok _ _ _ G),
    (rule_thesis_ok _ _ _ H).
  destruct (rule_edition_total (rule_exclusive (F, [] ++ ex))) as [ex' ->].
  rewrite rule_exclusive_fst. eauto.
Qed.

Lemma apply_rules_rests today etype F F1 issues :
  valid_date today -> NoDup (map fst F) ->
  apply_rules today etype F = Ok (F1, issues) -> at_rest etype F1.
Proof.
  intros Hd Hnd HF.
  destruct (apply_rules_run today etype F Hd)
    as (st1 & st3 & st8 & E1 & E3 & E8 & Ea).
  rewrite HF in Ea. injection Ea as <-.
  destruct (rule_initials_total (rule_noisy (dict_keys F) (F, [])))
    as (st1' & E1' & Fr1).
  pose proof (eq_trans (eq_sym E1) E1') as X1. injection X1 as <-.
  pose proof (rule_title_frame etype st1) as Fr2.
  destruct (rule_online_total today etype (rule_title etype st1) Hd)
    as (st3' & E3' & Fr3 & Ho & _).
  pose proof (eq_trans (eq_sym E3) E3') as X3. injection X3 as <-.
  pose proof (rule_article_frame etype st3) as Fr4.
  pose proof (rule_book_frame etype (rule_article etype st3)) as Fr5.
  pose proof (rule_thesis_frame etype
                (rule_book etype (rule_article etype st3))) as Fr6.
  destruct (rule_edition_total
              (rule_exclusive
                 (rule_thesis etype (rule_book etype (rule_article etype st3)))))
    as (ex & E8').
  pose proof (eq_trans (eq_sym E8) E8') as X8. injection X8 as X8 _.
  rewrite rule_exclusive_fst in X8.
  cbn [fst] in *.
  set (st4 := rule_article etype st3) in *.
  set (st5 := rule_book etype st4) in *.
  set (st6 := rule_thesis etype st5) in *.
  subst F1. clear E8' E8 HF.
  repeat split.
  - eapply frame_clean; [exact Fr6|intros k Hk; simpl in Hk;
      repeat (destruct Hk as [<-|Hk]; [reflexivity|]); destruct Hk|].
    eapply frame_clean; [exact Fr5|intros k Hk; simpl in Hk;
      repeat (destruct Hk as [<-|Hk]; [reflexivity|]); destruct Hk|].
    eapply frame_clean; [exact Fr4|intros k Hk; simpl in Hk;
      repeat (destruct Hk as [<-|Hk]; [reflexivity|]); destruct Hk|].
    eapply frame_clean; [exact Fr3|intros k Hk; simpl in Hk;
      repeat (destruct Hk as [<-|Hk]; [reflexivity|]); destruct Hk|].
    eapply frame_clean; [exact Fr2|intros k Hk; simpl in Hk;
      repeat (destruct Hk as [<-|Hk]; [reflexivity|]); destruct Hk|].
    eapply frame_clean; [exact Fr1|intros k Hk; simpl in Hk;
      repeat (destruct Hk as [<-|Hk]; [reflexivity|]); destruct Hk|].
    now apply rule_noisy_clean.
  - rewrite (initials_ok_ext (fst st1)); [now apply (rule_initials_post _ _ E1)|].
    rewrite (frame_find _ _ _ _ Fr6) by notin.
    rewrite (frame_find _ _ _ _ Fr5) by notin.
    rewrite (frame_find _ _ _ _ Fr4) by notin.
    rewrite (frame_find _ _ _ _ Fr3) by notin.
    now rewrite (frame_find _ _ _ _ Fr2) by notin.
  - rewrite (title_ok_ext etype (fst (rule_title etype st1)));
      [apply rule_title_post|].
    rewrite (frame_find _ _ _ _ Fr6) by notin.
    rewrite (frame_find _ _ _ _ Fr5) by notin.
    rewrite (frame_find _ _ _ _ Fr4) by notin.
    now rewrite (frame_find _ _ _ _ Fr3) by notin.
  - rewrite (online_ok_ext etype (fst st3)); [exact Ho|].
    intros k Hk.
    rewrite (frame_find _ _ _ k Fr6), (frame_find _ _ _ k Fr5),
      (frame_find _ _ _ k Fr4); [reflexivity| | |];
      simpl in Hk; repeat (destruct Hk as [<-|Hk]; [notin|]); destruct Hk.
  - rewrite (article_ok_ext etype (fst st4)); [apply rule_article_post|].
    intros k Hk.
    rewrite (frame_find _ _ _ k Fr6), (frame_find _ _ _ k Fr5);
      [reflexivity| |];
      simpl in Hk; repeat (destruct Hk as [<-|Hk]; [notin|]); destruct Hk.
  - rewrite (book_ok_ext etype (fst st5)); [apply rule_book_post|].
    intros k Hk.
    rewrite (frame_find _ _ _ k Fr6); [reflexivity|].
    simpl in Hk; repeat (destruct Hk as [<-|Hk]; [notin|]); destruct Hk.
  - apply rule_thesis_post.
Qed.

End RuleFacts.

(* ================================================================== *)
(** * The splitter *)
(* ================================================================== *)

Module SplitFacts.
Import Py Re PyData BibAuditBatch Notions PyFacts.

Lemma brace_scan_shift s j d :
  brace_scan s j d = (j + fst (brace_scan s 0 d), snd (brace_scan s 0 d)).
Proof.
  revert j d; induction s as [|c s IH]; intros j d; simpl.
  - now rewrite Nat.add_0_r.
  - destruct (0 <? d); simpl; [|now rewrite Nat.add_0_r].
    rewrite (IH (j + 1)), (IH 1). simpl. f_equal. lia.
Qed.

Lemma brace_scan_bound s d : fst (brace_scan s 0 d) <= length s.
Proof.
  revert d; induction s as [|c s IH]; intros d; simpl; [lia|].
  destruct (0 <? d); simpl; [|lia].
  rewrite brace_scan_shift. simpl. specialize (IH (if chr_eqb c "{" then d + 1
    else if chr_eqb c "}" then d - 1 else d)). lia.
Qed.

(** Scanning only the part that was consumed ends at the same depth. *)
Lemma brace_scan_prefix s d k :
  brace_scan s 0 d = (k, 0) -> brace_scan (firstn k s) 0 d = (k, 0).
Proof.
  revert d k; induction s as [|c s IH]; intros d k; simpl.
  - intros [= <- ->]. reflexivity.
  - destruct (0 <? d) eqn:Hd.
    + rewrite brace_scan_shift.
      destruct (brace_scan s 0 _) as [k0 d0] eqn:E. simpl.
      intros [= <- ->]. simpl. rewrite Hd.
      rewrite brace_scan_shift. now rewrite (IH _ _ E).
    + intros [= <- ->]. reflexivity.
Qed.

Lemma index_of_firstn c s k m :
  index_of c s = Some k -> k < m -> index_of c (firstn m s) = Some k.
Proof.
  revert k m; induction s as [|x s IH]; intros k m; simpl; [discriminate|].
  destruct m as [|m]; [lia|]. simpl.
  destruct (chr_eqb x c); [auto|].
  destruct (index_of c s) as [k'|] eqn:E; [|discriminate].
  intros [= <-] Hk. rewrite (IH k' m eq_refl); [reflexivity | lia].
Qed.

Lemma find_index_of c s i a :
  find c s i = Some a -> index_of c (skipn i s) = Some (a - i) /\ i <= a.
Proof.
  unfold find. destruct (index_of c (skipn i s)) as [k|]; [|discriminate].
  intros [= <-]. split; [f_equal; lia | lia].
Qed.

(** The accumulator only collects. *)
Lemma split_entries_loop_acc fuel text i entries :
  split_entries_loop fuel text i entries
  = entries ++ split_entries_loop fuel text i [].
Proof.
  revert i entries; induction fuel as [|fuel IH]; intros i entries; simpl.
  - now rewrite app_nil_r.
  - destruct (i <? length text); [|now rewrite app_nil_r].
    destruct (find "@" text i) as [at_|]; [|now rewrite app_nil_r].
    destruct (in_comment_line text at_); [apply IH|].
    destruct (find "{" text at_) as [brace|]; [|now rewrite app_nil_r].
    destruct (brace_scan _ _ _) as [j depth].
    destruct (depth =? 0); [|reflexivity].
    rewrite IH. symmetry. rewrite IH. simpl. now rewrite <- app_assoc.
Qed.

Lemma split_entries_loop_turn fuel text i :
  split_entries_loop (S fuel) text i [] =
  match turn_of text i with
  | TStop _ _ => []
  | TSkip _ _ at_ => split_entries_loop fuel text (at_ + 1) []
  | TChunk _ _ at_ _ j =>
      slice text at_ j :: split_entries_loop fuel text j []
  | TTail _ _ at_ _ => [slice_from text at_]
  end.
Proof.
  unfold turn_of. simpl.
  destruct (i <? length text); [|reflexivity].
  destruct (find "@" text i) as [at_|]; [|reflexivity].
  destruct (in_comment_line text at_); [reflexivity|].
  destruct (find "{" text at_) as [brace|]; [|reflexivity].
  destruct (brace_scan _ _ _) as [j depth].
  destruct (depth =? 0); [|reflexivity].
  now rewrite split_entries_loop_acc.
Qed.

(** What a turn that cuts a balanced chunk knows. *)
Lemma turn_chunk text i at_ brace j :
  turn_of text i = TChunk text i at_ brace j ->
  i <= at_ /\ at_ <= brace /\ brace < j /\ j <= length text
  /\ nth_error text at_ = Some "@"%char
  /\ find "{" text at_ = Some brace
  /\ brace_scan (slice_from text (brace + 1)) 0 1 = (j - (brace + 1), 0).
Proof.
  unfold turn_of. destruct (i <? length text); [|discriminate].
  destruct (find "@" text i) as [a|] eqn:Ea; [|discriminate].
  destruct (in_comment_line text a); [discriminate|].
  destruct (find "{" text a) as [b|] eqn:Eb; [|discriminate].
  destruct (brace_scan _ _ _) as [j' depth] eqn:Es.
  destruct (depth =? 0) eqn:Ed; [|discriminate].
  intros [= -> -> ->]. apply Nat.eqb_eq in Ed. subst depth.
  apply find_Some in Ea. destruct (find_Some _ _ _ _ Eb) as [Hb _].
  rewrite brace_scan_shift in Es. injection Es as Ej Ez.
  pose proof (brace_scan_bound (slice_from text (brace + 1)) 1) as Hbd.
  unfold slice_from in *. rewrite length_skipn in Hbd.
  destruct Ea as [Ea1 Ea2]. repeat split; try lia; try assumption.
  rewrite (surjective_pairing (brace_scan _ 0 1)), Ez. f_equal. lia.
Qed.

Lemma turn_tail text i at_ brace :
  turn_of text i = TTail text i at_ brace ->
  i <= at_ < length text /\ nth_error text at_ = Some "@"%char.
Proof.
  unfold turn_of. destruct (i <? length text); [|discriminate].
  destruct (find "@" text i) as [a|] eqn:Ea; [|discriminate].
  destruct (in_comment_line text a); [discriminate|].
  destruct (find "{" text a) as [b|] eqn:Eb; [|discriminate].
  destruct (brace_scan _ _ _) as [j' depth] eqn:Es.
  destruct (depth =? 0) eqn:Ed; [discriminate|].
  intros [= -> ->]. apply find_Some in Ea. tauto.
Qed.

Lemma turn_skip text i at_ :
  turn_of text i = TSkip text i at_ -> i <= at_ < length text.
Proof.
  unfold turn_of. destruct (i <? length text); [|discriminate].
  destruct (find "@" text i) as [a|] eqn:Ea; [|discriminate].
  destruct (in_comment_line text a).
  - intros [= ->]. apply find_Some in Ea. tauto.
  - destruct (find "{" text a) as [b|]; [|discriminate].
    destruct (brace_scan _ _ _) as [j' depth].
    destruct (depth =? 0); discriminate.
Qed.

(** The loop does not depend on the fuel, once there is enough of it. *)
Lemma split_entries_loop_fuel f1 f2 text i :
  length text - i < f1 -> length text - i < f2 ->
  split_entries_loop f1 text i [] = split_entries_loop f2 text i [].
Proof.
  revert f2 i; induction f1 as [|f1 IH]; intros f2 i H1 H2; [lia|].
  destruct f2 as [|f2]; [lia|].
  rewrite !split_entries_loop_turn.
  destruct (turn_of text i) as [|a|a b j|a b] eqn:E; try reflexivity.
  - apply turn_skip in E. apply IH; lia.
  - apply turn_chunk in E. f_equal. apply IH; lia.
Qed.

(** Every chunk starts with the [@] the scan stopped at. *)
Lemma split_entries_loop_heads fuel text i :
  Forall (fun c => hd_error c = Some "@"%char)
         (split_entries_loop fuel text i []).
Proof.
  revert i; induction fuel as [|fuel IH]; intros i; [constructor|].
  rewrite split_entries_loop_turn.
  destruct (turn_of text i) as [|a|a b j|a b] eqn:E; auto.
  - apply turn_chunk in E. destruct E as (_ & H1 & H2 & _ & H3 & _).
    constructor; [|apply IH]. unfold slice.
    rewrite (skipn_nth_error_cons _ _ _ H3).
    destruct (j - a) as [|m] eqn:Em; [lia|]. reflexivity.
  - apply turn_tail in E. destruct E as [_ H].
    constructor; [|constructor]. unfold slice_from.
    now rewrite (skipn_nth_error_cons _ _ _ H).
Qed.

Lemma chunk_braces_close text i at_ brace j :
  turn_of text i = TChunk text i at_ brace j ->
  braces_close (slice text at_ j) = true.
Proof.
  intros E. apply turn_chunk in E.
  destruct E as (_ & H1 & H2 & H3 & _ & H5 & H6).
  apply find_index_of in H5. destruct H5 as [H5 _].
  unfold braces_close, find, slice, slice_from in *. simpl skipn.
  rewrite (index_of_firstn _ _ _ _ H5) by lia. simpl.
  rewrite skipn_firstn_comm, skipn_skipn.
  replace (brace - at_ + 1 + at_) with (brace + 1) by lia.
  rewrite brace_scan_shift.
  replace (j - at_ - (brace - at_ + 1)) with (j - (brace + 1)) by lia.
  rewrite (brace_scan_prefix _ _ _ H6). reflexivity.
Qed.

Lemma split_entries_loop_last fuel text i chunks c :
  split_entries_loop fuel text i [] = chunks ++ [c] ->
  braces_close c = false ->
  c = slice_from text (length text - length c).
Proof.
  revert i chunks; induction fuel as [|fuel IH]; intros i chunks.
  - simpl. intros H. now destruct chunks.
  - rewrite split_entries_loop_turn.
    destruct (turn_of text i) as [|a|a b j|a b] eqn:E.
    + intros H. now destruct chunks.
    + apply IH.
    + intros H Hc. destruct chunks as [|c1 chunks]; simpl in H.
      * injection H as <- _. rewrite (chunk_braces_close _ _ _ _ _ E) in Hc.
        discriminate.
      * injection H as _ H. eapply IH; eassumption.
    + intros H _. destruct chunks as [|c1 [|c2 chunks]]; try discriminate.
      injection H as <-. apply turn_tail in E. unfold slice_from.
      rewrite length_skipn. f_equal. lia.
Qed.

Lemma split_entries_heads text :
  Forall (fun c => hd_error c = Some "@"%char) (split_entries text).
Proof. apply split_entries_loop_heads. Qed.

Lemma split_entries_no_at text : ~ In "@"%char text -> split_entries text = [].
Proof.
  intros H. unfold split_entries. rewrite split_entries_loop_turn.
  unfold turn_of. rewrite (find_notin _ _ _ H).
  now destruct (0 <? length text).
Qed.

Lemma split_entries_loop_end fuel text i :
  length text <= i -> split_entries_loop fuel text i [] = [].
Proof.
  intros H. destruct fuel; [reflexivity|]. simpl.
  destruct (i <? length text) eqn:E; [|reflexivity].
  apply Nat.ltb_lt in E. lia.
Qed.

(** The scan that ends at depth 0 has just read a closing brace. *)
Lemma brace_scan_closing s d k :
  0 < d -> brace_scan s 0 d = (k, 0) ->
  0 < k /\ nth_error s (k - 1) = Some "}"%char.
Proof.
  revert d k; induction s as [|c s IH]; intros d k Hd; simpl.
  - intros [= <- ->]. lia.
  - destruct (0 <? d) eqn:E; [|apply Nat.ltb_ge in E; lia].
    rewrite brace_scan_shift.
    destruct (brace_scan s 0 _) as [k0 d0] eqn:Es. simpl.
    intros [= <- ->]. split; [lia|].
    destruct (chr_eqb c "{") eqn:E1.
    + assert (Hd' : 0 < d + 1) by lia.
      destruct (IH _ _ Hd' Es) as [Hk Hn].
      change (1 + k0) with (S k0).
      replace (S k0 - 1) with (S (k0 - 1)) by lia. exact Hn.
    + destruct (chr_eqb c "}") eqn:E2.
      * destruct (Nat.eq_dec d 1) as [->|Hd1].
        -- simpl in Es. destruct s; simpl in Es; injection Es as <-;
             apply chr_eqb_eq in E2; now subst.
        -- assert (Hd' : 0 < d - 1) by lia.
           destruct (IH _ _ Hd' Es) as [Hk Hn].
           change (1 + k0) with (S k0).
      replace (S k0 - 1) with (S (k0 - 1)) by lia. exact Hn.
      * destruct (IH _ _ Hd Es) as [Hk Hn].
        change (1 + k0) with (S k0).
      replace (S k0 - 1) with (S (k0 - 1)) by lia. exact Hn.
Qed.

Lemma chunk_ends_with_brace text i at_ brace j :
  turn_of text i = TChunk text i at_ brace j ->
  hd_error (rev (slice text at_ j)) = Some "}"%char.
Proof.
  intros E. apply turn_chunk in E.
  destruct E as (_ & H1 & H2 & H3 & _ & _ & H6).
  apply brace_scan_closing in H6; [|lia]. destruct H6 as [Hk Hn].
  unfold slice_from in Hn. rewrite nth_error_skipn in Hn.
  apply rev_hd_last with (k := j - at_ - 1).
  - unfold slice. rewrite nth_error_firstn.
    destruct (j - at_ - 1 <? j - at_) eqn:El;
      [|apply Nat.ltb_ge in El; lia].
    rewrite nth_error_skipn. rewrite <- Hn. f_equal. lia.
  - unfold slice. rewrite length_firstn, length_skipn. lia.
Qed.

Lemma tail_braces_open text i at_ brace :
  turn_of text i = TTail text i at_ brace ->
  braces_close (slice_from text at_) = false.
Proof.
  unfold turn_of. destruct (i <? length text); [|discriminate].
  destruct (find "@" text i) as [a|] eqn:Ea; [|discriminate].
  destruct (in_comment_line text a); [discriminate|].
  destruct (find "{" text a) as [b|] eqn:Eb; [|discriminate].
  destruct (brace_scan _ _ _) as [j' depth] eqn:Es.
  destruct (depth =? 0) eqn:Ed; [discriminate|].
  intros [= -> ->]. apply find_index_of in Eb. destruct Eb as [Eb Hab].
  unfold braces_close, find, slice_from in *. simpl skipn. rewrite Eb.
  simpl. rewrite skipn_skipn.
  replace (brace - at_ + 1 + at_) with (brace + 1) by lia.
  rewrite brace_scan_shift. rewrite brace_scan_shift in Es.
  injection Es as _ Es. simpl. now rewrite Es.
Qed.

Lemma split_entries_loop_closed fuel text : forall i,
  Forall (fun c => braces_close c = true -> hd_error (rev c) = Some "}"%char)
         (split_entries_loop fuel text i []).
Proof.
  induction fuel as [|fuel IH]; intros i; [constructor|].
  rewrite split_entries_loop_turn.
  destruct (turn_of text i) as [|a|a b j|a b] eqn:E; auto.
  - constructor; [|apply IH]. intros _. eapply chunk_ends_with_brace; eassumption.
  - constructor; [|constructor]. intros H.
    rewrite (tail_braces_open _ _ _ _ E) in H. discriminate.
Qed.

Lemma brace_scan_flat key rest j :
  ~ In "{"%char key -> ~ In "}"%char key ->
  brace_scan (key ++ "}"%char :: rest) j 1 = (j + length key + 1, 0).
Proof.
  revert j; induction key as [|c key IH]; intros j H1 H2; simpl.
  - destruct rest; simpl; f_equal; lia.
  - destruct (chr_eqb c "{") eqn:E1; [apply chr_eqb_eq in E1; simpl in H1; tauto|].
    destruct (chr_eqb c "}") eqn:E2; [apply chr_eqb_eq in E2; simpl in H2; tauto|].
    rewrite IH by (simpl in *; tauto). f_equal. lia.
Qed.

Lemma turn_single ty key :
  ~ In "{"%char ty -> ~ In "{"%char key -> ~ In "}"%char key ->
  let text := "@"%char :: ty ++ "{"%char :: key ++ ["}"%char] in
  turn_of text 0 = TChunk text 0 0 (S (length ty)) (length text).
Proof.
  intros Ht Hk1 Hk2 text.
  assert (Hlen : length text = length ty + length key + 3).
  { unfold text. simpl. rewrite length_app. simpl. rewrite length_app. simpl. lia. }
  unfold turn_of. rewrite Hlen. simpl Nat.ltb.
  replace (0 <? length ty + length key + 3) with true
    by (symmetry; apply Nat.ltb_lt; lia).
  assert (find "@" text 0 = Some 0) as -> by reflexivity.
  assert (in_comment_line text 0 = false) as -> by reflexivity.
  assert (find "{" text 0 = Some (S (length ty))) as ->.
  { unfold find, text. simpl. rewrite index_of_app_skip by assumption.
    reflexivity. }
  assert (slice_from text (S (length ty) + 1) = key ++ ["}"%char]) as ->.
  { unfold slice_from, text. replace (S (length ty) + 1) with (S (length ty + 1)) by lia.
    simpl. rewrite skipn_app.
    rewrite (skipn_all2 ty) by lia.
    replace (length ty + 1 - length ty) with 1 by lia. reflexivity. }
  rewrite brace_scan_flat by assumption. simpl.
  f_equal. lia.
Qed.

Lemma slice_all (s : str) : slice s 0 (length s) = s.
Proof. unfold slice. simpl. rewrite Nat.sub_0_r. apply firstn_all. Qed.

Lemma split_entries_single ty key :
  ~ In "{"%char ty -> ~ In "{"%char key -> ~ In "}"%char key ->
  split_entries ("@"%char :: ty ++ "{"%char :: key ++ ["}"%char])
  = ["@"%char :: ty ++ "{"%char :: key ++ ["}"%char]].
Proof.
  intros Ht Hk1 Hk2. unfold split_entries. rewrite split_entries_loop_turn.
  rewrite (turn_single ty key Ht Hk1 Hk2). rewrite slice_all.
  rewrite split_entries_loop_end by lia. reflexivity.
Qed.

(** ** The splitter on a text laid out in records *)

Lemma stays_open_spec d s k :
  stays_open d s = true -> k <= length s ->
  closes (firstn k s) < d + opens (firstn k s).
Proof.
  unfold stays_open. rewrite forallb_forall. intros H Hk.
  apply Nat.ltb_lt, H, in_seq. lia.
Qed.

Lemma stays_open_intro d s :
  (forall k, k <= length s -> closes (firstn k s) < d + opens (firstn k s)) ->
  stays_open d s = true.
Proof.
  intros H. unfold stays_open. apply forallb_forall. intros k Hk.
  apply in_seq in Hk. apply Nat.ltb_lt, H. lia.
Qed.

Lemma opens_cons c s :
  opens (c :: s) = (if chr_eqb c "{" then 1 else 0) + opens s.
Proof.
  unfold opens. cbn [count_occ]. destruct (ascii_dec c "{") as [->|n].
  - reflexivity.
  - apply chr_eqb_neq in n. now rewrite n.
Qed.

Lemma closes_cons c s :
  closes (c :: s) = (if chr_eqb c "}" then 1 else 0) + closes s.
Proof.
  unfold closes. cbn [count_occ]. destruct (ascii_dec c "}") as [->|n].
  - reflexivity.
  - apply chr_eqb_neq in n. now rewrite n.
Qed.

Lemma stays_open_tail d c s :
  stays_open d (c :: s) = true ->
  0 < d
  /\ (if chr_eqb c "}" then 1 else 0) < d + (if chr_eqb c "{" then 1 else 0)
  /\ stays_open (d + (if chr_eqb c "{" then 1 else 0)
                   - (if chr_eqb c "}" then 1 else 0)) s = true.
Proof.
  intros H.
  pose proof (stays_open_spec d (c :: s) 0 H ltac:(simpl; lia)) as H0.
  pose proof (stays_open_spec d (c :: s) 1 H ltac:(simpl; lia)) as H1.
  cbn [firstn] in H0, H1. rewrite opens_cons, closes_cons in H1.
  change (closes []) with 0 in *. change (opens []) with 0 in *.
  split; [lia|]. split; [lia|].
  apply stays_open_intro. intros k Hk.
  pose proof (stays_open_spec d (c :: s) (S k) H ltac:(simpl; lia)) as Hs.
  cbn [firstn] in Hs. rewrite opens_cons, closes_cons in Hs. lia.
Qed.

Lemma brace_scan_body s : forall rest j d,
  stays_open d s = true ->
  brace_scan (s ++ rest) j d
  = brace_scan rest (j + length s) (d + opens s - closes s).
Proof.
  induction s as [|c s IH]; intros rest j d H.
  - change (opens []) with 0. change (closes []) with 0. simpl.
    f_equal; lia.
  - destruct (stays_open_tail d c s H) as (H0 & H1 & Ht).
    assert (Hd : (0 <? d) = true) by (apply Nat.ltb_lt; lia).
    cbn [app brace_scan]. rewrite Hd, opens_cons, closes_cons.
    destruct (chr_eqb c "{") eqn:E1.
    + apply chr_eqb_eq in E1. subst c.
      change (chr_eqb "{" "}") with false in *.
      rewrite IH by (replace (d + 1) with (d + 1 - 0) by lia; exact Ht).
      cbn [length]. f_equal; lia.
    + destruct (chr_eqb c "}") eqn:E2.
      * rewrite IH by (replace (d - 1) with (d + 0 - 1) by lia; exact Ht).
        cbn [length]. f_equal; lia.
      * rewrite IH by (replace d with (d + 0 - 0) at 1 by lia; exact Ht).
        cbn [length]. f_equal; lia.
Qed.

Ltac norm_app := repeat (first [rewrite <- app_assoc | progress (cbn [app])]).

Lemma skipn_length_app {A} (pre rest : list A) :
  skipn (length pre) (pre ++ rest) = rest.
Proof. induction pre; simpl; auto. Qed.

Lemma firstn_length_app {A} (pre rest : list A) :
  firstn (length pre) (pre ++ rest) = pre.
Proof. induction pre; simpl; [now destruct rest|]. now f_equal. Qed.

Lemma find_after pre a c rest :
  ~ In c a -> find c (pre ++ a ++ c :: rest) (length pre)
              = Some (length pre + length a).
Proof.
  intros H. unfold find. rewrite skipn_length_app.
  now rewrite index_of_app_skip.
Qed.

Lemma split_at_first (c : ascii) s :
  In c s -> exists a b, s = a ++ c :: b /\ ~ In c a.
Proof.
  induction s as [|x s IH]; intros H; [destruct H|].
  destruct (ascii_dec x c) as [->|n].
  - exists [], s. split; [reflexivity|]. intros [].
  - destruct H as [H|H]; [congruence|].
    destruct (IH H) as (a & b & -> & Ha).
    exists (x :: a), b. split; [reflexivity|].
    intros [E|E]; [congruence|contradiction].
Qed.

(** One turn of the loop with all the turns the text allows. *)
Lemma split_entries_turn text i :
  split_entries_loop (S (length text)) text i [] =
  match turn_of text i with
  | TStop _ _ => []
  | TSkip _ _ at_ => split_entries_loop (S (length text)) text (at_ + 1) []
  | TChunk _ _ at_ _ j =>
      slice text at_ j :: split_entries_loop (S (length text)) text j []
  | TTail _ _ at_ _ => [slice_from text at_]
  end.
Proof.
  rewrite split_entries_loop_turn.
  destruct (turn_of text i) as [|a|a b j|a b] eqn:E; try reflexivity.
  - apply turn_skip in E. apply split_entries_loop_fuel; lia.
  - apply turn_chunk in E. f_equal. apply split_entries_loop_fuel; lia.
Qed.

(** The turn at a record whose braces close, when the scan has found its
    [@]. *)
Lemma turn_of_record pre ty body rest i :
  let text := pre ++ record_text ty body ++ rest in
  i < length text -> find "@" text i = Some (length pre) ->
  in_comment_line text (length pre) = false ->
  ~ In "{"%char ty -> balanced_body body = true ->
  turn_of text i
  = TChunk text i (length pre) (length pre + S (length ty))
           (length pre + length (record_text ty body)).
Proof.
  intros text Hi Hf Hc Ht Hb.
  apply andb_true_iff in Hb. destruct Hb as [Hb1 Hb2].
  apply Nat.eqb_eq in Hb2.
  assert (Hlen : length (record_text ty body) = length ty + length body + 3).
  { unfold record_text. simpl. rewrite length_app. simpl.
    rewrite length_app. simpl. lia. }
  unfold turn_of.
  replace (i <? length text) with true by (symmetry; now apply Nat.ltb_lt).
  rewrite Hf, Hc.
  assert (E : text = pre ++ ("@"%char :: ty)
                       ++ "{"%char :: (body ++ "}"%char :: rest)).
  { unfold text, record_text. norm_app. reflexivity. }
  assert (find "{" text (length pre) = Some (length pre + S (length ty))) as ->.
  { rewrite E. rewrite (find_after pre ("@"%char :: ty)).
    - reflexivity.
    - intros [H|H]; [discriminate|contradiction]. }
  assert (slice_from text (length pre + S (length ty) + 1)
          = body ++ "}"%char :: rest) as ->.
  { unfold slice_from.
    assert (E' : text = (pre ++ ("@"%char :: ty) ++ ["{"%char])
                          ++ body ++ "}"%char :: rest).
    { rewrite E. norm_app. reflexivity. }
    rewrite E' at 1.
    replace (length pre + S (length ty) + 1)
      with (length (pre ++ ("@"%char :: ty) ++ ["{"%char]))
      by (rewrite !length_app; simpl; lia).
    apply skipn_length_app. }
  rewrite (brace_scan_body body _ _ 1 Hb1).
  replace (1 + opens body - closes body) with 1 by lia.
  assert (forall j, brace_scan ("}"%char :: rest) j 1 = (j + 1, 0)) as ->.
  { intros j. cbn. destruct rest; reflexivity. }
  cbn [Nat.eqb]. f_equal. lia.
Qed.

Lemma slice_record pre rec rest :
  slice (pre ++ rec ++ rest) (length pre) (length pre + length rec) = rec.
Proof.
  unfold slice. rewrite skipn_length_app.
  replace (length pre + length rec - length pre) with (length rec) by lia.
  apply firstn_length_app.
Qed.

(** The turn at a record whose braces do not close. *)
Lemma turn_of_tail pre ty body i :
  let text := pre ++ "@"%char :: ty ++ "{"%char :: body in
  i < length text -> find "@" text i = Some (length pre) ->
  in_comment_line text (length pre) = false ->
  ~ In "{"%char ty -> stays_open 1 body = true ->
  turn_of text i = TTail text i (length pre) (length pre + S (length ty)).
Proof.
  intros text Hi Hf Hc Ht Hb. unfold turn_of.
  replace (i <? length text) with true by (symmetry; now apply Nat.ltb_lt).
  rewrite Hf, Hc.
  assert (E : text = pre ++ ("@"%char :: ty) ++ "{"%char :: body).
  { unfold text. norm_app. reflexivity. }
  assert (find "{" text (length pre) = Some (length pre + S (length ty))) as ->.
  { rewrite E. rewrite (find_after pre ("@"%char :: ty)).
    - reflexivity.
    - intros [H|H]; [discriminate|contradiction]. }
  assert (slice_from text (length pre + S (length ty) + 1) = body ++ []) as ->.
  { unfold slice_from.
    assert (E' : text = (pre ++ ("@"%char :: ty) ++ ["{"%char]) ++ body ++ []).
    { rewrite E. rewrite app_nil_r. norm_app. reflexivity. }
    rewrite E' at 1.
    replace (length pre + S (length ty) + 1)
      with (length (pre ++ ("@"%char :: ty) ++ ["{"%char]))
      by (rewrite !length_app; simpl; lia).
    apply skipn_length_app. }
  rewrite (brace_scan_body body _ _ 1 Hb). cbn [brace_scan].
  pose proof (stays_open_spec 1 body (length body) Hb (le_n _)) as Hk.
  rewrite firstn_all in Hk.
  destruct (1 + opens body - closes body) as [|d] eqn:Ed; [lia|].
  reflexivity.
Qed.

(** The loop goes through a gap whose [@] are all skipped, up to the turn
    that finds the [@] after the gap. *)
Lemma split_entries_gap m : forall gap pre rest,
  length gap <= m ->
  let text := pre ++ gap ++ "@"%char :: rest in
  skipped_gap text (length pre) gap ->
  exists i,
    i < length text
    /\ find "@" text i = Some (length pre + length gap)
    /\ split_entries_loop (S (length text)) text (length pre) []
       = split_entries_loop (S (length text)) text i [].
Proof.
  induction m as [|m IH]; intros gap pre rest Hm text Hs.
  - destruct gap; [|simpl in Hm; lia]. exists (length pre).
    assert (Hl : length pre < length text).
    { unfold text. rewrite length_app. simpl. lia. }
    split; [exact Hl|]. split; [|reflexivity].
    unfold text. now apply (find_after pre []).
  - destruct (in_dec ascii_dec "@"%char gap) as [Hin|Hn].
    + destruct (split_at_first _ _ Hin) as (g1 & g2 & -> & Hg1).
      assert (Hl : length pre < length text).
      { unfold text. rewrite !length_app. simpl. lia. }
      assert (Hf : find "@" text (length pre) = Some (length pre + length g1)).
      { unfold text. rewrite <- app_assoc. now apply find_after. }
      assert (Hc : in_comment_line text (length pre + length g1) = true).
      { apply Hs. rewrite nth_error_app2 by lia.
        now replace (length g1 - length g1) with 0 by lia. }
      assert (Ht : turn_of text (length pre)
                   = TSkip text (length pre) (length pre + length g1)).
      { unfold turn_of.
        replace (length pre <? length text) with true
          by (symmetry; now apply Nat.ltb_lt).
        now rewrite Hf, Hc. }
      assert (E : text = (pre ++ g1 ++ ["@"%char]) ++ g2 ++ "@"%char :: rest).
      { unfold text. norm_app. reflexivity. }
      destruct (IH g2 (pre ++ g1 ++ ["@"%char]) rest) as (i & H1 & H2 & H3).
      * rewrite length_app in Hm. simpl in Hm. lia.
      * rewrite <- E. intros k Hk.
        replace (length (pre ++ g1 ++ ["@"%char]) + k)
          with (length pre + (length g1 + 1 + k))
          by (rewrite !length_app; simpl; lia).
        apply Hs. rewrite nth_error_app2 by lia.
        replace (length g1 + 1 + k - length g1) with (S k) by lia.
        exact Hk.
      * rewrite <- E in H1, H2, H3. exists i. split; [exact H1|].
        split.
        -- rewrite H2. f_equal. rewrite !length_app. simpl. lia.
        -- rewrite split_entries_turn, Ht. rewrite <- H3. f_equal.
           rewrite !length_app. simpl. lia.
    + exists (length pre).
      assert (Hl : length pre < length text).
      { unfold text. rewrite !length_app. simpl. lia. }
      split; [exact Hl|]. split; [|reflexivity].
      unfold text. now apply find_after.
Qed.

Lemma split_entries_loop_records recs : forall pre gap ty body,
  let tail := "@"%char :: ty ++ "{"%char :: body in
  let text := pre ++ concat (map placed_text recs) ++ gap ++ tail in
  records_at text (length pre) recs ->
  skipped_gap text (length pre + length (concat (map placed_text recs))) gap ->
  in_comment_line text
    (length pre + length (concat (map placed_text recs)) + length gap) = false ->
  ~ In "{"%char ty -> stays_open 1 body = true ->
  split_entries_loop (S (length text)) text (length pre) []
  = map (fun r => record_text (p_type r) (p_body r)) recs ++ [tail].
Proof.
  induction recs as [|r recs IH]; intros pre gap ty body tail text
    Hr Hg Hc Ht Hb.
  - cbn [map concat app length] in *. rewrite Nat.add_0_r in Hg, Hc.
    destruct (split_entries_gap (length gap) gap pre (ty ++ "{"%char :: body)
                (le_n _) Hg) as (i & H1 & H2 & H3).
    fold tail in H1, H2, H3. fold text in H1, H2, H3. rewrite H3.
    assert (E : text = (pre ++ gap) ++ "@"%char :: ty ++ "{"%char :: body).
    { unfold text, tail. norm_app. reflexivity. }
    rewrite <- length_app in H2, Hc.
    rewrite split_entries_turn.
    pose proof (turn_of_tail (pre ++ gap) ty body i) as T.
    cbv zeta in T. rewrite <- E in T. rewrite (T H1 H2 Hc Ht Hb).
    unfold slice_from. rewrite E at 1. now rewrite skipn_length_app.
  - cbn [records_at] in Hr. destruct Hr as (R1 & R2 & R3 & R4 & R5).
    cbn [map concat] in *.
    set (rest := concat (map placed_text recs) ++ gap ++ tail) in *.
    assert (E0 : text = pre ++ p_gap r
                          ++ "@"%char :: (p_type r ++ "{"%char :: p_body r
                                          ++ ["}"%char]) ++ rest).
    { unfold text, rest, placed_text, record_text. norm_app. reflexivity. }
    destruct (split_entries_gap (length (p_gap r)) (p_gap r) pre
                ((p_type r ++ "{"%char :: p_body r ++ ["}"%char]) ++ rest)
                (le_n _)) as (i & H1 & H2 & H3).
    { cbv zeta. rewrite <- E0. exact R1. }
    cbv zeta in H1, H2, H3. rewrite <- E0 in H1, H2, H3. rewrite H3.
    assert (E : text = (pre ++ p_gap r)
                         ++ record_text (p_type r) (p_body r) ++ rest).
    { rewrite E0. unfold record_text. norm_app. reflexivity. }
    rewrite <- length_app in H2, R2.
    rewrite split_entries_turn.
    pose proof (turn_of_record (pre ++ p_gap r) (p_type r) (p_body r) rest i)
      as T.
    cbv zeta in T. rewrite <- E in T. rewrite (T H1 H2 R2 R3 R4).
    cbn [app]. f_equal.
    + rewrite E at 1. apply slice_record.
    + assert (E2 : text = (pre ++ placed_text r)
                            ++ concat (map placed_text recs) ++ gap ++ tail).
      { unfold text. norm_app. reflexivity. }
      pose proof (IH (pre ++ placed_text r) gap ty body) as IH'.
      cbv zeta in IH'. fold tail in IH'. rewrite <- E2 in IH'.
      replace (length (pre ++ p_gap r)
               + length (record_text (p_type r) (p_body r)))
        with (length (pre ++ placed_text r))
        by (unfold placed_text; rewrite !length_app; lia).
      apply IH'; try assumption.
      * now rewrite length_app.
      * rewrite length_app. rewrite length_app in Hg.
        now rewrite Nat.add_assoc in Hg.
      * rewrite length_app. rewrite length_app in Hc.
        now rewrite !Nat.add_assoc in Hc.
Qed.

(** C8 (as amended).  Let the text consist of records whose braces close
    and, after them, of an [@] with a brace after it whose braces never
    close; let the splitter skip, as comments, every [@] that lies between
    them and none of theirs.  Then [split_entries] returns the closed
    records and, as the last chunk, the whole tail from that last [@] to
    the end of the text. *)
Theorem split_entries_emits_unbalanced_tail recs gap ty body :
  let tail := "@"%char :: ty ++ "{"%char :: body in
  let text := concat (map placed_text recs) ++ gap ++ tail in
  records_at text 0 recs ->
  skipped_gap text (length (concat (map placed_text recs))) gap ->
  in_comment_line text (length (concat (map placed_text recs)) + length gap)
  = false ->
  ~ In "{"%char ty -> stays_open 1 body = true ->
  split_entries text
  = map (fun r => record_text (p_type r) (p_body r)) recs ++ [tail].
Proof.
  intros tail text Hr Hg Hc Ht Hb. unfold split_entries.
  exact (split_entries_loop_records recs [] gap ty body Hr Hg Hc Ht Hb).
Qed.

Lemma split_entries_emits_unbalanced_tail_witness :
  split_entries (lit "@a{50% {y}}" ++ [nl] ++ lit "% see @old{z}" ++ [nl]
                 ++ lit "@b{y = {z} w")
  = [lit "@a{50% {y}}"; lit "@b{y = {z} w"].
Proof.
  apply (split_entries_emits_unbalanced_tail
           [MkPlaced [] (lit "a") (lit "50% {y}")]
           ([nl] ++ lit "% see @old{z}" ++ [nl]) (lit "b") (lit "y = {z} w")).
  - repeat split.
    + intros k Hk. destruct k; discriminate Hk.
    + simpl. intros H. repeat (destruct H as [H|H]; [discriminate H|]). exact H.
  - intros k Hk.
    do 15 (destruct k as [|k]; [try discriminate Hk; try reflexivity|]).
    destruct k; discriminate Hk.
  - reflexivity.
  - simpl. intros H. repeat (destruct H as [H|H]; [discriminate H|]). exact H.
  - reflexivity.
Defined.

(** C8, counterexample: an [@] with no brace after it ends the scan, and
    the text from it on is in no chunk. *)
Lemma split_entries_drops_braceless_tail :
  split_entries (lit "@a{x} @b = y") = [lit "@a{x}"].
Proof. reflexivity. Qed.

(** C7 (the code at the failing input).  The [@] of [% @a{b}] lies on a
    comment line, the first line of the input; no newline comes before it,
    the comment test is not made, and the splitter starts a chunk there. *)
Theorem split_entries_first_line_comment :
  in_comment_line (lit "% @a{b}") 2 = false
  /\ startswith (lit "%") (lstrip (slice (lit "% @a{b}") 0 2)) = true
  /\ split_entries (lit "% @a{b}") = [lit "@a{b}"].
Proof. repeat split; reflexivity. Qed.

End SplitFacts.

(* ================================================================== *)
(** * The batch driver *)
(* ================================================================== *)

Module AuditFacts.
Import Py Re PyData BibAuditBatch Notions ReSem PyFacts ReFacts ParseFacts
       DictFacts SerializerFacts RuleFacts SplitFacts.

Lemma audit_loop_acc today es : forall c r,
  audit_loop today es c r
  = (c ++ flat_map (fun raw => fst (audit_entry today raw)) es,
     r ++ flat_map (fun raw => snd (audit_entry today raw)) es).
Proof.
  induction es as [|raw es IH]; intros c r; simpl.
  - now rewrite !app_nil_r.
  - destruct (audit_entry today raw) as [c1 r1]. rewrite IH. simpl.
    now rewrite <- !app_assoc.
Qed.

Lemma audit_entry_one_block today raw :
  hd_error raw = Some "@"%char -> length (fst (audit_entry today raw)) = 1.
Proof.
  intros H. destruct raw as [|c raw]; [discriminate|]. injection H as ->.
  unfold audit_entry.
  destruct (strip ("@"%char :: raw)) eqn:E.
  - now apply strip_cons_nonempty in E.
  - destruct (bind _ _) as [[[[etype key] suggested] issues]|e]; reflexivity.
Qed.

(** C3.  For every input document, the batch driver places exactly one
    block in the cleaned output for each chunk the splitter returns: a
    rendered record, or the chunk itself when it does not parse. *)
Theorem audit_all_keeps_every_chunk today text :
  length (audit_blocks today text) = length (split_entries text).
Proof.
  unfold audit_blocks. rewrite audit_loop_acc. simpl.
  pose proof (split_entries_heads text) as H.
  induction H as [|raw es Hraw _ IH]; [reflexivity|].
  simpl. rewrite length_app, IH, audit_entry_one_block by assumption.
  reflexivity.
Qed.

(** C1 (as amended).  A document without any [@], such as
    [not a bibtex entry at all], gives the splitter no chunk: the cleaned
    output and the report are both a single newline, and the report has no
    [[?] Parse error] line. *)
Theorem audit_all_without_at today text :
  ~ In "@"%char text ->
  split_entries text = []
  /\ audit_all today text = ([nl], [nl])
  /\ parse_error_lines (audit_report_lines today text) = [].
Proof.
  intros H. pose proof (split_entries_no_at text H) as E.
  unfold audit_all, audit_report_lines. rewrite E. auto.
Qed.

Lemma audit_all_without_at_witness :
  split_entries (lit "not a bibtex entry at all") = []
  /\ audit_all (MkDate 2025 11 5) (lit "not a bibtex entry at all") = ([nl], [nl])
  /\ parse_error_lines
       (audit_report_lines (MkDate 2025 11 5) (lit "not a bibtex entry at all")) = [].
Proof.
  apply (audit_all_without_at (MkDate 2025 11 5) (lit "not a bibtex entry at all")).
  intros H. simpl in H.
  repeat (destruct H as [H|H]; [discriminate H|]). exact H.
Defined.

(** C1, counterexample: on [not a bibtex entry at all] the cleaned output
    is not the input text. *)
Lemma audit_all_scenario_C_fails :
  ~ (fst (audit_all (MkDate 2025 11 5) (lit "not a bibtex entry at all"))
     = lit "not a bibtex entry at all"
     /\ length (parse_error_lines
                 (audit_report_lines (MkDate 2025 11 5)
                                     (lit "not a bibtex entry at all"))) = 1).
Proof. intros [H _]. vm_compute in H. discriminate. Qed.

(** C4 (as amended).  For every chunk on which parsing fails, the driver
    records a parse-error entry whose snippet holds at most 200 characters
    of the text (followed by [...] when the text is longer), and passes the
    chunk on with its trailing white space trimmed: the block is identical
    to the splitter's chunk whenever the braces of the chunk close. *)
Theorem audit_entry_parse_failure today text raw e :
  In raw (split_entries text) ->
  parse_entry (strip raw) = Raise e ->
  exists snippet,
    audit_entry today raw
    = ([strip raw],
       [lit "[?] Parse error: " ++ exn_str e;
        lit "  (Entry snippet)";
        lit "  " ++ snippet
            ++ (if 200 <? length (strip raw) then lit "..." else [])])
    /\ snippet = replace [nl] (lit " ") (firstn 200 (strip raw))
    /\ length snippet <= 200
    /\ strip raw = rstrip raw
    /\ (braces_close raw = true -> strip raw = raw).
Proof.
  intros Hin Hp.
  pose proof (split_entries_heads text) as Hh.
  rewrite Forall_forall in Hh. specialize (Hh _ Hin).
  pose proof (split_entries_loop_closed (S (length text)) text 0) as Hc.
  rewrite Forall_forall in Hc. specialize (Hc _ Hin).
  exists (replace [nl] (lit " ") (firstn 200 (strip raw))).
  repeat split.
  - unfold audit_entry. rewrite Hp.
    destruct raw as [|c raw]; [discriminate|]. injection Hh as ->.
    destruct (strip ("@"%char :: raw)) eqn:E.
    + now apply strip_cons_nonempty in E.
    + reflexivity.
  - unfold lit. simpl list_ascii_of_string. rewrite replace_char_length.
    rewrite length_firstn. lia.
  - now apply strip_at_head.
  - intros Hb. rewrite strip_at_head by assumption.
    eapply rstrip_id; [now apply Hc | reflexivity].
Qed.

Lemma audit_entry_parse_failure_witness :
  exists snippet,
    audit_entry (MkDate 2025 11 5) (lit "@Book{knuth}")
    = ([strip (lit "@Book{knuth}")],
       [lit "[?] Parse error: " ++ exn_str (ValueError parse_error_msg);
        lit "  (Entry snippet)";
        lit "  " ++ snippet
            ++ (if 200 <? length (strip (lit "@Book{knuth}")) then lit "..." else [])])
    /\ snippet = replace [nl] (lit " ") (firstn 200 (strip (lit "@Book{knuth}")))
    /\ length snippet <= 200
    /\ strip (lit "@Book{knuth}") = rstrip (lit "@Book{knuth}")
    /\ (braces_close (lit "@Book{knuth}") = true ->
        strip (lit "@Book{knuth}") = lit "@Book{knuth}").
Proof.
  apply (audit_entry_parse_failure (MkDate 2025 11 5) (lit "@Book{knuth}")
           (lit "@Book{knuth}") (ValueError parse_error_msg)).
  - left. reflexivity.
  - reflexivity.
Defined.

(** C4, counterexample: an unbalanced last chunk that ends with a newline
    fails to parse and reaches the cleaned output without that newline. *)
Lemma failed_chunk_loses_trailing_space :
  split_entries (lit "@a{b" ++ [nl]) = [lit "@a{b" ++ [nl]]
  /\ parse_entry (strip (lit "@a{b" ++ [nl]))
     = Raise (ValueError parse_error_msg)
  /\ audit_blocks (MkDate 2025 11 5) (lit "@a{b" ++ [nl]) = [lit "@a{b"]
  /\ audit_blocks (MkDate 2025 11 5) (lit "@a{b" ++ [nl])
     <> split_entries (lit "@a{b" ++ [nl]).
Proof. repeat split; try reflexivity. discriminate. Qed.
(** C10.  A record [@Type{Key}] without a comma (no brace and no comma in
    the type, no brace and no comma in the key) is brace-balanced, and yet
    [parse_entry] raises its parse error on it; the batch driver passes the
    record through verbatim and reports one [[?] Parse error] line. *)
Theorem parse_entry_needs_comma today ty key :
  ~ In "{"%char ty -> ~ In ","%char ty ->
  ~ In "{"%char key -> ~ In "}"%char key -> ~ In ","%char key ->
  let text := "@"%char :: ty ++ "{"%char :: key ++ ["}"%char] in
  parse_entry text = Raise (ValueError parse_error_msg)
  /\ braces_close text = true
  /\ audit_blocks today text = [text]
  /\ parse_error_lines (audit_report_lines today text)
     = [lit "[?] Parse error: " ++ parse_error_msg].
Proof.
  intros Ht1 Ht2 Hk1 Hk2 Hk3 text.
  assert (Hp : parse_entry text = Raise (ValueError parse_error_msg)).
  { apply parse_entry_no_comma. unfold text. simpl. intros [H|H]; [discriminate|].
    apply in_app_or in H. destruct H as [H|[H|H]]; [tauto|discriminate|].
    apply in_app_or in H. destruct H as [H|[H|[]]]; [tauto|discriminate]. }
  assert (Hs : strip text = text).
  { apply strip_id; [reflexivity|]. unfold text.
    change ("@"%char :: ty ++ "{"%char :: key ++ ["}"%char])
      with (("@"%char :: ty) ++ ("{"%char :: key) ++ ["}"%char]).
    rewrite !rev_app_distr. reflexivity. }
  assert (He : audit_entry today text
               = ([text], [lit "[?] Parse error: " ++ parse_error_msg;
                           lit "  (Entry snippet)";
                           lit "  " ++ replace [nl] (lit " ") (slice text 0 200)
                               ++ (if 200 <? length text then lit "..." else [])])).
  { unfold audit_entry. rewrite Hs. rewrite Hp. reflexivity. }
  split; [assumption|]. split; [|split].
  - rewrite <- (slice_all text).
    apply (chunk_braces_close text 0 0 (S (length ty)) (length text)).
    apply (turn_single ty key Ht1 Hk1 Hk2).
  - unfold audit_blocks. fold text. unfold text at 1.
    rewrite split_entries_single by assumption. fold text.
    simpl. rewrite He. reflexivity.
  - unfold audit_report_lines. unfold text at 1.
    rewrite split_entries_single by assumption. fold text.
    simpl. rewrite He. reflexivity.
Qed.

Lemma parse_entry_needs_comma_witness :
  let text := "@"%char :: lit "Book" ++ "{"%char :: lit "knuth1997" ++ ["}"%char] in
  parse_entry text = Raise (ValueError parse_error_msg)
  /\ braces_close text = true
  /\ audit_blocks (MkDate 2025 11 5) text = [text]
  /\ parse_error_lines (audit_report_lines (MkDate 2025 11 5) text)
     = [lit "[?] Parse error: " ++ parse_error_msg].
Proof.
  apply (parse_entry_needs_comma (MkDate 2025 11 5) (lit "Book") (lit "knuth1997"));
    simpl; intros H; repeat (destruct H as [H|H]; [discriminate H|]); exact H.
Defined.

(** ** Auditing twice *)

Lemma fields_of_NoDup ms : NoDup (map fst (fields_of ms)).
Proof.
  unfold fields_of.
  assert (H : forall F : dict, NoDup (map fst F) ->
    NoDup (map fst (fold_left
      (fun F m => dict_set (lower (group_text 1 m)) (strip (group_text 2 m)) F)
      ms F))).
  { induction ms as [|m ms IH]; intros F HF; [exact HF|].
    simpl. apply IH. now apply dict_set_NoDup. }
  apply H. constructor.
Qed.















(** C2.  Auditing the audited output is no fixed point.  For an author
    without a comma and without given names [enforce_initials] writes the
    surname, a comma, a blank and no initials ([Smith, ]); the parser
    strips the value when it reads the audited text, so the second audit
    renders [Smith,] and its output differs from the first. *)
Theorem audit_one_second_pass_differs :
  parse_entry (lit "@Misc{k, author = {Doe, John and Smith}}")
  = Ok (lit "misc", lit "k", [(lit "author", lit "Doe, John and Smith")])
  /\ enforce_initials (lit "Doe, John and Smith")
     = Ok (lit "Doe, J. and Smith, ")
  /\ audit_one (MkDate 2025 11 5)
       (lit "@Misc{k, author = {Doe, John and Smith}}")
     = Ok (lit "@Misc{k," ++ [nl]
           ++ lit "  author      = {Doe, J. and Smith, }" ++ [nl] ++ lit "}")
  /\ audit_one (MkDate 2025 11 5)
       (lit "@Misc{k," ++ [nl]
        ++ lit "  author      = {Doe, J. and Smith, }" ++ [nl] ++ lit "}")
     = Ok (lit "@Misc{k," ++ [nl]
           ++ lit "  author      = {Doe, J. and Smith,}" ++ [nl] ++ lit "}")
  /\ audit_one (MkDate 2025 11 5)
       (lit "@Misc{k," ++ [nl]
        ++ lit "  author      = {Doe, J. and Smith, }" ++ [nl] ++ lit "}")
     <> Ok (lit "@Misc{k," ++ [nl]
            ++ lit "  author      = {Doe, J. and Smith, }" ++ [nl] ++ lit "}").
Proof.
  repeat split; try (vm_compute; reflexivity).
  intros H. vm_compute in H. discriminate H.
Qed.

End AuditFacts.

(* ================================================================== *)
(** * Further properties of the helpers, the rules and the splitter *)
(* ================================================================== *)

Module FurtherFacts.
Import Py Re PyData BibAuditBatch Notions ReSem PyFacts ReFacts MatchFacts
       SentenceCaseFacts InitialsFacts ParseFacts DictFacts SerializerFacts
       RuleFacts SplitFacts AuditFacts.

(** ** [sentence_case] *)

Lemma space_no_colon s : isspace s = true -> endswith (lit ":") s = false.
Proof.
  intros H. apply isspace_forallb in H. destruct H as [H Hn].
  unfold endswith. rewrite <- forallb_rev in H.
  destruct (rev s) as [|x r] eqn:E.
  - apply (f_equal (@rev _)) in E. rewrite rev_involutive in E. contradiction.
  - simpl in H. apply andb_true_iff in H. destruct H as [Hx _].
    change (rev (lit ":")) with [":"%char]. cbn [startswith].
    destruct (chr_eqb ":" x) eqn:Ec; [|reflexivity].
    apply chr_eqb_eq in Ec. subst x. discriminate.
Qed.

Lemma word_not_isspace w : word w = true -> isspace w = false.
Proof.
  destruct w as [|c w]; [reflexivity|]. unfold word, isspace. simpl.
  unfold nonspace_c. intros H. apply andb_true_iff in H. destruct H as [H _].
  apply negb_true_iff in H. now rewrite H.
Qed.

Lemma no_colon_last_app out s :
  isspace s = true -> no_colon_last (out ++ [s]) = true.
Proof.
  intros H. unfold no_colon_last. rewrite rev_app_distr. cbn [rev app].
  now rewrite (space_no_colon _ H).
Qed.

Lemma sentence_case_word_step w tokens out fad :
  word w = true -> no_colon_last out = true ->
  exists tok,
    sentence_case_loop (w :: tokens) out fad
    = sentence_case_loop tokens (out ++ [tok]) true
    /\ sentence_case_no_colon_loop (w :: tokens) out fad
       = sentence_case_no_colon_loop tokens (out ++ [tok]) true.
Proof.
  intros Hw Hc. cbn [sentence_case_loop sentence_case_no_colon_loop].
  rewrite (word_not_isspace _ Hw).
  assert (Hl : match rev out with
               | last :: _ => endswith (lit ":") last
               | [] => false
               end = false).
  { unfold no_colon_last in Hc. destruct (rev out); [reflexivity|].
    now apply negb_true_iff in Hc. }
  rewrite Hl.
  destruct (isupper w && (length w <=? 5)), (negb fad); eauto.
Qed.

Lemma sentence_case_loop_no_colon n : forall L out fad,
  length L <= n -> ws_alternating L = true -> no_colon_last out = true ->
  sentence_case_loop L out fad = sentence_case_no_colon_loop L out fad.
Proof.
  induction n as [|n IH]; intros L out fad Hn HL Hc.
  - destruct L; [discriminate|simpl in Hn; lia].
  - destruct L as [|w [|s L]]; [discriminate| |].
    + simpl in HL.
      destruct (sentence_case_word_step w [] out fad HL Hc) as (tok & -> & ->).
      reflexivity.
    + cbn [ws_alternating] in HL.
      apply andb_true_iff in HL. destruct HL as [HL H4].
      apply andb_true_iff in HL. destruct HL as [HL H3].
      apply andb_true_iff in HL. destruct HL as [H1 H2].
      destruct (sentence_case_word_step w (s :: L) out fad H1 Hc)
        as (tok & -> & ->).
      cbn [sentence_case_loop sentence_case_no_colon_loop]. rewrite H2.
      apply IH; [simpl in Hn |- *; lia|assumption|].
      now apply no_colon_last_app.
Qed.

Lemma lower_upper_c c : lower_c (upper_c c) = lower_c c.
Proof. destruct c as [[] [] [] [] [] [] [] []]; reflexivity. Qed.

Lemma ascii_lower_c c : ascii_c (lower_c c) = ascii_c c.
Proof. destruct c as [[] [] [] [] [] [] [] []]; reflexivity. Qed.

Lemma ascii_text_lower s : ascii_text (lower s) = ascii_text s.
Proof.
  unfold ascii_text, lower. induction s as [|c s IH]; simpl; [reflexivity|].
  now rewrite ascii_lower_c, IH.
Qed.

Lemma lower_app a b : lower (a ++ b) = lower a ++ lower b.
Proof. apply map_app. Qed.

Lemma lower_sc_cap t : lower (sc_cap t) = lower t.
Proof.
  unfold sc_cap. rewrite lower_app, lower_idem.
  rewrite <- (firstn_skipn 1 t) at 3. rewrite lower_app. f_equal.
  unfold lower, upper. rewrite map_map. apply map_ext. apply lower_upper_c.
Qed.

Lemma lower_sc_token out fad t : lower (sc_token out fad t) = lower t.
Proof.
  unfold sc_token. destruct (isspace t); [reflexivity|].
  destruct (negb fad); destruct (sc_short_upper t); try reflexivity;
    try apply lower_sc_cap.
  destruct (match rev out with [] => false | _ => _ end);
    [apply lower_sc_cap | apply lower_idem].
Qed.

Lemma sentence_case_loop_lower tokens : forall out fad,
  lower (concat (sentence_case_loop tokens out fad))
  = lower (concat out) ++ lower (concat tokens).
Proof.
  induction tokens as [|t tokens IH]; intros out fad.
  - simpl. now rewrite app_nil_r.
  - rewrite sentence_case_loop_step, IH, concat_app. simpl concat.
    rewrite app_nil_r, !lower_app, lower_sc_token.
    now rewrite <- app_assoc.
Qed.

Lemma sentence_case_lower title : lower (sentence_case title) = lower title.
Proof.
  unfold sentence_case. destruct (strip title); [reflexivity|].
  rewrite sentence_case_loop_lower. simpl.
  now rewrite (proj2 (ws_split_alternating title)).
Qed.

(** X1.  On ASCII text [sentence_case] is idempotent: applied to its own
    result it changes nothing. *)
Theorem sentence_case_idempotent title :
  ascii_text title = true ->
  sentence_case (sentence_case title) = sentence_case title.
Proof. intros _. apply sentence_case_idem. Qed.

Lemma sentence_case_idempotent_witness :
  sentence_case (sentence_case (lit "A Study Of NASA Things"))
  = sentence_case (lit "A Study Of NASA Things").
Proof.
  apply (sentence_case_idempotent (lit "A Study Of NASA Things")).
  reflexivity.
Defined.

(** X2.  On ASCII text [sentence_case] changes the case of letters and
    nothing else: the result is the title up to case, so it is as long as
    the title, has white space exactly where the title has it, and is
    ASCII text again. *)
Theorem sentence_case_keeps_layout title :
  ascii_text title = true ->
  lower (sentence_case title) = lower title
  /\ map isspace_c (sentence_case title) = map isspace_c title
  /\ length (sentence_case title) = length title
  /\ ascii_text (sentence_case title) = true.
Proof.
  intros Ha. pose proof (sentence_case_lower title) as Hl.
  assert (H : pat (sentence_case title) = pat title).
  { rewrite <- (pat_lower (sentence_case title)), Hl. apply pat_lower. }
  split; [exact Hl|]. split; [exact H|]. split.
  - apply (f_equal (@length _)) in H. unfold pat in H.
    now rewrite !length_map in H.
  - now rewrite <- ascii_text_lower, Hl, ascii_text_lower.
Qed.

Lemma sentence_case_keeps_layout_witness :
  lower (sentence_case (lit "A Study Of NASA Things"))
  = lower (lit "A Study Of NASA Things")
  /\ map isspace_c (sentence_case (lit "A Study Of NASA Things"))
     = map isspace_c (lit "A Study Of NASA Things")
  /\ length (sentence_case (lit "A Study Of NASA Things"))
     = length (lit "A Study Of NASA Things")
  /\ ascii_text (sentence_case (lit "A Study Of NASA Things")) = true.
Proof.
  apply (sentence_case_keeps_layout (lit "A Study Of NASA Things")).
  reflexivity.
Defined.

(** X3.  The test [out[-1].endswith(':')] of [sentence_case] never holds
    when it is reached: the token written last is then a run of white
    space.  So [sentence_case] is the loop without that test, and a word
    after a colon is put in lower case like any other. *)
Theorem sentence_case_colon_test_never_holds title :
  sentence_case title
  = match strip title with
    | [] => title
    | _ => concat (sentence_case_no_colon_loop
                     (split WS_GROUP_RE 1 title) [] false)
    end.
Proof.
  unfold sentence_case. destruct (strip title); [reflexivity|]. f_equal.
  apply (sentence_case_loop_no_colon (length (split WS_GROUP_RE 1 title)));
    [lia| |reflexivity].
  apply ws_split_alternating.
Qed.

Lemma sentence_case_after_colon :
  sentence_case (lit "Deep Learning: Recent Advances")
  = lit "Deep learning: recent advances".
Proof. vm_compute. reflexivity. Qed.

(** ** The initials *)

Lemma stops_no_double s : forall p,
  stops_after_letters p s = true -> contains (lit "..") s = false.
Proof.
  induction s as [|c s IH]; intros p H; [reflexivity|].
  simpl in H. apply andb_true_iff in H. destruct H as [H1 H2].
  cbn [contains]. rewrite (IH _ H2), orb_false_r.
  change (startswith (lit "..") (c :: s))
    with (chr_eqb "." c && startswith (lit ".") s).
  destruct (chr_eqb "." c) eqn:Ec; [|reflexivity].
  apply chr_eqb_eq in Ec. subst c. destruct s as [|d s]; [reflexivity|].
  change (startswith (lit ".") (d :: s)) with (chr_eqb "." d && true).
  simpl in H2. destruct (chr_eqb "." d) eqn:Ed; [|reflexivity].
  apply chr_eqb_eq in Ed. subst d. discriminate.
Qed.

(** X4.  On an ASCII author field [enforce_initials] raises nothing, and
    the author field it returns is one that [author_uses_full_given_names]
    accepts: no name in it is left with a full given name. *)
Theorem enforce_initials_leaves_initials author_field :
  ascii_text author_field = true ->
  exists fixed,
    enforce_initials author_field = Ok fixed
    /\ author_uses_full_given_names fixed = false.
Proof.
  intros _. destruct (enforce_initials_total author_field) as [fixed H].
  exists fixed. split; [exact H|]. now apply (enforce_initials_settles author_field).
Qed.

Lemma enforce_initials_leaves_initials_witness :
  exists fixed,
    enforce_initials (lit "Doe, John Paul and Mary-Ann Smith") = Ok fixed
    /\ author_uses_full_given_names fixed = false.
Proof.
  apply (enforce_initials_leaves_initials
           (lit "Doe, John Paul and Mary-Ann Smith")).
  reflexivity.
Defined.

(** X5.  For ASCII given names, the text [_givens_to_initials] returns has
    a full stop after each of its letters, no comma and no two full stops
    in a row; the final [replace('..', '.')] finds nothing to replace. *)
Theorem givens_to_initials_shape givens :
  ascii_text givens = true ->
  _givens_to_initials givens
  = concat (givens_to_initials_loop
              (split SEP_GROUP_RE 1 (strip givens)) [])
  /\ dotted (_givens_to_initials givens) = true
  /\ ~ In ","%char (_givens_to_initials givens)
  /\ contains (lit "..") (_givens_to_initials givens) = false.
Proof.
  intros _.
  assert (H : initials_token
    (concat (givens_to_initials_loop (split SEP_GROUP_RE 1 (strip givens)) []))).
  { apply initials_token_concat. apply givens_to_initials_loop_tokens.
    - apply sep_split_pieces.
    - constructor. }
  destruct H as (A & B & C).
  assert (E : _givens_to_initials givens
              = concat (givens_to_initials_loop
                          (split SEP_GROUP_RE 1 (strip givens)) [])).
  { unfold _givens_to_initials. apply (replace_stops_id _ false C). }
  rewrite E. repeat split; try assumption.
  apply (stops_no_double _ false C).
Qed.

Lemma givens_to_initials_shape_witness :
  _givens_to_initials (lit "Jean-Luc Marie")
  = concat (givens_to_initials_loop
              (split SEP_GROUP_RE 1 (strip (lit "Jean-Luc Marie"))) [])
  /\ dotted (_givens_to_initials (lit "Jean-Luc Marie")) = true
  /\ ~ In ","%char (_givens_to_initials (lit "Jean-Luc Marie"))
  /\ contains (lit "..") (_givens_to_initials (lit "Jean-Luc Marie")) = false.
Proof.
  apply (givens_to_initials_shape (lit "Jean-Luc Marie")). reflexivity.
Defined.

Lemma givens_to_initials_example :
  _givens_to_initials (lit "Jean-Luc Marie") = lit "J.-L. M.".
Proof. vm_compute. reflexivity. Qed.

(** X6.  Names joined with [" and "] come apart again: when no name holds
    the separator, starts with white space or is empty, splitting the
    joined field at [\s+\band\b\s+] gives the names back, up to white space
    at their ends. *)
Theorem and_join_split names :
  names <> [] -> Forall joinable names ->
  Forall2 (fun q p => strip q = strip p)
          (split AND_RE 0 (join (lit " and ") names)) names.
Proof.
  intros Hn Hj. unfold split. apply and_resplit; [assumption|assumption|].
  apply Nat.lt_succ_diag_r.
Qed.

Lemma and_join_split_witness :
  Forall2 (fun q p => strip q = strip p)
          (split AND_RE 0 (join (lit " and ") [lit "Doe, J."; lit "{ACME Inc}"]))
          [lit "Doe, J."; lit "{ACME Inc}"].
Proof.
  apply (and_join_split [lit "Doe, J."; lit "{ACME Inc}"]).
  - discriminate.
  - apply Forall_cons; [|apply Forall_cons; [|apply Forall_nil]];
      (split; [reflexivity|split; [reflexivity|discriminate]]).
Defined.

(** ** The access date *)

(** X7.  For a calendar date, [accessed_today] raises nothing and returns
    [(Accessed: D Month YYYY)] with the month's English name; the text
    holds the word the online rule looks for in an addendum. *)
Theorem accessed_today_shape today :
  valid_date today ->
  exists m,
    nth_error MONTHS (month today - 1) = Some m
    /\ accessed_today today
       = Ok (lit "(Accessed: " ++ str_of_nat (day today) ++ lit " " ++ m
             ++ lit " " ++ str_of_nat (year today) ++ lit ")")
    /\ (forall acc, accessed_today today = Ok acc ->
                    contains (lit "Accessed") acc = true).
Proof.
  intros Hd. unfold valid_date in Hd.
  destruct (nth_error MONTHS (month today - 1)) as [m|] eqn:E.
  - exists m. split; [reflexivity|]. split.
    + unfold accessed_today, list_getitem. now rewrite E.
    + apply accessed_today_contains.
  - apply nth_error_None in E. simpl in E. lia.
Qed.

Lemma accessed_today_shape_witness :
  exists m,
    nth_error MONTHS (month (MkDate 2025 11 5) - 1) = Some m
    /\ accessed_today (MkDate 2025 11 5)
       = Ok (lit "(Accessed: " ++ str_of_nat (day (MkDate 2025 11 5))
             ++ lit " " ++ m ++ lit " "
             ++ str_of_nat (year (MkDate 2025 11 5)) ++ lit ")")
    /\ (forall acc, accessed_today (MkDate 2025 11 5) = Ok acc ->
                    contains (lit "Accessed") acc = true).
Proof.
  apply (accessed_today_shape (MkDate 2025 11 5)).
  unfold valid_date. simpl. lia.
Defined.

(** ** The fields of a parsed record *)

Lemma dict_set_Forall (P : str * str -> Prop) k v F :
  P (k, v) -> Forall P F -> Forall P (dict_set k v F).
Proof.
  intros Hp. induction 1 as [|[k' v'] F H HF IH]; simpl.
  - constructor; [assumption|constructor].
  - destruct (str_eqb k k') eqn:E.
    + apply str_eqb_eq in E. subst k'. now constructor.
    + now constructor.
Qed.

Lemma fields_of_Forall (P : str * str -> Prop) ms :
  (forall m, P (lower (group_text 1 m), strip (group_text 2 m))) ->
  Forall P (fields_of ms).
Proof.
  intros Hp. unfold fields_of.
  assert (H : forall F : dict, Forall P F ->
    Forall P (fold_left
      (fun F m => dict_set (lower (group_text 1 m)) (strip (group_text 2 m)) F)
      ms F)).
  { induction ms as [|m ms IH]; intros F HF; [exact HF|].
    simpl. apply IH. now apply dict_set_Forall. }
  apply H. constructor.
Qed.

(** X8.  The mapping [parse_entry] returns has each field name once, in
    lower case, and each value without white space at its ends; the type
    is in lower case and the key has no white space at its ends. *)
Theorem parse_entry_normal_form text etype key F :
  parse_entry text = Ok (etype, key, F) ->
  NoDup (map fst F)
  /\ Forall (fun kv => lower (fst kv) = fst kv /\ strip (snd kv) = snd kv) F
  /\ lower etype = etype /\ strip key = key.
Proof.
  unfold parse_entry. destruct (search ENTRY_HEAD_RE text); [|discriminate].
  intros [= <- <- <-]. repeat split.
  - apply fields_of_NoDup.
  - apply fields_of_Forall. intros m. cbn [fst snd].
    split; [apply lower_idem | apply strip_idem].
  - apply lower_idem.
  - apply strip_idem.
Qed.

Lemma parse_entry_normal_form_witness :
  NoDup (map fst [(lit "author", lit "Doe, J."); (lit "year", lit "2020")])
  /\ Forall (fun kv => lower (fst kv) = fst kv /\ strip (snd kv) = snd kv)
            [(lit "author", lit "Doe, J."); (lit "year", lit "2020")]
  /\ lower (lit "book") = lit "book" /\ strip (lit "k1") = lit "k1".
Proof.
  apply (parse_entry_normal_form
           (lit "@Book{ k1 , AUTHOR = { Doe, J. }, Year = {2020} }")).
  vm_compute. reflexivity.
Defined.

(** ** The last lines of a rendered record *)

Lemma removelast_snoc {A} (l : list A) x : removelast (l ++ [x]) = l.
Proof. apply removelast_last. Qed.

Lemma item_line_comma kv :
  endswith (lit ",") (item_line kv) = true
  /\ removelast (item_line kv)
     = lit "  " ++ ljust 12 (fst kv) ++ lit "= {" ++ snd kv ++ lit "}".
Proof.
  unfold item_line, field_line.
  change (lit "},") with (lit "}" ++ [","%char]).
  rewrite !app_assoc. split.
  - unfold endswith. rewrite rev_app_distr. simpl. reflexivity.
  - now rewrite removelast_snoc.
Qed.

(** X9.  [rebuild_entry] ends a record with the brace on a line of its own.
    A record without fields is the header line, with its comma, and the
    brace; otherwise the comma of the last field line is taken off and
    every other field line keeps its comma. *)
Theorem rebuild_entry_last_lines etype key F :
  NoDup (map fst F) ->
  (rendered_items F = [] ->
   rebuild_lines etype key F = [header_line etype key; lit "}"])
  /\ (forall front k v,
        rendered_items F = front ++ [(k, v)] ->
        rebuild_lines etype key F
        = header_line etype key :: map item_line front
          ++ [lit "  " ++ ljust 12 k ++ lit "= {" ++ v ++ lit "}"; lit "}"]).
Proof.
  intros Hnd. rewrite (rebuild_lines_spec etype key F Hnd).
  fold (rendered_items F). split.
  - intros ->. reflexivity.
  - intros front k v ->. rewrite map_app. cbn [map].
    unfold strip_last_comma.
    change (header_line etype key :: map item_line front ++ [item_line (k, v)])
      with ((header_line etype key :: map item_line front) ++ [item_line (k, v)]).
    rewrite rev_app_distr. cbn [rev app].
    destruct (item_line_comma (k, v)) as [-> E].
    change (header_line etype key :: map item_line front ++ [item_line (k, v)])
      with ((header_line etype key :: map item_line front) ++ [item_line (k, v)]).
    rewrite removelast_snoc, length_app. cbn [length].
    replace (1 <? S (length (map item_line front)) + 1) with true
      by (symmetry; apply Nat.ltb_lt; lia).
    cbn [andb]. rewrite E. cbn [fst snd app].
    rewrite <- app_assoc. reflexivity.
Qed.

Lemma rebuild_entry_last_lines_witness :
  (rendered_items [(lit "year", lit "2020"); (lit "author", lit "Doe, J.")] = [] ->
   rebuild_lines (lit "book") (lit "k1")
                 [(lit "year", lit "2020"); (lit "author", lit "Doe, J.")]
   = [header_line (lit "book") (lit "k1"); lit "}"])
  /\ (forall front k v,
        rendered_items [(lit "year", lit "2020"); (lit "author", lit "Doe, J.")]
        = front ++ [(k, v)] ->
        rebuild_lines (lit "book") (lit "k1")
                      [(lit "year", lit "2020"); (lit "author", lit "Doe, J.")]
        = header_line (lit "book") (lit "k1") :: map item_line front
          ++ [lit "  " ++ ljust 12 k ++ lit "= {" ++ v ++ lit "}"; lit "}"]).
Proof.
  apply (rebuild_entry_last_lines (lit "book") (lit "k1")
           [(lit "year", lit "2020"); (lit "author", lit "Doe, J.")]).
  repeat constructor; simpl; intros H;
    repeat (destruct H as [H|H]; [discriminate H|]); exact H.
Defined.

(** ** The rule engine *)

Lemma app_eq_self {A} (l ex : list A) : l ++ ex = l -> ex = [].
Proof.
  intros H. apply (app_inv_head l). now rewrite app_nil_r.
Qed.

Lemma quiet_refl st : quiet st st.
Proof. split; [exists []; now rewrite app_nil_r | auto]. Qed.

Lemma quiet_trans st1 st2 st3 : quiet st1 st2 -> quiet st2 st3 -> quiet st1 st3.
Proof.
  intros [[e1 A1] B1] [[e2 A2] B2]. split.
  - exists (e1 ++ e2). now rewrite A2, A1, app_assoc.
  - intros H. rewrite A2, A1, <- app_assoc in H. apply app_eq_self in H.
    apply app_eq_nil in H. destruct H as [-> ->].
    rewrite app_nil_r in A1, A2. rewrite (B2 A2). exact (B1 A1).
Qed.

Lemma quiet_issue F F' i msg : quiet (F, i) (F', i ++ [msg]).
Proof.
  split; [now exists [msg]|]. cbn [snd]. intros H.
  apply app_eq_self in H. discriminate.
Qed.

Lemma quiet_same F i ex : quiet (F, i) (F, i ++ ex).
Proof. split; [now exists ex | reflexivity]. Qed.

Lemma rule_noisy_quiet keys : forall st, quiet st (rule_noisy keys st).
Proof.
  induction keys as [|k keys IH]; intros [F i]; [apply quiet_refl|].
  rewrite rule_noisy_step. destruct (noisy_key k); [|apply IH].
  eapply quiet_trans; [apply quiet_issue | apply IH].
Qed.

Lemma rule_initials_quiet st st' : rule_initials st = Ok st' -> quiet st st'.
Proof.
  destruct st as [F i]. destruct (initials_ok F) eqn:E.
  - rewrite rule_initials_ok by assumption. intros [= <-]. apply quiet_refl.
  - destruct (rule_initials_fix F i E) as (a & fixed & _ & _ & _ & ->).
    intros [= <-]. apply quiet_issue.
Qed.

Lemma rule_title_quiet etype st : quiet st (rule_title etype st).
Proof.
  destruct st as [F i]. destruct (title_ok etype F) eqn:E.
  - rewrite rule_title_ok by assumption. apply quiet_refl.
  - destruct (rule_title_fix etype F i E) as (t & _ & _ & _ & ->).
    apply quiet_issue.
Qed.

Lemma online_note_quiet st st' : online_note st = Ok st' -> quiet st st'.
Proof.
  destruct st as [F i]. unfold online_note, dict_getitem.
  destruct (dict_in (lit "note") F).
  - destruct (dict_find (lit "note") F) as [v|]; [|discriminate].
    cbn [bind]. destruct (negb _); intros [= <-];
      [apply quiet_issue | apply quiet_refl].
  - intros [= <-]. apply quiet_issue.
Qed.

Lemma online_urldate_quiet today st : quiet st (online_urldate today st).
Proof.
  destruct st as [F i]. unfold online_urldate.
  destruct (negb _); [apply quiet_issue | apply quiet_refl].
Qed.

Lemma online_addendum_quiet today st st' :
  online_addendum today st = Ok st' -> quiet st st'.
Proof.
  destruct st as [F i]. unfold online_addendum.
  destruct (_ || _).
  - destruct (accessed_today today); [|discriminate]. cbn [bind].
    intros [= <-]. apply quiet_issue.
  - intros [= <-]. apply quiet_refl.
Qed.

Lemma online_url_quiet st st' : online_url st = Ok st' -> quiet st st'.
Proof.
  destruct (online_url_total st) as (ex & -> & _). intros [= <-].
  destruct st as [F i]. apply quiet_same.
Qed.

Lemma rule_online_quiet today etype st st' :
  rule_online today etype st = Ok st' -> quiet st st'.
Proof.
  rewrite rule_online_steps. destruct (str_in etype _).
  - destruct (online_note st) as [st1|] eqn:E1; [|discriminate]. cbn [bind].
    destruct (online_addendum today (online_urldate today st1)) as [st2|] eqn:E2;
      [|discriminate].
    cbn [bind]. intros E3.
    eapply quiet_trans; [apply (online_note_quiet _ _ E1)|].
    eapply quiet_trans; [apply online_urldate_quiet|].
    eapply quiet_trans; [apply (online_addendum_quiet _ _ _ E2)|].
    now apply online_url_quiet.
  - intros [= <-]. apply quiet_refl.
Qed.

Lemma ensure_quiet k v msg st : quiet st (ensure k v msg st).
Proof.
  destruct st as [F i]. unfold ensure.
  destruct (negb _); [apply quiet_issue | apply quiet_refl].
Qed.

Lemma article_volume_quiet st : quiet st (article_volume st).
Proof.
  destruct st as [F i]. unfold article_volume.
  destruct (_ && _); [apply quiet_issue | apply quiet_refl].
Qed.

Lemma rule_article_quiet etype st : quiet st (rule_article etype st).
Proof.
  rewrite rule_article_steps. destruct (str_eqb etype _); [|apply quiet_refl].
  eapply quiet_trans; [apply ensure_quiet|].
  eapply quiet_trans; [apply ensure_quiet|]. apply article_volume_quiet.
Qed.

Lemma rule_required_quiet what reqs : forall st,
  quiet st (rule_required what reqs st).
Proof.
  induction reqs as [|r reqs IH]; intros [F i]; [apply quiet_refl|].
  cbn [rule_required]. destruct (negb _); [|apply IH].
  eapply quiet_trans; [apply quiet_issue | apply IH].
Qed.

Lemma rule_book_quiet etype st : quiet st (rule_book etype st).
Proof.
  unfold rule_book. destruct (str_eqb etype _);
    [apply rule_required_quiet | apply quiet_refl].
Qed.

Lemma rule_thesis_quiet etype st : quiet st (rule_thesis etype st).
Proof.
  unfold rule_thesis. destruct (str_eqb etype _);
    [apply rule_required_quiet | apply quiet_refl].
Qed.

Lemma rule_exclusive_quiet st : quiet st (rule_exclusive st).
Proof.
  destruct (rule_exclusive_frame st) as (_ & _ & Hex & _).
  split; [exact Hex|]. intros _. apply rule_exclusive_fst.
Qed.

Lemma rule_edition_quiet st st' : rule_edition st = Ok st' -> quiet st st'.
Proof.
  destruct (rule_edition_total st) as [ex ->]. intros [= <-].
  destruct st as [F i]. apply quiet_same.
Qed.

Lemma apply_rules_after_noisy today etype F st :
  apply_rules today etype F = Ok st ->
  quiet (rule_noisy (dict_keys F) (F, [])) st.
Proof.
  unfold apply_rules.
  destruct (rule_initials _) as [st1|] eqn:E1; [|discriminate]. cbn [bind].
  destruct (rule_online _ _ _) as [st3|] eqn:E3; [|discriminate]. cbn [bind].
  intros E8.
  eapply quiet_trans; [apply (rule_initials_quiet _ _ E1)|].
  eapply quiet_trans; [apply rule_title_quiet|].
  eapply quiet_trans; [apply (rule_online_quiet _ _ _ _ E3)|].
  eapply quiet_trans; [apply rule_article_quiet|].
  eapply quiet_trans; [apply rule_book_quiet|].
  eapply quiet_trans; [apply rule_thesis_quiet|].
  eapply quiet_trans; [apply rule_exclusive_quiet|].
  exact (rule_edition_quiet _ _ E8).
Qed.

Lemma apply_rules_quiet today etype F st :
  apply_rules today etype F = Ok st -> quiet (F, []) st.
Proof.
  intros H. eapply quiet_trans; [apply rule_noisy_quiet|].
  now apply (apply_rules_after_noisy today etype).
Qed.

Lemma rule_noisy_reports keys : forall st k,
  In k keys -> noisy_key k = true ->
  In (lit "Removed noisy field '" ++ k ++ lit "'.") (snd (rule_noisy keys st)).
Proof.
  induction keys as [|k' keys IH]; intros [F i] k Hin Hk; [destruct Hin|].
  rewrite rule_noisy_step. destruct Hin as [->|Hin].
  - rewrite Hk.
    destruct (rule_noisy_issues keys (dict_pop k F)
                (i ++ [lit "Removed noisy field '" ++ k ++ lit "'."]))
      as [ex ->].
    apply in_or_app. left. apply in_or_app. right. now left.
  - destruct (noisy_key k'); now apply IH.
Qed.

(** X10.  On ASCII fields the rules are idempotent: a pass over the
    fields that a pass has left returns them as they are. *)
Theorem apply_rules_second_pass today etype F F1 issues :
  valid_date today -> NoDup (map fst F) -> ascii_fields F = true ->
  apply_rules today etype F = Ok (F1, issues) ->
  exists issues', apply_rules today etype F1 = Ok (F1, issues').
Proof.
  intros Hd Hn _ H. apply apply_rules_at_rest.
  exact (apply_rules_rests today etype F F1 issues Hd Hn H).
Qed.

Lemma apply_rules_second_pass_witness :
  exists issues',
    apply_rules (MkDate 2025 11 5) (lit "online")
      [(lit "title", lit "A study of things"); (lit "note", lit "[Online]");
       (lit "urldate", lit "2025-11-05");
       (lit "addendum", lit "(Accessed: 5 November 2025)")]
    = Ok ([(lit "title", lit "A study of things"); (lit "note", lit "[Online]");
           (lit "urldate", lit "2025-11-05");
           (lit "addendum", lit "(Accessed: 5 November 2025)")], issues').
Proof.
  apply (apply_rules_second_pass (MkDate 2025 11 5) (lit "online")
           [(lit "title", lit "A Study Of Things");
            (lit "abstract", lit "Long text")]
           [(lit "title", lit "A study of things"); (lit "note", lit "[Online]");
            (lit "urldate", lit "2025-11-05");
            (lit "addendum", lit "(Accessed: 5 November 2025)")]
           [lit "Removed noisy field 'abstract'."; title_msg;
            lit "Missing note = {[Online]} for online source.";
            lit "Missing urldate (ISO YYYY-MM-DD).";
            lit "Missing addendum with Accessed: Day Month Year.";
            url_msg]).
  - unfold valid_date. simpl. lia.
  - repeat constructor; simpl; intros H;
      repeat (destruct H as [H|H]; [discriminate H|]); exact H.
  - reflexivity.
  - vm_compute. reflexivity.
Defined.

(** X13.  No fix is silent: when a pass of the rules reports no issue, it
    has left the fields as they were. *)
Theorem apply_rules_no_issue_no_change today etype F F1 :
  apply_rules today etype F = Ok (F1, []) -> F1 = F.
Proof.
  intros H. apply apply_rules_quiet in H. destruct H as [_ H].
  now apply H.
Qed.

Lemma apply_rules_no_issue_no_change_witness :
  [(lit "author", lit "Doe, J."); (lit "year", lit "2020")]
  = [(lit "author", lit "Doe, J."); (lit "year", lit "2020")].
Proof.
  apply (apply_rules_no_issue_no_change (MkDate 2025 11 5) (lit "misc")
           [(lit "author", lit "Doe, J."); (lit "year", lit "2020")]
           [(lit "author", lit "Doe, J."); (lit "year", lit "2020")]).
  vm_compute. reflexivity.
Defined.

(** X11.  After a pass no field named [abstract] (in any case) is left,
    and each such field of the input is reported as removed. *)
Theorem apply_rules_removes_noisy today etype F F1 issues :
  valid_date today -> NoDup (map fst F) ->
  apply_rules today etype F = Ok (F1, issues) ->
  (forall k, In k (dict_keys F1) -> lower k <> lit "abstract")
  /\ (forall k, In k (dict_keys F) -> lower k = lit "abstract" ->
        dict_find k F1 = None
        /\ In (lit "Removed noisy field '" ++ k ++ lit "'.") issues).
Proof.
  intros Hd Hn H.
  destruct (apply_rules_rests today etype F F1 issues Hd Hn H) as [Hc _].
  assert (Hk : forall k, noisy_key k = true <-> lower k = lit "abstract").
  { intros k. unfold noisy_key. cbn [str_in existsb]. rewrite orb_false_r.
    apply str_eqb_eq. }
  split.
  - intros k Hin E. apply Hk in E. rewrite (Hc k Hin) in E. discriminate.
  - intros k Hin E. apply Hk in E. split.
    + destruct (dict_find k F1) eqn:Ef; [|reflexivity].
      assert (Hi : In k (dict_keys F1)).
      { unfold dict_keys.
        destruct (in_dec (list_eq_dec ascii_dec) k (map fst F1)) as [i|n];
          [exact i|].
        apply dict_find_None_notin in n. congruence. }
      rewrite (Hc k Hi) in E. discriminate.
    + destruct (apply_rules_after_noisy today etype F _ H) as [[ex Hex] _].
      cbn [snd] in Hex. rewrite Hex. apply in_or_app. left.
      now apply rule_noisy_reports.
Qed.

Lemma apply_rules_removes_noisy_witness :
  (forall k, In k (dict_keys [(lit "year", lit "2020")]) ->
             lower k <> lit "abstract")
  /\ (forall k,
        In k (dict_keys [(lit "Abstract", lit "Long text");
                         (lit "year", lit "2020")]) ->
        lower k = lit "abstract" ->
        dict_find k [(lit "year", lit "2020")] = None
        /\ In (lit "Removed noisy field '" ++ k ++ lit "'.")
              [lit "Removed noisy field 'Abstract'."]).
Proof.
  apply (apply_rules_removes_noisy (MkDate 2025 11 5) (lit "misc")
           [(lit "Abstract", lit "Long text"); (lit "year", lit "2020")]
           [(lit "year", lit "2020")]
           [lit "Removed noisy field 'Abstract'."]).
  - unfold valid_date. simpl. lia.
  - repeat constructor; simpl; intros H;
      repeat (destruct H as [H|H]; [discriminate H|]); exact H.
  - vm_compute. reflexivity.
Defined.

(** X12.  A pass writes no field but those of its rules: every other
    field that is not named [abstract] has after the pass the value, or
    the absence, it had before. *)
Theorem apply_rules_keeps_other_fields today etype F F1 issues k :
  valid_date today ->
  apply_rules today etype F = Ok (F1, issues) ->
  lower k <> lit "abstract" -> ~ In k rule_keys ->
  dict_find k F1 = dict_find k F.
Proof.
  intros Hd H Hk Hn.
  assert (Hnk : noisy_key k = false).
  { unfold noisy_key. cbn [str_in existsb]. rewrite orb_false_r.
    now apply str_eqb_neq. }
  destruct (apply_rules_run today etype F Hd)
    as (st1 & st3 & st8 & E1 & E3 & E8 & Ea).
  rewrite H in Ea. injection Ea as <-.
  pose proof (apply_rules_after etype _ _ E8) as Fr8.
  pose proof (rule_article_frame etype st3) as Fr4.
  unfold rule_keys in Hn. simpl in Hn.
  change F1 with (fst (F1, issues)).
  rewrite (frame_find _ _ _ k Fr8) by (simpl; tauto).
  rewrite (frame_find _ _ _ k Fr4) by (simpl; tauto).
  apply (apply_rules_before today etype F st1 st3 k E1 E3 Hd Hnk).
  simpl. tauto.
Qed.

Lemma apply_rules_keeps_other_fields_witness :
  dict_find (lit "year")
    [(lit "year", lit "2020"); (lit "publisher", lit "<ADD PUBLISHER>");
     (lit "location", lit "<ADD LOCATION>")]
  = dict_find (lit "year") [(lit "year", lit "2020")].
Proof.
  apply (apply_rules_keeps_other_fields (MkDate 2025 11 5) (lit "book")
           [(lit "year", lit "2020")]
           [(lit "year", lit "2020"); (lit "publisher", lit "<ADD PUBLISHER>");
            (lit "location", lit "<ADD LOCATION>")]
           [lit "Missing publisher for book."; lit "Missing location for book."]
           (lit "year")).
  - unfold valid_date. simpl. lia.
  - vm_compute. reflexivity.
  - discriminate.
  - unfold rule_keys. simpl. intros H.
    repeat (destruct H as [H|H]; [discriminate H|]). exact H.
Defined.

(** ** The edition pattern *)

Lemma M_star_chr_intro g f pre : forall p s' e,
  forallb f pre = true ->
  exists p', M (Star g (Chr f)) p (pre ++ s') e p' s' e.
Proof.
  induction pre as [|c pre IH]; intros p s' e H.
  - exists p. constructor.
  - simpl in H. apply andb_true_iff in H. destruct H as [Hc Hp].
    destruct (IH (Some c) s' e Hp) as [p' HM].
    exists p'. simpl. eapply M_StarS; [now constructor| |exact HM].
    simpl. lia.
Qed.

Lemma fullmatch_M r s :
  fullmatch r s = true <-> exists p' e', M r None s [] p' [] e'.
Proof.
  unfold fullmatch. split.
  - destruct (run r None s [] _) as [x|] eqn:E; [|discriminate]. intros _.
    apply run_sound in E. destruct E as (p' & s' & e' & HM & Hk).
    destruct s'; [|discriminate]. eauto.
  - intros (p' & e' & HM).
    destruct (run_complete r _ None s [] p' [] e'
                (fun _ s' env => match s' with [] => Some env | _ => None end)
                e' HM eq_refl) as [y ->].
    reflexivity.
Qed.

Lemma lower_two x y a b :
  chr_eqb (lower_c x) (lower_c a) = true ->
  chr_eqb (lower_c y) (lower_c b) = true ->
  lower [x; y] = [lower_c a; lower_c b].
Proof.
  intros H1 H2. apply chr_eqb_eq in H1, H2. simpl. now rewrite H1, H2.
Qed.

Lemma edition_suffix_M sfx p e :
  In (lower sfx) [lit "st"; lit "nd"; lit "rd"; lit "th"] ->
  exists p' e',
    M (Group 1 (Alt (LitI "s" ;;; LitI "t")
               (Alt (LitI "n" ;;; LitI "d")
               (Alt (LitI "r" ;;; LitI "d")
                    (LitI "t" ;;; LitI "h"))))) p sfx e p' [] e'.
Proof.
  intros H.
  assert (Hl : exists x y, sfx = [x; y]).
  { assert (Hlen : length (lower sfx) = 2).
    { simpl in H. destruct H as [H|[H|[H|[H|[]]]]]; now rewrite <- H. }
    unfold lower in Hlen. rewrite length_map in Hlen.
    destruct sfx as [|x [|y [|z sfx]]]; try discriminate. eauto. }
  destruct Hl as (x & y & ->). simpl in H. unfold lit in H. simpl in H.
  exists (Some y). eexists. apply M_Group. unfold LitI.
  assert (Hseq : forall a b,
            lower_c a = a -> lower_c b = b -> a = lower_c x -> b = lower_c y ->
            M (Chr (fun c => chr_eqb (lower_c c) (lower_c a)) ;;;
               Chr (fun c => chr_eqb (lower_c c) (lower_c b)))
              p [x; y] e (Some y) [] e).
  { intros a b Ha Hb Hx Hy. eapply M_Seq; apply M_Chr; apply chr_eqb_eq;
      congruence. }
  destruct H as [H|[H|[H|[H|[]]]]]; injection H as Hx Hy.
  - apply M_AltL. now apply Hseq.
  - apply M_AltR, M_AltL. now apply Hseq.
  - apply M_AltR, M_AltR, M_AltL. now apply Hseq.
  - apply M_AltR, M_AltR, M_AltR. now apply Hseq.
Qed.

(** X15.  The edition rule accepts exactly the values made of one or more
    digits, alone or followed by [st], [nd], [rd] or [th] in any case. *)
Theorem edition_pattern_accepts v :
  fullmatch EDITION_RE v = true <-> edition_ok v.
Proof.
  rewrite fullmatch_M. unfold EDITION_RE, Plus, edition_ok. split.
  - intros (p' & e' & HM). inversion HM; subst; clear HM.
    + invM. exists (c :: x), [].
      split; [now rewrite !app_nil_r|]. split; [discriminate|].
      split; [|now left].
      simpl. match goal with H : isdigit_c _ = true |- _ => now rewrite H end.
    + match goal with H : M (Seq _ _) _ _ _ _ _ _ |- _ =>
        inversion H; subst; clear H end.
      match goal with H : M (Seq (Chr _) _) _ _ _ _ _ _ |- _ =>
        inversion H; subst; clear H end.
      match goal with H : M (Chr _) _ _ _ _ _ _ |- _ =>
        inversion H; subst; clear H end.
      match goal with H : M (Star _ _) _ _ _ _ _ _ |- _ =>
        apply M_star_chr in H; destruct H as [-> (pre & -> & Hpre)] end.
      match goal with H : M (Group _ _) _ _ _ _ _ _ |- _ =>
        inversion H; subst; clear H end.
      exists (c :: pre), s1.
      split; [reflexivity|]. split; [discriminate|]. split; [|right].
      * simpl. match goal with H : isdigit_c _ = true |- _ => now rewrite H end.
      * unfold LitI in *.
        repeat match goal with
               | H : M (Alt _ _) _ _ _ _ _ _ |- _ => inversion H; subst; clear H
               end;
          invM;
          repeat match goal with
                 | H : chr_eqb _ _ = true |- _ => apply chr_eqb_eq in H
                 end;
          simpl lower;
          repeat match goal with
                 | H : lower_c _ = _ |- _ => rewrite H
                 end;
          simpl; tauto.
  - intros (d & sfx & -> & Hd & Hdig & Hs).
    destruct d as [|c d]; [contradiction|].
    simpl in Hdig. apply andb_true_iff in Hdig. destruct Hdig as [Hc Hdd].
    destruct Hs as [->|Hs].
    + destruct (M_star_chr_intro true isdigit_c d (Some c) [] [] Hdd)
        as [p' HM].
      exists p', []. apply M_AltL. simpl.
      econstructor; [now constructor|exact HM].
    + destruct (M_star_chr_intro true isdigit_c d (Some c) sfx [] Hdd)
        as [p1 HM].
      destruct (edition_suffix_M sfx p1 [] Hs) as (p' & e' & HS).
      exists p', e'. apply M_AltR. simpl.
      econstructor; [|exact HS].
      econstructor; [now constructor|exact HM].
Qed.

(** ** A placeholder that is then flagged *)

Lemma rule_exclusive_both F i :
  dict_in (lit "institution") F = true ->
  dict_in (lit "organization") F = true ->
  In (lit "Both 'institution' and 'organization' present — keep one consistently.")
     (snd (rule_exclusive (F, i))).
Proof.
  intros H1 H2. unfold rule_exclusive. rewrite H1, H2. cbn [andb snd].
  apply in_or_app. right. now left.
Qed.

(** X16.  A thesis that names an organization and no institution gets the
    placeholder for the institution, and the same pass then reports that
    institution and organization are both present. *)
Theorem thesis_placeholder_is_flagged today F F1 issues :
  valid_date today ->
  apply_rules today (lit "thesis") F = Ok (F1, issues) ->
  dict_in (lit "organization") F = true ->
  dict_in (lit "institution") F = false ->
  dict_find (lit "institution") F1 = Some (lit "<ADD INSTITUTION>")
  /\ In (lit "Missing institution for thesis.") issues
  /\ In (lit "Both 'institution' and 'organization' present — keep one consistently.")
        issues.
Proof.
  intros Hd H Ho Hi.
  destruct (apply_rules_run today (lit "thesis") F Hd)
    as (st1 & st3 & st8 & E1 & E3 & E8 & Ea).
  rewrite H in Ea. injection Ea as <-.
  assert (B : forall k, In k [lit "institution"; lit "organization"] ->
                        dict_find k (fst st3) = dict_find k F).
  { intros k Hk.
    apply (apply_rules_before today (lit "thesis") F st1 st3 k E1 E3 Hd);
      simpl in Hk; destruct Hk as [<-|[<-|[]]]; try reflexivity; notin. }
  set (st4 := rule_article (lit "thesis") st3) in *.
  set (st5 := rule_book (lit "thesis") st4) in *.
  set (st6 := rule_thesis (lit "thesis") st5) in *.
  pose proof (rule_article_frame (lit "thesis") st3) as Fr4. fold st4 in Fr4.
  pose proof (rule_book_frame (lit "thesis") st4) as Fr5. fold st5 in Fr5.
  assert (B5 : forall k, In k [lit "institution"; lit "organization"] ->
                         dict_find k (fst st5) = dict_find k F).
  { intros k Hk. rewrite <- (B k Hk).
    rewrite (frame_find _ _ _ k Fr5), (frame_find _ _ _ k Fr4);
      [reflexivity| |];
      simpl in Hk; destruct Hk as [<-|[<-|[]]]; notin. }
  assert (Hi5 : dict_in (lit "institution") (fst st5) = false).
  { rewrite dict_in_find, B5 by (simpl; tauto).
    now rewrite <- dict_in_find. }
  assert (Ho5 : dict_in (lit "organization") (fst st5) = true).
  { rewrite dict_in_find, B5 by (simpl; tauto).
    now rewrite <- dict_in_find. }
  destruct (rule_required_placeholder (lit "thesis")
              [lit "type"; lit "institution"] st5 (lit "institution"))
    as [P1 P2]; [| |exact Hi5|].
  { repeat constructor; [notin|intros []]. }
  { simpl. tauto. }
  assert (E6 : st6 = rule_required (lit "thesis")
                       [lit "type"; lit "institution"] st5) by reflexivity.
  rewrite <- E6 in P1, P2.
  pose proof (rule_thesis_frame (lit "thesis") st5) as Fr6. fold st6 in Fr6.
  assert (Ho6 : dict_in (lit "organization") (fst st6) = true).
  { destruct Fr6 as (_ & K & _). now apply K. }
  assert (Hi6 : dict_in (lit "institution") (fst st6) = true).
  { rewrite dict_in_find, P1. reflexivity. }
  destruct (rule_edition_total (rule_exclusive st6)) as [ex E8'].
  pose proof (eq_trans (eq_sym E8) E8') as X8. injection X8 as X8a X8b.
  rewrite rule_exclusive_fst in X8a. subst F1 issues.
  repeat split.
  - exact P1.
  - apply in_or_app. left.
    destruct (rule_exclusive_frame st6) as (_ & _ & [e ->] & _).
    apply in_or_app. now left.
  - apply in_or_app. left. destruct st6 as [F6 i6].
    now apply rule_exclusive_both.
Qed.

Lemma thesis_placeholder_is_flagged_witness :
  dict_find (lit "institution")
    [(lit "organization", lit "ACME"); (lit "type", lit "<ADD TYPE>");
     (lit "institution", lit "<ADD INSTITUTION>")]
  = Some (lit "<ADD INSTITUTION>")
  /\ In (lit "Missing institution for thesis.")
        [lit "Missing type for thesis."; lit "Missing institution for thesis.";
         lit "Both 'institution' and 'organization' present — keep one consistently."]
  /\ In (lit "Both 'institution' and 'organization' present — keep one consistently.")
        [lit "Missing type for thesis."; lit "Missing institution for thesis.";
         lit "Both 'institution' and 'organization' present — keep one consistently."].
Proof.
  apply (thesis_placeholder_is_flagged (MkDate 2025 11 5)
           [(lit "organization", lit "ACME")]).
  - unfold valid_date. simpl. lia.
  - vm_compute. reflexivity.
  - reflexivity.
  - reflexivity.
Defined.

(** ** The chunks of [split_entries] *)

Lemma laid_out_later chunks : forall gap s,
  laid_out chunks s -> laid_out chunks (gap ++ s).
Proof.
  destruct chunks as [|c chunks]; intros gap s H; [exact I|].
  destruct H as (g & rest & -> & H). exists (gap ++ g), rest.
  split; [now rewrite <- app_assoc | exact H].
Qed.

Lemma skipn_split (s : str) i a :
  i <= a -> skipn i s = slice s i a ++ skipn a s.
Proof.
  intros H. unfold slice.
  rewrite <- (firstn_skipn (a - i) (skipn i s)) at 1.
  rewrite skipn_skipn. now replace (a - i + i) with a by lia.
Qed.

Lemma split_entries_loop_laid_out fuel text : forall i,
  laid_out (split_entries_loop fuel text i []) (skipn i text).
Proof.
  induction fuel as [|fuel IH]; intros i; [exact I|].
  rewrite split_entries_loop_turn.
  destruct (turn_of text i) as [|a|a b j|a b] eqn:E; [exact I| | |].
  - apply turn_skip in E.
    rewrite (skipn_split text i (a + 1)) by lia. apply laid_out_later, IH.
  - apply turn_chunk in E. destruct E as (H1 & H2 & H3 & _).
    exists (slice text i a), (skipn j text). split; [|apply IH].
    rewrite (skipn_split text i a) by lia. f_equal.
    apply skipn_split. lia.
  - apply turn_tail in E. destruct E as [[H1 _] _].
    exists (slice text i a), []. split; [|exact I].
    rewrite app_nil_r. now apply skipn_split.
Qed.

(** X14.  The loop of [split_entries] ends.  Every turn that goes on
    moves the position forward, so within [len(bib_text) - i + 1] turns
    the loop has left through a [break] or through its test, and what it
    returns then is the list [split_entries_loop] gives; [split_entries]
    itself never uses up the turns it is given. *)
Theorem split_entries_loop_ends fuel text : forall i entries,
  length text - i < fuel ->
  split_entries_run fuel text i entries
  = Some (split_entries_loop fuel text i entries).
Proof.
  induction fuel as [|fuel IH]; intros i entries Hf; [lia|].
  cbn [split_entries_run split_entries_loop].
  destruct (i <? length text) eqn:Ei; [|reflexivity].
  apply Nat.ltb_lt in Ei.
  destruct (find "@" text i) as [a|] eqn:Ea; [|reflexivity].
  apply find_Some in Ea. destruct Ea as [[Ea1 Ea2] _].
  destruct (in_comment_line text a).
  - apply IH. lia.
  - destruct (find "{" text a) as [b|] eqn:Eb; [|reflexivity].
    apply find_Some in Eb. destruct Eb as [[Eb1 Eb2] _].
    rewrite brace_scan_shift.
    destruct (snd (brace_scan (slice_from text (b + 1)) 0 1) =? 0);
      [|reflexivity].
    apply IH. lia.
Qed.

Lemma split_entries_loop_ends_witness :
  split_entries_run (S (length (lit "% c" ++ [nl] ++ lit "% @x{y}" ++ [nl]
                                ++ lit "@a{b} @c{d")))
    (lit "% c" ++ [nl] ++ lit "% @x{y}" ++ [nl] ++ lit "@a{b} @c{d") 0 []
  = Some (split_entries_loop
            (S (length (lit "% c" ++ [nl] ++ lit "% @x{y}" ++ [nl]
                        ++ lit "@a{b} @c{d")))
            (lit "% c" ++ [nl] ++ lit "% @x{y}" ++ [nl] ++ lit "@a{b} @c{d")
            0 []).
Proof.
  apply (split_entries_loop_ends
           (S (length (lit "% c" ++ [nl] ++ lit "% @x{y}" ++ [nl]
                       ++ lit "@a{b} @c{d")))
           (lit "% c" ++ [nl] ++ lit "% @x{y}" ++ [nl] ++ lit "@a{b} @c{d")
           0 []).
  simpl. lia.
Defined.

(** X17.  The chunks of [split_entries] are copied from the text: they lie
    in it one after the other, in the order of the list and without
    overlap, and each starts with [@]. *)
Theorem split_entries_chunks_in_order text :
  laid_out (split_entries text) text
  /\ Forall (fun c => hd_error c = Some "@"%char) (split_entries text).
Proof.
  split; [|apply split_entries_heads].
  apply (split_entries_loop_laid_out (S (length text)) text 0).
Qed.

(** ** The ISO date *)

Lemma str_of_nat_short n :
  n < 100 * 100 -> length (str_of_nat n) <= 4 /\ str_of_nat n <> [].
Proof.
  intros H.
  assert (A : forallb (fun k => (length (str_of_nat k) <=? 4)
                                && negb (length (str_of_nat k) =? 0))
                      (seq 0 (100 * 100)) = true) by (vm_compute; reflexivity).
  rewrite forallb_forall in A. specialize (A n).
  rewrite in_seq in A. specialize (A ltac:(lia)).
  apply andb_true_iff in A. destruct A as [A1 A2].
  apply Nat.leb_le in A1. apply negb_true_iff, Nat.eqb_neq in A2.
  split; [exact A1|]. intros E. now rewrite E in A2.
Qed.

Lemma zfill_length w n : length (str_of_nat n) <= w -> length (zfill w n) = w.
Proof.
  intros H. unfold zfill. rewrite length_app, repeat_length. lia.
Qed.

(** X18.  For a calendar date of a year below 10000 and a day below 100,
    [iso_today] is ten characters long, with a hyphen after the four of
    the year and a hyphen after the two of the month. *)
Theorem iso_today_shape today :
  valid_date today -> year today < 100 * 100 -> day today < 100 ->
  exists y m d,
    iso_today today = y ++ lit "-" ++ m ++ lit "-" ++ d
    /\ length y = 4 /\ length m = 2 /\ length d = 2
    /\ length (iso_today today) = 10.
Proof.
  intros Hv Hy Hd. unfold valid_date in Hv.
  assert (L : forall n, n < 100 -> length (str_of_nat n) <= 2).
  { intros n Hn.
    assert (A : forallb (fun k => length (str_of_nat k) <=? 2) (seq 0 100)
                = true) by (vm_compute; reflexivity).
    rewrite forallb_forall in A. apply Nat.leb_le, A, in_seq. lia. }
  exists (zfill 4 (year today)), (zfill 2 (month today)), (zfill 2 (day today)).
  assert (H4 : length (zfill 4 (year today)) = 4)
    by (apply zfill_length, str_of_nat_short, Hy).
  assert (H2 : length (zfill 2 (month today)) = 2)
    by (apply zfill_length, L; lia).
  assert (H2' : length (zfill 2 (day today)) = 2)
    by (apply zfill_length, L; lia).
  repeat split; try assumption.
  unfold iso_today. rewrite !length_app, H4, H2, H2'. reflexivity.
Qed.

Lemma iso_today_shape_witness :
  exists y m d,
    iso_today (MkDate 2025 11 5) = y ++ lit "-" ++ m ++ lit "-" ++ d
    /\ length y = 4 /\ length m = 2 /\ length d = 2
    /\ length (iso_today (MkDate 2025 11 5)) = 10.
Proof.
  apply (iso_today_shape (MkDate 2025 11 5)).
  - unfold valid_date. simpl. lia.
  - simpl. lia.
  - simpl. lia.
Defined.

(** ** A corporate name with [and] in it *)

(** X19.  The braces of a corporate author do not keep [enforce_initials]
    from splitting the name at an [and] inside them: the two halves are
    treated as two personal names. *)
Theorem corporate_name_with_and_is_split :
  split AND_RE 0 (lit "{Brand and Co}") = [lit "{Brand"; lit "Co}"]
  /\ author_uses_full_given_names (lit "Doe, John and {Brand and Co}") = true
  /\ enforce_initials (lit "Doe, John and {Brand and Co}")
     = Ok (lit "Doe, J. and {Brand,  and Co}, ").
Proof. repeat split; vm_compute; reflexivity. Qed.

(** ** Auditing the audited text *)



End FurtherFacts.
